(** * Relinky CSS tools: a shallow embedding and its verified properties

    Two offline utilities are modelled here:
    - [tools/prune_css.py], the unused-class pruner (module [PruneCss]);
    - [css_analyzer.py], the style-block organizer (module [CssAnalyzer]).

    Python strings are sequences of code points; they are modelled as
    lists of [N].  The fragment of Python's [re] that the two scripts use
    is modelled by a small backtracking matcher (module [Re]).  The file
    that the organizer rewrites is a list of bytes, read and written in
    text mode (module [HtmlFile]). *)

From Stdlib Require Import ZArith NArith Ascii String Strings.Byte List Bool Lia.
From stdpp Require Import base option list gmap strings sorting.
Import ListNotations.

Local Open Scope nat_scope.

(** ** Python strings *)

Module PyStr.

Abbreviation char := N.
Abbreviation str := (list char).

(** A literal of the scripts, as its list of code points. *)
Definition py (s : string) : str := map N_of_ascii (list_ascii_of_string s).

Definition ch (a : ascii) : char := N_of_ascii a.
Arguments ch _%_char : simpl never.
Arguments py : simpl never.

Definition c_dquote : char := 34%N.
Definition c_squote : char := 39%N.
Definition c_backslash : char := 92%N.
Definition c_newline : char := 10%N.
Definition c_space : char := 32%N.

Definition ceq (a b : char) : bool := N.eqb a b.

(** [str.isspace] on one character, which is also what [\s] matches in a
    [str] pattern and what [str.strip] removes: CPython's
    [_PyUnicode_IsWhitespace] table. *)
Definition isspace (c : char) : bool :=
  ((9 <=? c) && (c <=? 13) || (28 <=? c) && (c <=? 32)
   || (c =? 133) || (c =? 160) || (c =? 5760)
   || (8192 <=? c) && (c <=? 8202)
   || (c =? 8232) || (c =? 8233) || (c =? 8239) || (c =? 8287)
   || (c =? 12288))%N.

Fixpoint lstrip (s : str) : str :=
  match s with
  | c :: s' => if isspace c then lstrip s' else s
  | [] => []
  end.

Definition rstrip (s : str) : str := rev (lstrip (rev s)).

(** [s.strip()] *)
Definition strip (s : str) : str := rstrip (lstrip s).

(** [s[a:b]] for [0 <= a], [0 <= b]: out-of-range bounds are clamped. *)
Definition slice (s : str) (a b : nat) : str := take (b - a) (drop a s).

(** [s[a:]] *)
Definition slice_from (s : str) (a : nat) : str := drop a s.

(** Truth value of a string: non-empty. *)
Definition nonempty (s : str) : bool :=
  match s with [] => false | _ :: _ => true end.

(** [a == b] on strings. *)
Definition str_eqb (a b : str) : bool := bool_decide (a = b).

(** [a <= b] on strings: lexicographic on code points. *)
Fixpoint str_leb (a b : str) : bool :=
  match a, b with
  | [], _ => true
  | _ :: _, [] => false
  | x :: a', y :: b' =>
      if (x <? y)%N then true
      else if (y <? x)%N then false
      else str_leb a' b'
  end.

Definition str_le (a b : str) : Prop := str_leb a b = true.

#[global] Instance str_le_dec (a b : str) : Decision (str_le a b).
Proof. unfold str_le. apply _. Defined.

(** [sorted(l)] for a list of strings (a stable merge sort). *)
Definition sorted (l : list str) : list str := merge_sort str_le l.

(** [sep.join(parts)] *)
Fixpoint join (sep : str) (parts : list str) : str :=
  match parts with
  | [] => []
  | [p] => p
  | p :: ps => p ++ sep ++ join sep ps
  end.

(** [''.join(parts)] *)
Definition concat_str (parts : list str) : str := concat parts.

(** [p] is a prefix of [s]. *)
Fixpoint is_prefix (p s : str) : bool :=
  match p, s with
  | [], _ => true
  | x :: p', y :: s' => ceq x y && is_prefix p' s'
  | _ :: _, [] => false
  end.

(** [needle in s] for strings. *)
Fixpoint contains (needle s : str) : bool :=
  is_prefix needle s ||
  match s with
  | [] => false
  | _ :: s' => contains needle s'
  end.

(** [s.startswith(p)] *)
Definition startswith (s p : str) : bool := is_prefix p s.

End PyStr.

Import PyStr.

(** ** The fragment of [re] used by the scripts *)

Module Re.

(** Every quantifier in the scripts' patterns is applied to a single
    character class, so a pattern is a sequence of atoms. *)
Inductive atom :=
| Chr (p : char -> bool)      (* one character of a class *)
| Opt (p : char -> bool)      (* [p?], greedy *)
| Star (p : char -> bool)     (* [p*], greedy *)
| Plus (p : char -> bool)     (* [p+], greedy *)
| Lazy (p : char -> bool)     (* [p*?], non-greedy *)
| Open (g : nat)              (* start of capture group g *)
| Close (g : nat)             (* end of capture group g *)
| Eos.                        (* end of the subject, for [fullmatch] *)

Abbreviation pattern := (list atom).

(** Spans of the groups, relative to the start of the match. *)
Abbreviation caps := (list (nat * nat)).
Definition result := option (nat * caps).
Definition cont := str -> nat -> caps -> result.

(** Greedy repetition of a class: take as many characters as possible,
    give them back one at a time while the rest of the pattern fails. *)
Fixpoint greedy (p : char -> bool) (k : cont) (s : str) (pos : nat)
    (cs : caps) : result :=
  match s with
  | c :: s' =>
      if p c then
        match greedy p k s' (S pos) cs with
        | Some r => Some r
        | None => k s pos cs
        end
      else k s pos cs
  | [] => k s pos cs
  end.

(** Non-greedy repetition: try the rest of the pattern first. *)
Fixpoint lazy_star (p : char -> bool) (k : cont) (s : str) (pos : nat)
    (cs : caps) : result :=
  match k s pos cs with
  | Some r => Some r
  | None =>
      match s with
      | c :: s' => if p c then lazy_star p k s' (S pos) cs else None
      | [] => None
      end
  end.

Fixpoint mtch (pat : pattern) (s : str) (pos : nat) (cs : caps) : result :=
  match pat with
  | [] => Some (pos, cs)
  | a :: pat' =>
      let k := mtch pat' in
      match a with
      | Chr p =>
          match s with
          | c :: s' => if p c then k s' (S pos) cs else None
          | [] => None
          end
      | Opt p =>
          match s with
          | c :: s' =>
              if p c then
                match k s' (S pos) cs with
                | Some r => Some r
                | None => k s pos cs
                end
              else k s pos cs
          | [] => k s pos cs
          end
      | Star p => greedy p k s pos cs
      | Plus p =>
          match s with
          | c :: s' => if p c then greedy p k s' (S pos) cs else None
          | [] => None
          end
      | Lazy p => lazy_star p k s pos cs
      | Open g => k s pos (<[g := (pos, pos)]> cs)
      | Close g =>
          k s pos (<[g := (fst (default (0, 0) (cs !! g)), pos)]> cs)
      | Eos => match s with [] => k s pos cs | _ :: _ => None end
      end
  end.

(** A match object: where it starts and ends in the subject, and the text
    of its groups (index 0 is the whole match). *)
Record match_obj := { m_start : nat; m_end : nat; m_groups : list str }.

Definition group (m : match_obj) (g : nat) : str :=
  default [] (m_groups m !! g).

(** Try the pattern (with [ng] groups) at the head of [s], which starts
    at offset [start] of the subject. *)
Definition match_here (pat : pattern) (ng : nat) (s : str) (start : nat)
    : option match_obj :=
  match mtch pat s 0 (replicate (S ng) (0, 0)) with
  | Some (e, cs) =>
      Some {| m_start := start; m_end := start + e;
              m_groups := map (fun ab => slice s (fst ab) (snd ab))
                              (<[0 := (0, e)]> cs) |}
  | None => None
  end.

(** A pattern with an alternation of literals, as in
    [classList\.(?:add|remove|toggle)...], is the list of its expansions
    tried in order at each position. *)
Fixpoint match_alts (alts : list pattern) (ng : nat) (s : str) (start : nat)
    : option match_obj :=
  match alts with
  | [] => None
  | pat :: alts' =>
      match match_here pat ng s start with
      | Some m => Some m
      | None => match_alts alts' ng s start
      end
  end.

(** [re.match(pat, s)] *)
Definition re_match (pat : pattern) (ng : nat) (s : str) : option match_obj :=
  match_here pat ng s 0.

(** [pat.fullmatch(s)] as a truth value. *)
Definition fullmatch (pat : pattern) (ng : nat) (s : str) : bool :=
  match match_here (pat ++ [Eos]) ng s 0 with Some _ => true | None => false end.

(** [pat.finditer(s)]: the leftmost non-overlapping matches.  [s] is the
    rest of the subject from offset [pos]; [skip] counts the characters
    still covered by the previous match.  None of the patterns scanned
    this way can match the empty string. *)
Fixpoint finditer_from (try : str -> nat -> option match_obj) (s : str)
    (pos skip : nat) : list match_obj :=
  match s with
  | [] => []
  | _ :: s' =>
      match skip with
      | S k => finditer_from try s' (S pos) k
      | 0 =>
          match try s pos with
          | Some m => m :: finditer_from try s' (S pos) (m_end m - pos - 1)
          | None => finditer_from try s' (S pos) 0
          end
      end
  end.

Definition finditer (pat : pattern) (ng : nat) (s : str) : list match_obj :=
  finditer_from (match_here pat ng) s 0 0.

Definition finditer_alts (alts : list pattern) (ng : nat) (s : str)
    : list match_obj :=
  finditer_from (match_alts alts ng) s 0 0.

(** [pat.findall(s)] for a pattern with exactly one group. *)
Definition findall1 (pat : pattern) (s : str) : list str :=
  map (fun m => group m 1) (finditer pat 1 s).

(** [pat.findall(s)] for a pattern with exactly two groups. *)
Definition findall2 (pat : pattern) (s : str) : list (str * str) :=
  map (fun m => (group m 1, group m 2)) (finditer pat 2 s).

(** [re.split(pat, s)] for a pattern without groups: the texts between
    the matches. *)
Fixpoint pieces (s : str) (from : nat) (ms : list match_obj) : list str :=
  match ms with
  | [] => [slice_from s from]
  | m :: ms' => slice s from (m_start m) :: pieces s (m_end m) ms'
  end.

Definition split (pat : pattern) (s : str) : list str :=
  pieces s 0 (finditer pat 0 s).

(** [pat.sub(repl, s)] with a callable [repl]. *)
Fixpoint sub_from (pat : pattern) (ng : nat) (repl : match_obj -> str)
    (s : str) (pos skip : nat) : str :=
  match s with
  | [] => []
  | c :: s' =>
      match skip with
      | S k => sub_from pat ng repl s' (S pos) k
      | 0 =>
          match match_here pat ng s pos with
          | Some m => repl m ++ sub_from pat ng repl s' (S pos) (m_end m - pos - 1)
          | None => c :: sub_from pat ng repl s' (S pos) 0
          end
      end
  end.

Definition sub (pat : pattern) (ng : nat) (repl : match_obj -> str) (s : str)
    : str :=
  sub_from pat ng repl s 0 0.

(** Character classes of the patterns. *)
Definition one (c : char) : char -> bool := ceq c.
Definition other_than (c : char) : char -> bool := fun x => negb (ceq c x).
Definition any : char -> bool := fun _ => true.
Definition in_range (lo hi : char) (c : char) : bool :=
  ((lo <=? c) && (c <=? hi))%N.
Definition ascii_letter (c : char) : bool :=
  in_range 97%N 122%N c || in_range 65%N 90%N c.
Definition ascii_digit (c : char) : bool := in_range 48%N 57%N c.

(** The atoms of a literal text. *)
Definition lit (s : string) : pattern := map (fun c => Chr (one c)) (py s).

End Re.

(** ** [tools/prune_css.py] *)

Module PruneCss.
Import Re.

(** [-?[_a-zA-Z]+[_a-zA-Z0-9-]*] *)
Definition ident_start (c : char) : bool := ceq c (ch "_") || ascii_letter c.
Definition ident_char (c : char) : bool :=
  ceq c (ch "_") || ascii_letter c || ascii_digit c || ceq c (ch "-").
Definition cls_token_re : pattern :=
  [Opt (one (ch "-")); Plus ident_start; Star ident_char].

Definition quote (c : char) : bool := ceq c c_dquote || ceq c c_squote.
Definition not_quote (c : char) : bool := negb (quote c).

(** The patterns of lines 12-17; in these comments Q stands for the
    two-character class of the double and the single quote.
    [class\s*=\s*Q([^Q]+)] *)
Definition class_attr_re : pattern :=
  lit "class" ++ [Star isspace; Chr (one (ch "=")); Star isspace; Chr quote;
                  Open 1; Plus not_quote; Close 1].
(** [className\s*=\s*Q([^Q]+)] *)
Definition class_name_re : pattern :=
  lit "className" ++ [Star isspace; Chr (one (ch "=")); Star isspace; Chr quote;
                      Open 1; Plus not_quote; Close 1].
(** [classList\.(?:add|remove|toggle)\(GROUP\)] with GROUP any run of
    characters other than the closing parenthesis. *)
Definition classlist_re : list pattern :=
  map (fun verb => lit "classList." ++ lit verb ++
                   [Chr (one (ch "(")); Open 1; Star (other_than (ch ")"));
                    Close 1; Chr (one (ch ")"))])
      ["add"; "remove"; "toggle"]%string.
(** [querySelector(?:All)?\(\s*Q\.(GROUP)] with GROUP a non-empty run
    of characters other than a quote or the closing parenthesis. *)
Definition qs_re : list pattern :=
  map (fun all => lit "querySelector" ++ lit all ++
                  [Chr (one (ch "(")); Star isspace; Chr quote;
                   Chr (one (ch ".")); Open 1;
                   Plus (fun c => not_quote c && negb (ceq c (ch ")")));
                   Close 1])
      ["All"; ""]%string.
(** [getElementsByClassName\(\s*Q([^Q]+)] *)
Definition get_by_class_re : pattern :=
  lit "getElementsByClassName" ++
  [Chr (one (ch "(")); Star isspace; Chr quote; Open 1; Plus not_quote; Close 1].
(** [Q([^Q]+)Q] *)
Definition string_literal_re : pattern :=
  [Chr quote; Open 1; Plus not_quote; Close 1; Chr quote].

(** [\s+] and [[^-_a-zA-Z0-9]], the separators of the two [re.split]s. *)
Definition spaces_re : pattern := [Plus isspace].
Definition non_name_re : pattern :=
  [Chr (fun c => negb (ceq c (ch "-") || ceq c (ch "_") || ascii_letter c
                       || ascii_digit c))].

(** The tokens one file adds to [used_classes], in the order of the five
    [for m in ...finditer(text)] loops (lines 29-51). *)
Definition class_tokens_of (value : str) : list str :=
  List.filter (fullmatch cls_token_re 0) (split spaces_re value).

Definition used_in_text (text : str) : list str :=
  flat_map (fun m => class_tokens_of (group m 1)) (finditer class_attr_re 1 text)
  ++ flat_map (fun m => class_tokens_of (group m 1)) (finditer class_name_re 1 text)
  ++ flat_map (fun m =>
       flat_map (fun sm => class_tokens_of (group sm 1))
                (finditer string_literal_re 1 (group m 1)))
       (finditer_alts classlist_re 1 text)
  ++ flat_map (fun m =>
       let first := default [] (head (split non_name_re (group m 1))) in
       if fullmatch cls_token_re 0 first then [first] else [])
       (finditer_alts qs_re 1 text)
  ++ flat_map (fun m => class_tokens_of (group m 1))
              (finditer get_by_class_re 1 text).

(** Outcome of a statement that may raise. *)
Inductive res (A : Type) := Ok (a : A) | Raise.
Arguments Ok {A} a.
Arguments Raise {A}.

Definition bind {A B} (m : res A) (f : A -> res B) : res B :=
  match m with Ok a => f a | Raise => Raise end.

(** [try: body except Exception: handler] *)
Definition try_except {A} (body : res A) (handler : res A) : res A :=
  match body with Ok a => Ok a | Raise => handler end.

(** What the scan observes of one path yielded by [ROOT.rglob('*')]:
    what [path.is_file()] does (it returns a boolean, or raises, as it
    does on a path that may not be examined),
    [path.suffix.lower()], and what
    [path.read_text(encoding='utf-8', errors='ignore')] does. *)
Inductive read_result := ReadOk (text : str) | ReadRaises.
Record path_entry := {
  is_file : res bool;
  suffix_lower : str;
  read_text : read_result
}.

Definition source_suffixes : list str :=
  [py ".html"; py ".js"; py ".ts"; py ".jsx"; py ".tsx"].

Definition do_read (p : path_entry) : res str :=
  match read_text p with ReadOk t => Ok t | ReadRaises => Raise end.

Definition add_all (used : gset str) (tokens : list str) : gset str :=
  fold_left (fun acc t => acc ∪ {[t]}) tokens used.

(** One iteration of [for path in ROOT.rglob('*')] (lines 20-51); the
    three [continue]s leave the set as it is.  The call of [is_file]
    (line 21) is outside the [try]: when it raises, so does the
    iteration. *)
Definition scan_path (used : gset str) (p : path_entry) : res (gset str) :=
  bind (is_file p) (fun file =>
    if negb file then Ok used
    else if negb (existsb (str_eqb (suffix_lower p)) source_suffixes)
    then Ok used
    else
      try_except
        (bind (do_read p) (fun text => Ok (add_all used (used_in_text text))))
        (Ok used)).

Fixpoint scan_tree (used : gset str) (paths : list path_entry)
    : res (gset str) :=
  match paths with
  | [] => Ok used
  | p :: paths' => bind (scan_path used p) (fun used' => scan_tree used' paths')
  end.

(** [used_classes] after lines 19-51. *)
Definition collect_used (paths : list path_entry) : res (gset str) :=
  scan_tree ∅ paths.

(** [comment_re = /\*[\s\S]*?\*/] and the blanking of comments (line 55). *)
Definition comment_re : pattern :=
  [Chr (one (ch "/")); Chr (one (ch "*")); Lazy any;
   Chr (one (ch "*")); Chr (one (ch "/"))].

Definition blank_comments (css_text : str) : str :=
  sub comment_re 0 (fun m => replicate (m_end m - m_start m) c_space) css_text.

(** [class_in_sel_re]: a dot, then group 1 = [-?[_a-zA-Z]+[_a-zA-Z0-9-]*]. *)
Definition class_in_sel_re : pattern :=
  [Chr (one (ch ".")); Open 1; Opt (one (ch "-")); Plus ident_start;
   Star ident_char; Close 1].

(** The [while i < len(prelude)] loop of [split_selectors]; [l] is
    [prelude[i:]].  A backslash inside a string takes the following
    character with it. *)
Fixpoint split_loop (l : str) (parts : list str) (buf : str)
    (depth_paren depth_bracket : Z) (in_str : option char)
    : list str * str :=
  match l with
  | [] => (parts, buf)
  | c :: l' =>
      match in_str with
      | Some q =>
          if ceq c q then
            split_loop l' parts (buf ++ [c]) depth_paren depth_bracket None
          else if ceq c c_backslash then
            match l' with
            | e :: l'' =>
                split_loop l'' parts ((buf ++ [c]) ++ [e])
                           depth_paren depth_bracket in_str
            | [] => (parts, buf ++ [c])
            end
          else split_loop l' parts (buf ++ [c]) depth_paren depth_bracket in_str
      | None =>
          if quote c then
            split_loop l' parts (buf ++ [c]) depth_paren depth_bracket (Some c)
          else
            let depth_paren' :=
              if ceq c (ch "(") then (depth_paren + 1)%Z
              else if ceq c (ch ")") then Z.max 0 (depth_paren - 1)
              else depth_paren in
            let depth_bracket' :=
              if ceq c (ch "(") then depth_bracket
              else if ceq c (ch ")") then depth_bracket
              else if ceq c (ch "[") then (depth_bracket + 1)%Z
              else if ceq c (ch "]") then Z.max 0 (depth_bracket - 1)
              else depth_bracket in
            if ceq c (ch ",") && (depth_paren' =? 0)%Z && (depth_bracket' =? 0)%Z
            then split_loop l' (parts ++ [strip buf]) [] depth_paren' depth_bracket' None
            else split_loop l' parts (buf ++ [c]) depth_paren' depth_bracket' None
      end
  end.

Definition split_selectors (prelude : str) : list str :=
  let '(parts, buf) := split_loop prelude [] [] 0 0 None in
  let parts := if nonempty buf then parts ++ [strip buf] else parts in
  List.filter nonempty parts.

(** *** The segmentation loop (lines 99-171) *)

Record removed_rule := {
  selectors : list str;
  class_tokens : list str
}.

Record state := {
  pos : nat;                          (* i *)
  out : list str;
  removed_rules : list removed_rule;
  kept_count : Z;
  removed_count : Z
}.

Definition init : state :=
  {| pos := 0; out := []; removed_rules := []; kept_count := 0;
     removed_count := 0 |}.

(** What one pass through the body of [while i < n] does: go round
    again, leave by [break], or raise on an index out of range. *)
Inductive outcome := Continue (st : state) | Break (st : state) | IndexError.

(** [out.append(frag); i = i'] *)
Definition emit (st : state) (frag : str) (i' : nat) : state :=
  {| pos := i'; out := out st ++ [frag]; removed_rules := removed_rules st;
     kept_count := kept_count st; removed_count := removed_count st |}.

(** [out.append(frag); kept_count += 1; i = i'] *)
Definition keep (st : state) (frag : str) (i' : nat) : state :=
  {| pos := i'; out := out st ++ [frag]; removed_rules := removed_rules st;
     kept_count := kept_count st + 1; removed_count := removed_count st |}.

(** [removed_rules.append(r); removed_count += 1; i = i'] *)
Definition remove (st : state) (r : removed_rule) (i' : nat) : state :=
  {| pos := i'; out := out st; removed_rules := removed_rules st ++ [r];
     kept_count := kept_count st; removed_count := removed_count st + 1 |}.

(** [while j < n and not stop(s[j]): j += 1], with [l] being [s[j:]]. *)
Fixpoint scan_to (stop : char -> bool) (l : str) (j : nat) : nat :=
  match l with
  | [] => j
  | c :: l' => if stop c then j else scan_to stop l' (S j)
  end.

(** The brace-depth loop of lines 141-146, with [l] being [s[k:]]. *)
Fixpoint scan_body (l : str) (k : nat) (depth : Z) : nat :=
  match l with
  | [] => k
  | c :: l' =>
      if (0 <? depth)%Z then
        scan_body l' (S k)
          (if ceq c (ch "{") then depth + 1
           else if ceq c (ch "}") then depth - 1
           else depth)%Z
      else k
  end.

(** [s[j] == c], evaluated only behind a [j < n] guard. *)
Definition char_is (s : str) (j : nat) (c : char) : bool :=
  match s !! j with Some x => ceq x c | None => false end.

(** [re.match(r'\s*', s).group(0)] *)
Definition leading_space (s : str) : str :=
  match re_match [Star isspace] 0 s with
  | Some m => group m 0
  | None => []
  end.

(** Lines 151-160: the class tokens of the selectors and the two flags,
    as [(class_tokens, any_used, any_class)]. *)
Definition analyse (used_classes : gset str) (sels : list str)
    : list str * bool * bool :=
  fold_left
    (fun acc sel =>
       let '(class_tokens, any_used, any_class) := acc in
       let tokens := findall1 class_in_sel_re sel in
       match tokens with
       | [] => acc
       | _ :: _ =>
           (class_tokens ++ tokens,
            if existsb (fun t => bool_decide (t ∈ used_classes)) tokens
            then true else any_used,
            true)
       end)
    sels ([], false, false).

(** [sorted(set(class_tokens))] *)
Definition sorted_set (class_tokens : list str) : list str :=
  sorted (elements (list_to_set class_tokens : gset str)).

(** Lines 150-170: what is decided for a rule with the given prelude. *)
Inductive decision :=
| KeepNoClass                      (* [not any_class] *)
| KeepUsed                         (* [any_class and any_used] *)
| Remove (r : removed_rule).       (* [any_class and not any_used] *)

Definition verdict (used_classes : gset str) (prelude : str) : decision :=
  let sels := split_selectors prelude in
  let '(tokens, any_used, any_class) := analyse used_classes sels in
  if negb any_class then KeepNoClass
  else if any_used then KeepUsed
  else Remove {| selectors := sels; class_tokens := sorted_set tokens |}.

Section Loop.
Variables (css_text css_nocomments : str) (used_classes : gset str).

Definition n : nat := length css_nocomments.

(** Lines 115-129. *)
Definition at_rule (st : state) : outcome :=
  let i := pos st in
  let j := scan_to (fun c => ceq c (ch "{") || ceq c (ch ";"))
                   (drop i css_nocomments) i in
  if (j <? n) && char_is css_nocomments j (ch ";") then
    Continue (emit st (slice css_text i (j + 1)) (j + 1))
  else if (j <? n) && char_is css_nocomments j (ch "{") then
    Continue (emit st (slice css_text i (j + 1)) (j + 1))
  else Continue (emit st (slice css_text i j) j).

(** Lines 130-171. *)
Definition rule (st : state) : outcome :=
  let i := pos st in
  let j := scan_to (fun c => ceq c (ch "{")) (drop i css_nocomments) i in
  if n <=? j then
    Break (emit st (slice_from css_text i) i)
  else
    let prelude_src := slice css_text i j in
    let prelude_ws := leading_space prelude_src in
    let prelude := strip prelude_src in
    let block_end := scan_body (drop (j + 1) css_nocomments) (j + 1) 1 in
    let body := slice css_text j block_end in
    match verdict used_classes prelude with
    | KeepNoClass =>
        Continue (keep st (prelude_ws ++ prelude ++ body) block_end)
    | KeepUsed =>
        Continue (keep st (prelude_ws ++ prelude ++ body) block_end)
    | Remove r => Continue (remove st r block_end)
    end.

(** The body of [while i < n] (lines 106-171). *)
Definition step (st : state) : outcome :=
  let i := pos st in
  match css_nocomments !! i with
  | None => IndexError
  | Some c =>
      if ceq c (ch "}") then Continue (emit st (py "}") (i + 1))
      else if isspace c then
        match css_text !! i with
        | Some c' => Continue (emit st [c'] (i + 1))
        | None => IndexError
        end
      else if startswith (drop i css_nocomments) (py "@") then at_rule st
      else rule st
  end.

(** The loop as a relation: [loop st k st'] when the loop entered in
    state [st] leaves in state [st'] after [k] passes through its
    body. *)
Inductive loop : state -> nat -> state -> Prop :=
| loop_exit st : n <= pos st -> loop st 0 st
| loop_break st st' : pos st < n -> step st = Break st' -> loop st 1 st'
| loop_next st st' k st'' :
    pos st < n -> step st = Continue st' -> loop st' k st'' ->
    loop st (S k) st''.

Inductive run_result := Finished (st : state) | Raised | OutOfFuel.

(** The loop as a function, bounded by [fuel] passes. *)
Fixpoint run (fuel : nat) (st : state) : run_result :=
  if n <=? pos st then Finished st
  else
    match fuel with
    | 0 => OutOfFuel
    | S fuel' =>
        match step st with
        | Continue st' => run fuel' st'
        | Break st' => Finished st'
        | IndexError => Raised
        end
    end.

End Loop.

(** *** The outputs (lines 173-183) *)

Record report := {
  kept_rules : Z;
  removed_rules_n : Z;
  removed_details : list removed_rule;
  used_classes_count : Z;
  pruned_bytes : Z;
  original_bytes : Z;
  bytes_saved_estimate : Z
}.

(** [len(s)] as a Python integer. *)
Definition len {A} (s : list A) : Z := Z.of_nat (length s).

Definition make_report (css_text : str) (used_classes : gset str)
    (st : state) : str * report :=
  let pruned_css := concat_str (out st) in
  (pruned_css,
   {| kept_rules := kept_count st;
      removed_rules_n := removed_count st;
      removed_details := removed_rules st;
      used_classes_count := Z.of_nat (size used_classes);
      pruned_bytes := len pruned_css;
      original_bytes := len css_text;
      bytes_saved_estimate := len css_text - len pruned_css |}).

(** Lines 53-183 for a stylesheet [css_text] and the set collected by the
    tree scan: the pruned stylesheet and the report.  The loop gets one
    unit of fuel per character. *)
Definition prune_state (css_text : str) (used_classes : gset str) : run_result :=
  let css_nocomments := blank_comments css_text in
  run css_text css_nocomments used_classes (length css_nocomments) init.

Definition prune (css_text : str) (used_classes : gset str)
    : option (str * report) :=
  match prune_state css_text used_classes with
  | Finished st => Some (make_report css_text used_classes st)
  | _ => None
  end.

End PruneCss.

(** ** [css_analyzer.py] *)

Module CssAnalyzer.
Import Re.

(** A [dict] with string keys: Python dictionaries keep insertion order,
    and an assignment to a key that is present keeps its place. *)
Abbreviation dict V := (list (str * V)).

Fixpoint dict_set {V} (d : dict V) (k : str) (v : V) : dict V :=
  match d with
  | [] => [(k, v)]
  | (k', v') :: d' =>
      if str_eqb k' k then (k', v) :: d' else (k', v') :: dict_set d' k v
  end.

Fixpoint dict_get {V} (d : dict V) (k : str) : option V :=
  match d with
  | [] => None
  | (k', v') :: d' => if str_eqb k' k then Some v' else dict_get d' k
  end.

Definition dict_keys {V} (d : dict V) : list str := map fst d.

(** [d[k].extend(xs)] on a [defaultdict(list)]. *)
Definition dict_extend (d : dict (list str)) (k : str) (xs : list str)
    : dict (list str) :=
  dict_set d k (default [] (dict_get d k) ++ xs).

(** The values found in a rules dictionary: the first extractor stores a
    list of declarations, the second one string of properties.  The
    merge step only takes their [len] and iterates over them; iterating
    over a string yields its characters. *)
Inductive value := VList (l : list str) | VStr (s : str).

Definition py_len (v : value) : nat :=
  match v with VList l => length l | VStr s => length s end.

Definition py_iter (v : value) : list str :=
  match v with VList l => l | VStr s => map (fun c => [c]) s end.

(** [s.split(sep)] for a one-character separator. *)
Fixpoint split_on (sep : char) (s : str) (cur : str) : list str :=
  match s with
  | [] => [cur]
  | c :: s' =>
      if ceq c sep then cur :: split_on sep s' [] else split_on sep s' (cur ++ [c])
  end.

(** Lines 7-22, the first [def extract_css_rules]: the pattern is
    group 1 = [[^{]+], then [\s*{\s*], group 2 = [[^}]+], then [\s*}]. *)
Definition rule_re : pattern :=
  [Open 1; Plus (other_than (ch "{")); Close 1; Star isspace;
   Chr (one (ch "{")); Star isspace; Open 2; Plus (other_than (ch "}"));
   Close 2; Star isspace; Chr (one (ch "}"))].

Definition extract_css_rules_l7 (css_content : str) : dict value :=
  let rules := findall2 rule_re css_content in
  map (fun kv => (fst kv, VList (snd kv)))
    (fold_left
       (fun rules_dict '(selector, declarations) =>
          let selector := strip selector in
          let declarations :=
            map strip (List.filter (fun d => nonempty (strip d))
                                   (split_on (ch ";") declarations [])) in
          dict_extend rules_dict selector declarations)
       rules []).

(** Lines 24-37 (the message printed for a repeated key is not modelled). *)
Definition merge_duplicate_selectors (rules_dict : dict value)
    : dict (list str) :=
  fold_left
    (fun merged_selectors '(selector, declarations) =>
       let clean_selector := strip selector in
       if 0 <? py_len declarations then
         dict_extend merged_selectors clean_selector (py_iter declarations)
       else merged_selectors)
    rules_dict [].

Inductive category :=
| keyframes | elements | classes | ids | pseudo | attributes | combinators.

#[global] Instance category_eq_dec : EqDecision category.
Proof. solve_decision. Defined.

Definition category_name (c : category) : str :=
  match c with
  | keyframes => py "keyframes" | elements => py "elements"
  | classes => py "classes" | ids => py "ids" | pseudo => py "pseudo"
  | attributes => py "attributes" | combinators => py "combinators"
  end.

(** Lines 44-58. *)
Definition categorize (selector : str) : category :=
  if contains (py "@keyframes") selector then keyframes
  else if startswith selector (py ".") then classes
  else if startswith selector (py "#") then ids
  else if contains (py ":") selector then pseudo
  else if contains (py "[") selector then attributes
  else if contains (py ">") selector || contains (py "+") selector
          || contains (py "~") selector then combinators
  else elements.

Abbreviation grouped := (list (category * dict (list str))).

Fixpoint group_get (g : grouped) (c : category) : option (dict (list str)) :=
  match g with
  | [] => None
  | (c', d) :: g' => if bool_decide (c' = c) then Some d else group_get g' c
  end.

(** [grouped_selectors[category][selector] = declarations] on a
    [defaultdict(dict)]. *)
Fixpoint group_set (g : grouped) (c : category) (selector : str)
    (declarations : list str) : grouped :=
  match g with
  | [] => [(c, [(selector, declarations)])]
  | (c', d) :: g' =>
      if bool_decide (c' = c) then (c', dict_set d selector declarations) :: g'
      else (c', d) :: group_set g' c selector declarations
  end.

(** Lines 39-62. *)
Definition organize_selectors (merged_selectors : dict (list str)) : grouped :=
  fold_left
    (fun grouped_selectors '(selector, declarations) =>
       group_set grouped_selectors (categorize selector) selector declarations)
    merged_selectors [].

Definition category_order : list category :=
  [keyframes; elements; classes; ids; pseudo; attributes; combinators].

(** [s.upper()], on the category names (lower-case ASCII letters). *)
Definition upper (s : str) : str :=
  map (fun c => if in_range 97%N 122%N c then (c - 32)%N else c) s.

(** The lines appended to [css_parts] for one selector (lines 87-92). *)
Definition rule_lines (selector : str) (declarations : list str) : list str :=
  [selector ++ py " {"]
  ++ map (fun decl => py "    " ++ decl ++ py ";") (sorted declarations)
  ++ [py "}"; []].

(** Lines 79-92 for one category. *)
Definition category_lines (grouped_selectors : grouped) (c : category)
    : list str :=
  match group_get grouped_selectors c with
  | Some d =>
      match d with
      | [] => []
      | _ :: _ =>
          [[c_newline] ++ py "/* " ++ upper (category_name c) ++ py " */"]
          ++ flat_map (fun selector =>
                         rule_lines selector (default [] (dict_get d selector)))
                      (sorted (dict_keys d))
      end
  | None => []
  end.

(** Lines 64-94. *)
Definition generate_organized_css (grouped_selectors : grouped) : str :=
  join [c_newline] (flat_map (category_lines grouped_selectors) category_order).

(** Lines 146-158, the second [def extract_css_rules]: the pattern is a
    dot, group 1 = [[a-zA-Z0-9_-]+], then [\s*{], group 2 = [[^}]+],
    then [}]. *)
Definition class_char (c : char) : bool :=
  ascii_letter c || ascii_digit c || ceq c (ch "_") || ceq c (ch "-").

Definition class_rule_re : pattern :=
  [Chr (one (ch ".")); Open 1; Plus class_char; Close 1; Star isspace;
   Chr (one (ch "{")); Open 2; Plus (other_than (ch "}")); Close 2;
   Chr (one (ch "}"))].

Definition extract_css_rules_l146 (content : str) : dict value :=
  fold_left
    (fun rules m =>
       let class_name := group m 1 in
       let css_properties := strip (group m 2) in
       dict_set rules class_name (VStr css_properties))
    (finditer class_rule_re 2 content) [].

(** The steps of [organize_css_file] between reading and writing the
    file (lines 125-135), over a given rule extractor. *)
Definition organize_with (extract : str -> dict value) (css_content : str)
    : str :=
  let rules_dict := extract css_content in
  let merged_selectors := merge_duplicate_selectors rules_dict in
  let grouped_selectors := organize_selectors merged_selectors in
  generate_organized_css grouped_selectors.

(** *** The module namespace

    Running the module executes its [def] statements from top to bottom;
    each binds its name in the module's globals, a later one replacing an
    earlier one.  A call inside a function body looks the name up in the
    globals when the call runs, that is, after the whole module has been
    executed. *)
Inductive pyobj :=
| Extractor (f : str -> dict value)
| Merger (f : dict value -> dict (list str))
| Grouper (f : dict (list str) -> grouped)
| Renderer (f : grouped -> str)
| OtherFunction.   (* reads or writes files; its body is not modelled *)

Definition module_defs : list (string * pyobj) :=
  [ ("extract_css_rules", Extractor extract_css_rules_l7);
    ("merge_duplicate_selectors", Merger merge_duplicate_selectors);
    ("organize_selectors", Grouper organize_selectors);
    ("generate_organized_css", Renderer generate_organized_css);
    ("extract_css_from_html", OtherFunction);
    ("write_organized_css", OtherFunction);
    ("organize_css_file", OtherFunction);
    ("extract_css_rules", Extractor extract_css_rules_l146);
    ("compare_css_files", OtherFunction) ]%string.

Definition exec_defs (defs : list (string * pyobj)) : gmap string pyobj :=
  fold_left (fun globals '(name, f) => <[name := f]> globals) defs ∅.

Definition globals : gmap string pyobj := exec_defs module_defs.

(** Lines 125-135 of [organize_css_file] with every call resolved in the
    module's globals; [None] stands for a [NameError] or [TypeError]. *)
Definition organize_css (css_content : str) : option str :=
  match globals !! "extract_css_rules"%string,
        globals !! "merge_duplicate_selectors"%string,
        globals !! "organize_selectors"%string,
        globals !! "generate_organized_css"%string with
  | Some (Extractor extract), Some (Merger merge), Some (Grouper group),
    Some (Renderer render) =>
      Some (render (group (merge (extract css_content))))
  | _, _, _, _ => None
  end.

End CssAnalyzer.

(** * Auxiliary definitions for the properties *)

Module Aux.
Import Re PruneCss.

(** A continuation of the matcher is bounded when the end it reports
    lies between the current position and the end of the subject. *)
Definition bounded (k : cont) : Prop :=
  forall s pos cs e cs',
    k s pos cs = Some (e, cs') -> pos <= e <= pos + length s.

(** The number of leading characters of a class. *)
Fixpoint span_len (p : char -> bool) (s : str) : nat :=
  match s with
  | c :: s' => if p c then S (span_len p s') else 0
  | [] => 0
  end.

(** What one pass through the loop body does: it moves the position
    forward, staying within the input, and appends fragments that
    together are the text it has passed, possibly with characters left
    out; or it leaves by [break] after appending the rest of the text. *)
Definition step_spec (css nc : str) (st : state) (o : outcome) : Prop :=
  match o with
  | Continue st' =>
      pos st < pos st' <= n nc /\
      exists frags,
        out st' = out st ++ frags /\
        concat frags `sublist_of` slice css (pos st) (pos st')
  | Break st' =>
      pos st' = pos st /\
      exists frags,
        out st' = out st ++ frags /\
        concat frags `sublist_of` slice_from css (pos st)
  | IndexError => False
  end.

(** The two texts have the same length and the same characters wherever
    the second one is not white space, as the stylesheet and its
    comment-blanked copy do. *)
Definition blanked (css nc : str) : Prop :=
  length css = length nc /\
  forall i c, nc !! i = Some c -> isspace c = false -> css !! i = Some c.

(** [passes css nc used st st']: the loop that is in state [st] is,
    some passes later, in state [st'].  The states of the loop on a
    stylesheet are those it reaches from [init]. *)
Inductive passes (css nc : str) (used : gset str) : state -> state -> Prop :=
| passes_here st : passes css nc used st st
| passes_next st st' st'' :
    pos st < n nc -> step css nc used st = Continue st' ->
    passes css nc used st' st'' -> passes css nc used st st''.

(** What the passes that lead from [st] to [fin] can have done: they
    appended to [out] fragments of the text from [pos st] on, and
    records to [removed_rules], and they only counted up. *)
Definition extends (css : str) (st fin : state) : Prop :=
  exists frags recs,
    out fin = out st ++ frags
    /\ concat frags `sublist_of` slice_from css (pos st)
    /\ removed_rules fin = removed_rules st ++ recs
    /\ (kept_count st <= kept_count fin)%Z
    /\ (removed_count st <= removed_count fin)%Z.

(** The class tokens of a list of selectors, in order, and whether one
    of a list of tokens is in the set of used classes. *)
Definition tokens_of (sels : list str) : list str :=
  flat_map (findall1 class_in_sel_re) sels.

Definition some_used (used : gset str) (toks : list str) : bool :=
  existsb (fun t => bool_decide (t ∈ used)) toks.

(** *** Selector splitting as the specification words it

    The lexical context reached after a prefix of the prelude: the
    quote character of the string one is in, if any; whether the next
    character is escaped by a backslash; and the two nesting depths,
    each floored at zero on an unmatched closing character. *)
Record ctx := {
  in_string : option char;
  escaped : bool;
  paren_depth : Z;
  bracket_depth : Z
}.

Definition ctx0 : ctx :=
  {| in_string := None; escaped := false; paren_depth := 0;
     bracket_depth := 0 |}.

Definition ctx_step (x : ctx) (c : char) : ctx :=
  match in_string x with
  | Some q =>
      if escaped x then
        {| in_string := Some q; escaped := false;
           paren_depth := paren_depth x; bracket_depth := bracket_depth x |}
      else if ceq c q then
        {| in_string := None; escaped := false;
           paren_depth := paren_depth x; bracket_depth := bracket_depth x |}
      else if ceq c c_backslash then
        {| in_string := Some q; escaped := true;
           paren_depth := paren_depth x; bracket_depth := bracket_depth x |}
      else x
  | None =>
      if quote c then
        {| in_string := Some c; escaped := false;
           paren_depth := paren_depth x; bracket_depth := bracket_depth x |}
      else if ceq c (ch "(") then
        {| in_string := None; escaped := false;
           paren_depth := paren_depth x + 1;
           bracket_depth := bracket_depth x |}
      else if ceq c (ch ")") then
        {| in_string := None; escaped := false;
           paren_depth := Z.max 0 (paren_depth x - 1);
           bracket_depth := bracket_depth x |}
      else if ceq c (ch "[") then
        {| in_string := None; escaped := false;
           paren_depth := paren_depth x;
           bracket_depth := bracket_depth x + 1 |}
      else if ceq c (ch "]") then
        {| in_string := None; escaped := false;
           paren_depth := paren_depth x;
           bracket_depth := Z.max 0 (bracket_depth x - 1) |}
      else x
  end.

Definition ctx_of (prefix : str) : ctx := fold_left ctx_step prefix ctx0.

(** Outside any string, with both depth counters at zero. *)
Definition top_level (x : ctx) : bool :=
  match in_string x with
  | None => (paren_depth x =? 0)%Z && (bracket_depth x =? 0)%Z
  | Some _ => false
  end.

(** Position [i] of the prelude is a split point: a comma at top level. *)
Definition is_split_point (prelude : str) (i : nat) : bool :=
  match prelude !! i with
  | Some c => ceq c (ch ",") && top_level (ctx_of (take i prelude))
  | None => false
  end.

(** Cut a text at its marked positions: the pieces completed by a mark,
    and the piece after the last mark.  The marked characters themselves
    are dropped. *)
Fixpoint cut (marks : list bool) (s : str) (cur : str) : list str * str :=
  match s, marks with
  | c :: s', m :: marks' =>
      if m then
        let '(pieces, last) := cut marks' s' [] in (cur :: pieces, last)
      else cut marks' s' (cur ++ [c])
  | _, _ => ([], cur)
  end.

Definition split_points (prelude : str) : list bool :=
  map (is_split_point prelude) (seq 0 (length prelude)).

(** The non-empty trimmed pieces of the prelude between its split
    points. *)
Definition split_at_top_level_commas (prelude : str) : list str :=
  let '(pieces, last) := cut (split_points prelude) prelude [] in
  List.filter nonempty (map strip (pieces ++ [last])).

(** The marks of a text read from context [x], one character at a time. *)
Fixpoint marks_from (x : ctx) (s : str) : list bool :=
  match s with
  | [] => []
  | c :: s' => (ceq c (ch ",") && top_level x) :: marks_from (ctx_step x c) s'
  end.

(** *** The tree scan

    A path takes part in the scan when it is a file with one of the
    source suffixes; what it contributes is the tokens of its text, or
    nothing when reading it raises. *)
Definition eligible (p : path_entry) : bool :=
  match is_file p with
  | Ok file => file && existsb (str_eqb (suffix_lower p)) source_suffixes
  | Raise => false
  end.

(** The call of [is_file] on the path returns. *)
Definition is_file_returns (p : path_entry) : bool :=
  match is_file p with Ok _ => true | Raise => false end.

Definition tokens_of_path (p : path_entry) : list str :=
  if eligible p then
    match read_text p with
    | ReadOk text => used_in_text text
    | ReadRaises => []
    end
  else [].

(** *** The matcher and its groups *)

(** The atom opens or closes group [g]. *)
Definition touches (g : nat) (a : atom) : bool :=
  match a with
  | Open g' | Close g' => bool_decide (g = g')
  | _ => false
  end.

(** A continuation that leaves the span of group [g] as it is. *)
Definition keeps (g : nat) (k : cont) : Prop :=
  forall s pos cs e cs', k s pos cs = Some (e, cs') -> cs' !! g = cs !! g.

End Aux.

Module OrganizerAux.
Import Re CssAnalyzer.

(** No place in the text where the class-only pattern of the organizer
    could start: every dot is followed by the end of the text or by a
    character that cannot be part of a class name. *)
Fixpoint no_class_rule_start (s : str) : bool :=
  match s with
  | [] => true
  | c :: s' =>
      (negb (ceq c (ch ".")) ||
       match s' with d :: _ => negb (class_char d) | [] => true end)
      && no_class_rule_start s'
  end.

(** A text that can be put in front of any text without class-rule
    start and gives a text without class-rule start. *)
Definition closed (s : str) : Prop :=
  forall t, no_class_rule_start t = true -> no_class_rule_start (s ++ t) = true.

Definition dotless (s : str) : Prop := Forall (fun c => c <> ch ".") s.

(** A declaration that is one character long, as the merge step makes
    them from a string of properties. *)
Definition one_char (d : str) : Prop := exists c, d = [c].

(** The keys and the values of a dictionary satisfy two predicates. *)
Definition dict_all {V} (PK : str -> Prop) (PV : V -> Prop) (d : dict V)
    : Prop :=
  Forall (fun kv => PK (fst kv) /\ PV (snd kv)) d.

Definition is_VStr (v : value) : Prop := exists s, v = VStr s.

Definition grouped_all (g : grouped) : Prop :=
  Forall (fun cd => dict_all dotless (Forall one_char) (snd cd)) g.

(** The organizer pipeline as it runs. *)
Definition organize (css_content : str) : str :=
  organize_with extract_css_rules_l146 css_content.

End OrganizerAux.

(** * Auxiliary definitions for the further properties *)

Module PassAux.
Import Re PruneCss Aux.

(** What a pass through the loop body does at position [i], apart from
    the decision on a rule: it depends on the two texts and on [i]
    only. *)
Inductive pass :=
| PEmit (frag : str) (i' : nat)            (* append, go on at [i'] *)
| PBreak (frag : str)                      (* append, [break] *)
| PRule (prelude frag : str) (i' : nat)    (* a rule, to be decided *)
| PError.

Definition pass_at (css nc : str) (i : nat) : pass :=
  match nc !! i with
  | None => PError
  | Some c =>
      if ceq c (ch "}") then PEmit (py "}") (i + 1)
      else if isspace c then
        match css !! i with
        | Some c' => PEmit [c'] (i + 1)
        | None => PError
        end
      else if startswith (drop i nc) (py "@") then
        let j := scan_to (fun c => ceq c (ch "{") || ceq c (ch ";"))
                         (drop i nc) i in
        if (j <? n nc) && char_is nc j (ch ";") then
          PEmit (slice css i (j + 1)) (j + 1)
        else if (j <? n nc) && char_is nc j (ch "{") then
          PEmit (slice css i (j + 1)) (j + 1)
        else PEmit (slice css i j) j
      else
        let j := scan_to (fun c => ceq c (ch "{")) (drop i nc) i in
        if n nc <=? j then PBreak (slice_from css i)
        else
          let prelude_src := slice css i j in
          let block_end := scan_body (drop (j + 1) nc) (j + 1) 1 in
          PRule (strip prelude_src)
                (leading_space prelude_src ++ strip prelude_src
                 ++ slice css j block_end)
                block_end
  end.

Definition apply_pass (used : gset str) (st : state) (p : pass) : outcome :=
  match p with
  | PEmit frag i' => Continue (emit st frag i')
  | PBreak frag => Break (emit st frag (pos st))
  | PRule prelude frag i' =>
      match verdict used prelude with
      | KeepNoClass | KeepUsed => Continue (keep st frag i')
      | Remove r => Continue (remove st r i')
      end
  | PError => IndexError
  end.

(** A record of [removed_rules] as the decision makes them for the set
    [used]: the selectors of some prelude, with their class tokens, of
    which there is at least one and none is used. *)
Definition removal_of (used : gset str) (r : removed_rule) : Prop :=
  exists prelude,
    selectors r = split_selectors prelude
    /\ class_tokens r = sorted_set (tokens_of (selectors r))
    /\ tokens_of (selectors r) <> []
    /\ forall t, t ∈ tokens_of (selectors r) -> t ∉ used.

(** Two states of the loop, reached over the same text for two sets of
    used classes of which the first is included in the second. *)
Definition below (st1 st2 : state) : Prop :=
  pos st1 = pos st2
  /\ (kept_count st1 + removed_count st1
      = kept_count st2 + removed_count st2)%Z
  /\ (kept_count st1 <= kept_count st2)%Z
  /\ concat (out st1) `sublist_of` concat (out st2).

(** Two states that differ in nothing but the rules counted as kept and
    as removed and the fragments of these rules. *)
Definition same_walk (st1 st2 : state) : Prop :=
  pos st1 = pos st2
  /\ (kept_count st1 + removed_count st1
      = kept_count st2 + removed_count st2)%Z.

(** What the loop keeps true of its counters and of its records. *)
Definition accounted (used : gset str) (st : state) : Prop :=
  removed_count st = len (removed_rules st)
  /\ (0 <= kept_count st)%Z
  /\ (kept_count st <= Z.of_nat (length (out st)))%Z
  /\ Forall (removal_of used) (removed_rules st).

End PassAux.

Module CssCompare.
Import Re CssAnalyzer.

#[global] Instance value_eq_dec : EqDecision value.
Proof. solve_decision. Defined.

(** Lines 176-181 of [compare_css_files]: the rules of the second file
    that are missing from the first or differ there. *)
Definition missing_rules (rules1 rules2 : dict value) : dict value :=
  fold_left
    (fun missing_rules '(class_name, properties) =>
       match dict_get rules1 class_name with
       | None => dict_set missing_rules class_name properties
       | Some properties1 =>
           if bool_decide (properties1 <> properties)
           then dict_set missing_rules class_name properties
           else missing_rules
       end)
    rules2 [].

(** Lines 172-181, from the two texts read: both are parsed with the
    [extract_css_rules] in force, the class-only one. *)
Definition compare_contents (content1 content2 : str) : dict value :=
  let rules1 := extract_css_rules_l146 content1 in
  let rules2 := extract_css_rules_l146 content2 in
  missing_rules rules1 rules2.

End CssCompare.

Module AnalyzerAux.
Import Re CssAnalyzer CssCompare.

(** The declarations that the merge step gathers under the selector
    [k]: those of every rule whose trimmed selector is [k], in order. *)
Definition decls_for (k : str) (rules_dict : dict value) : list str :=
  flat_map (fun kv => if str_eqb (strip (fst kv)) k then py_iter (snd kv)
                      else [])
           rules_dict.

(** The last match whose group 1 is [k]. *)
Definition last_rule_for (k : str) (ms : list match_obj) : option match_obj :=
  List.find (fun m => str_eqb (group m 1) k) (rev ms).

(** The test of line 180. *)
Definition differs (rules1 : dict value) (k : str) (v : value) : bool :=
  match dict_get rules1 k with
  | None => true
  | Some v1 => bool_decide (v1 <> v)
  end.

(** A declaration and a selector as the generic extractor stores them. *)
Definition declaration_ok (d : str) : Prop :=
  d <> [] /\ strip d = d /\ Forall (fun c => c <> ch ";") d.

Definition selector_ok (k : str) : Prop :=
  strip k = k /\ Forall (fun c => c <> ch "{") k.

End AnalyzerAux.

Module StyleBlock.
Import Re CssAnalyzer.

(** [re.search]: the match at the leftmost position where the pattern
    matches. *)
Fixpoint search_from (try : str -> nat -> option match_obj) (s : str)
    (pos : nat) : option match_obj :=
  match try s pos with
  | Some m => Some m
  | None =>
      match s with
      | [] => None
      | _ :: s' => search_from try s' (S pos)
      end
  end.

(** The pattern of line 105, with [re.DOTALL]: the opening tag, group 1
    = any characters, as few as possible, then the closing tag. *)
Definition style_re : pattern :=
  lit "<style>" ++ [Open 1; Lazy any; Close 1] ++ lit "</style>".

(** Lines 104-108 of [extract_css_from_html], from the text read. *)
Definition extract_css_from_html (content : str) : str * str :=
  match search_from (match_here style_re 1) content 0 with
  | Some css_match => (content, group css_match 1)
  | None => (content, [])
  end.

(** [s.replace(old, new)]: the occurrences of [old] are replaced from
    left to right, without overlap.  [skip] counts the characters still
    covered by the occurrence just replaced. *)
Fixpoint replace_from (old new : str) (s : str) (skip : nat) : str :=
  match s with
  | [] => []
  | c :: s' =>
      match skip with
      | S k => replace_from old new s' k
      | 0 =>
          if is_prefix old s
          then new ++ replace_from old new s' (length old - 1)
          else c :: replace_from old new s' 0
      end
  end.

Definition replace (old new : str) (s : str) : str :=
  match old with
  | [] => new ++ flat_map (fun c => c :: new) s
  | _ :: _ => replace_from old new s 0
  end.

(** Lines 112-115 of [write_organized_css]: the text that is written
    back to the file. *)
Definition write_organized_css (full_content original_css organized_css : str)
    : str :=
  replace (py "<style>" ++ original_css ++ py "</style>")
          (py "<style>" ++ [c_newline] ++ organized_css ++ [c_newline]
           ++ py "</style>")
          full_content.

End StyleBlock.

Module StyleBlockAux.
Import Re CssAnalyzer StyleBlock.

(** The first position at which [w] occurs in [s]. *)
Fixpoint find_sub (w s : str) : option nat :=
  if is_prefix w s then Some 0
  else
    match s with
    | [] => None
    | _ :: s' => S <$> find_sub w s'
    end.

Definition open_tag : str := py "<style>".
Definition close_tag : str := py "</style>".

End StyleBlockAux.

(** ** The file of the organizer

    [organize_css_file] reads the file through [open(file_path, 'r',
    encoding=...)] and writes it through [open(file_path, 'w',
    encoding='utf-8')], both in text mode: the bytes of the file are
    decoded and the line ends translated on the way in, and the other
    way round on the way out.  The file is one that can be opened for
    reading and for writing. *)

Module HtmlFile.
Import Re CssAnalyzer StyleBlock.
Local Open Scope N_scope.

(** The byte of a value below 256. *)
Definition byte_of (v : N) : byte := default Byte.x00 (Byte.of_N v).

(** *** UTF-8 *)

(** A continuation byte, [80..BF]. *)
Definition continuation (v : N) : bool := (128 <=? v) && (v <=? 191).

(** The second byte of a sequence of three or of four bytes: the
    ranges that leave out the overlong forms, the surrogates and what
    lies above [U+10FFFF]. *)
Definition second_of_three (v1 v2 : N) : bool :=
  if v1 =? 224 then (160 <=? v2) && (v2 <=? 191)
  else if v1 =? 237 then (128 <=? v2) && (v2 <=? 159)
  else continuation v2.

Definition second_of_four (v1 v2 : N) : bool :=
  if v1 =? 240 then (144 <=? v2) && (v2 <=? 191)
  else if v1 =? 244 then (128 <=? v2) && (v2 <=? 143)
  else continuation v2.

(** [data.decode('utf-8')], strict; [None] for [UnicodeDecodeError]. *)
Fixpoint utf8_decode (data : list byte) : option str :=
  match data with
  | [] => Some []
  | b1 :: t1 =>
      let v1 := Byte.to_N b1 in
      if v1 <? 128 then cons v1 <$> utf8_decode t1
      else
        match t1 with
        | [] => None
        | b2 :: t2 =>
            let v2 := Byte.to_N b2 in
            if (194 <=? v1) && (v1 <=? 223) then
              if continuation v2
              then cons ((v1 - 192) * 64 + (v2 - 128)) <$> utf8_decode t2
              else None
            else
              match t2 with
              | [] => None
              | b3 :: t3 =>
                  let v3 := Byte.to_N b3 in
                  if (224 <=? v1) && (v1 <=? 239) then
                    if second_of_three v1 v2 && continuation v3
                    then cons (((v1 - 224) * 64 + (v2 - 128)) * 64
                               + (v3 - 128)) <$> utf8_decode t3
                    else None
                  else
                    match t3 with
                    | [] => None
                    | b4 :: t4 =>
                        let v4 := Byte.to_N b4 in
                        if (240 <=? v1) && (v1 <=? 244)
                           && second_of_four v1 v2
                           && continuation v3 && continuation v4
                        then cons ((((v1 - 240) * 64 + (v2 - 128)) * 64
                                    + (v3 - 128)) * 64 + (v4 - 128))
                               <$> utf8_decode t4
                        else None
                    end
              end
        end
  end.

(** The bytes of one character in UTF-8; [None] for a surrogate, which
    the strict encoder refuses (and for a number that is no code
    point). *)
Definition utf8_encode_char (c : char) : option (list byte) :=
  if c <? 128 then Some [byte_of c]
  else if c <? 2048 then
    Some [byte_of (192 + c / 64); byte_of (128 + c mod 64)]
  else if c <? 65536 then
    if (55296 <=? c) && (c <=? 57343) then None
    else Some [byte_of (224 + c / 4096); byte_of (128 + (c / 64) mod 64);
               byte_of (128 + c mod 64)]
  else if c <? 1114112 then
    Some [byte_of (240 + c / 262144); byte_of (128 + (c / 4096) mod 64);
          byte_of (128 + (c / 64) mod 64); byte_of (128 + c mod 64)]
  else None.

(** [text.encode('utf-8')], strict; [None] for [UnicodeEncodeError]. *)
Fixpoint utf8_encode (text : str) : option (list byte) :=
  match text with
  | [] => Some []
  | c :: text' =>
      match utf8_encode_char c, utf8_encode text' with
      | Some bytes, Some rest => Some (bytes ++ rest)
      | _, _ => None
      end
  end.

(** [data.decode('utf-8-sig')] as the reader of a text file does it, on
    the whole file at once: a byte order mark at the start is left out;
    of a file that is shorter than the mark and begins like it nothing
    is decoded, and nothing is raised. *)
Definition bom : list N := [239; 187; 191].

Definition utf8_sig_decode (data : list byte) : option str :=
  let values := map Byte.to_N data in
  if (length data <? 3)%nat && is_prefix values bom then Some []
  else if is_prefix bom values then utf8_decode (drop 3 data)
  else utf8_decode data.

(** *** Line ends *)

Definition c_return : char := 13.

(** Reading in text mode with the default [newline=None]: the line
    ends [\r\n] and [\r] come out as [\n]. *)
Fixpoint universal_newlines (text : str) : str :=
  match text with
  | [] => []
  | c :: text' =>
      if ceq c c_return then
        c_newline ::
          match text' with
          | c' :: text'' =>
              if ceq c' c_newline then universal_newlines text''
              else universal_newlines text'
          | [] => []
          end
      else c :: universal_newlines text'
  end.

(** [os.linesep] *)
Inductive os_name := Posix | Nt.

Definition linesep (os : os_name) : str :=
  match os with
  | Posix => [c_newline]
  | Nt => [c_return; c_newline]
  end.

(** Writing in text mode with the default [newline=None]: every [\n]
    is written as [os.linesep]. *)
Definition write_newlines (os : os_name) (text : str) : str :=
  flat_map (fun c => if ceq c c_newline then linesep os else [c]) text.

(** *** Reading and writing the file *)

(** Lines 97-102 of [extract_css_from_html]: the file is read as UTF-8
    and, when that raises [UnicodeDecodeError], once more as
    [utf-8-sig]; an error of the second reading is not caught. *)
Definition read_as (decode : list byte -> option str) (data : list byte)
    : PruneCss.res str :=
  match decode data with
  | Some text => PruneCss.Ok (universal_newlines text)
  | None => PruneCss.Raise
  end.

Definition read_text_file (data : list byte) : PruneCss.res str :=
  match read_as utf8_decode data with
  | PruneCss.Ok content => PruneCss.Ok content
  | PruneCss.Raise => read_as utf8_sig_decode data
  end.

(** How a call ends, and what the file holds then. *)
Inductive ending := Returns (file : list byte) | Raises (file : list byte).

(** Lines 117-119 of [write_organized_css]: [open(file_path, 'w')]
    empties the file, and [f.write] encodes the whole text before it
    writes any of it. *)
Definition write_text_file (os : os_name) (text : str) : ending :=
  match utf8_encode (write_newlines os text) with
  | Some data => Returns data
  | None => Raises []
  end.

(** [organize_css_file] (lines 121-138) on a file that holds [data]; the
    messages printed at the end are left out. *)
Definition organize_css_file (os : os_name) (data : list byte) : ending :=
  match read_text_file data with
  | PruneCss.Raise => Raises data
  | PruneCss.Ok content =>
      let '(full_content, css_content) := extract_css_from_html content in
      match organize_css css_content with
      | Some organized_css =>
          write_text_file os
            (write_organized_css full_content css_content organized_css)
      | None => Raises data
      end
  end.

End HtmlFile.

Module HtmlFileAux.
Import HtmlFile.

(** The characters that the strict encoder accepts. *)
Definition encodable (c : char) : bool :=
  match utf8_encode_char c with Some _ => true | None => false end.

(** The bytes of a text of ASCII characters. *)
Definition ascii_bytes (s : string) : list byte := list_byte_of_string s.

End HtmlFileAux.

(** * Properties *)

Import PruneCss Re Aux.

(** ** Strings *)

Section StringFacts.

Lemma lstrip_length (s : str) : length (lstrip s) <= length s.
Proof.
  induction s as [|c s IH]; simpl; [lia|].
  destruct (isspace c); simpl; lia.
Qed.

Lemma rstrip_length (s : str) : length (rstrip s) <= length s.
Proof.
  unfold rstrip. rewrite length_rev.
  etransitivity; [apply lstrip_length|]. by rewrite length_rev.
Qed.

Lemma strip_length (s : str) : length (strip s) <= length (lstrip s).
Proof. apply rstrip_length. Qed.

Lemma slice_length (s : str) (a b : nat) : length (slice s a b) <= b - a.
Proof. unfold slice. rewrite length_take. lia. Qed.

Lemma slice_length_exact (s : str) (a b : nat) :
  a <= b -> b <= length s -> length (slice s a b) = b - a.
Proof. intros. unfold slice. rewrite length_take, length_drop. lia. Qed.

Lemma ceq_true (a b : char) : ceq a b = true <-> a = b.
Proof. unfold ceq. apply N.eqb_eq. Qed.

Lemma ceq_false (a b : char) : ceq a b = false <-> a <> b.
Proof. unfold ceq. apply N.eqb_neq. Qed.

End StringFacts.

(** ** The matcher *)

Section MatcherFacts.

Lemma greedy_bounded p k : bounded k -> bounded (greedy p k).
Proof.
  intros Hk s. induction s as [|c s IH]; intros pos cs e cs' H; simpl in H.
  - by apply Hk in H.
  - destruct (p c).
    + destruct (greedy p k s (S pos) cs) as [[e1 cs1]|] eqn:E.
      * inversion H; subst. apply IH in E. simpl. lia.
      * by apply Hk in H.
    + by apply Hk in H.
Qed.

Lemma lazy_star_bounded p k : bounded k -> bounded (lazy_star p k).
Proof.
  intros Hk s. induction s as [|c s IH]; intros pos cs e cs' H; simpl in H.
  - destruct (k [] pos cs) as [[e1 cs1]|] eqn:E; [|done].
    inversion H; subst. by apply Hk in E.
  - destruct (k (c :: s) pos cs) as [[e1 cs1]|] eqn:E.
    + inversion H; subst. by apply Hk in E.
    + destruct (p c); [|done]. apply IH in H. simpl. lia.
Qed.

Lemma mtch_bounded pat : bounded (mtch pat).
Proof.
  induction pat as [|a pat IH]; intros s pos cs e cs' H.
  - inversion H; subst. lia.
  - destruct a; simpl in H.
    + destruct s as [|c s]; [done|]. destruct (p c); [|done].
      apply IH in H. simpl. lia.
    + destruct s as [|c s]; [by apply IH in H|].
      destruct (p c); [|by apply IH in H].
      destruct (mtch pat s (S pos) cs) as [[e1 cs1]|] eqn:E.
      * inversion H; subst. apply IH in E. simpl. lia.
      * by apply IH in H.
    + by apply (greedy_bounded p _ IH) in H.
    + destruct s as [|c s]; [done|]. destruct (p c); [|done].
      apply (greedy_bounded p _ IH) in H. simpl. lia.
    + by apply (lazy_star_bounded p _ IH) in H.
    + by apply IH in H.
    + by apply IH in H.
    + destruct s; [|done]. by apply IH in H.
Qed.

(** The equations of [mtch], one per atom. *)
Lemma mtch_Chr p pat s pos cs :
  mtch (Chr p :: pat) s pos cs =
  match s with
  | c :: s' => if p c then mtch pat s' (S pos) cs else None
  | [] => None
  end.
Proof. reflexivity. Qed.

Lemma mtch_Star p pat s pos cs :
  mtch (Star p :: pat) s pos cs = greedy p (mtch pat) s pos cs.
Proof. reflexivity. Qed.

Lemma mtch_Plus p pat s pos cs :
  mtch (Plus p :: pat) s pos cs =
  match s with
  | c :: s' => if p c then greedy p (mtch pat) s' (S pos) cs else None
  | [] => None
  end.
Proof. reflexivity. Qed.

Lemma mtch_Lazy p pat s pos cs :
  mtch (Lazy p :: pat) s pos cs = lazy_star p (mtch pat) s pos cs.
Proof. reflexivity. Qed.

Lemma mtch_Open g pat s pos cs :
  mtch (Open g :: pat) s pos cs = mtch pat s pos (<[g := (pos, pos)]> cs).
Proof. reflexivity. Qed.

Lemma mtch_Close g pat s pos cs :
  mtch (Close g :: pat) s pos cs =
  mtch pat s pos (<[g := (fst (default (0, 0) (cs !! g)), pos)]> cs).
Proof. reflexivity. Qed.

Lemma match_here_bounds pat ng s start m :
  match_here pat ng s start = Some m ->
  m_start m = start /\ start <= m_end m <= start + length s.
Proof.
  unfold match_here.
  destruct (mtch pat s 0 _) as [[e cs]|] eqn:E; [|done].
  intros [= <-]. simpl. apply mtch_bounded in E. lia.
Qed.

(** Replacing every match by a text of the same length keeps the length
    of the subject, provided no match is empty. *)
Lemma sub_from_length pat ng repl :
  (forall s pos m, match_here pat ng s pos = Some m ->
                   pos < m_end m /\ length (repl m) = m_end m - pos) ->
  forall s pos skip, skip <= length s ->
    length (sub_from pat ng repl s pos skip) + skip = length s.
Proof.
  intros Hm s. induction s as [|c s IH]; intros pos skip Hs; simpl in *.
  - lia.
  - destruct skip as [|k].
    + destruct (match_here pat ng (c :: s) pos) as [m|] eqn:E.
      * destruct (Hm _ _ _ E) as [H1 H2].
        apply match_here_bounds in E as [_ E]. simpl in E.
        rewrite length_app, H2.
        specialize (IH (S pos) (m_end m - pos - 1)). lia.
      * simpl. specialize (IH (S pos) 0). lia.
    + specialize (IH (S pos) k). lia.
Qed.

Lemma greedy_end p s pos cs :
  greedy p (mtch []) s pos cs = Some (pos + span_len p s, cs).
Proof.
  revert pos. induction s as [|c s IH]; intros pos; simpl.
  - f_equal. f_equal. lia.
  - destruct (p c); [|f_equal; f_equal; lia].
    rewrite IH. f_equal. f_equal. lia.
Qed.

Lemma leading_space_eq s : leading_space s = take (span_len isspace s) s.
Proof.
  unfold leading_space, re_match, match_here. simpl.
  rewrite greedy_end. simpl. unfold group. simpl. unfold slice.
  by rewrite Nat.sub_0_r.
Qed.

Lemma leading_space_lstrip s : leading_space s ++ lstrip s = s.
Proof.
  rewrite leading_space_eq.
  induction s as [|c s IH]; simpl; [done|].
  destruct (isspace c); simpl; [by rewrite IH|done].
Qed.

(** Replacing every match by blanks changes no character that is not
    blank afterwards. *)
Lemma sub_from_agree pat ng repl :
  (forall s pos m, match_here pat ng s pos = Some m ->
                   pos < m_end m /\
                   repl m = replicate (m_end m - pos) c_space) ->
  forall s pos skip i c, skip <= length s ->
    sub_from pat ng repl s pos skip !! i = Some c ->
    c = c_space \/ s !! (i + skip) = Some c.
Proof.
  intros Hm s. induction s as [|c0 s IH]; intros pos skip i c Hs H;
    cbn [sub_from] in H; [done|].
  cbn [length] in Hs. destruct skip as [|k].
  - destruct (match_here pat ng (c0 :: s) pos) as [m|] eqn:E.
    + destruct (Hm _ _ _ E) as [H1 H2].
      apply match_here_bounds in E as [_ E]. cbn [length] in E.
      rewrite H2 in H.
      destruct (decide (i < m_end m - pos)) as [Hi|Hi].
      * rewrite lookup_app_l in H by (by rewrite length_replicate).
        apply lookup_replicate_1 in H as [-> _]. by left.
      * rewrite lookup_app_r in H by (rewrite length_replicate; lia).
        rewrite length_replicate in H.
        apply IH in H; [|lia]. destruct H as [->|H]; [by left|]. right.
        rewrite Nat.add_0_r.
        replace i with (S (i - (m_end m - pos) + (m_end m - pos - 1))) by lia.
        done.
    + destruct i as [|i]; cbn in H.
      * injection H as <-. by right.
      * apply IH in H; [|lia]. destruct H as [->|H]; [by left|]. by right.
  - apply IH in H; [|lia]. destruct H as [->|H]; [by left|]. right.
    by replace (i + S k) with (S (i + k)) by lia.
Qed.

Lemma blank_comments_length s : length (blank_comments s) = length s.
Proof.
  unfold blank_comments, sub.
  assert (Hm : forall s pos m, match_here comment_re 0 s pos = Some m ->
            pos < m_end m /\
            length (replicate (m_end m - m_start m) c_space) = m_end m - pos).
  { clear. intros s pos m Hm.
    pose proof (match_here_bounds _ _ _ _ _ Hm) as [Hs _].
    rewrite length_replicate, Hs. split; [|done].
    unfold match_here in Hm.
    destruct (mtch comment_re s 0 _) as [[e cs]|] eqn:E; [|done].
    injection Hm as <-. simpl.
    unfold comment_re in E. rewrite mtch_Chr in E.
    destruct s as [|c1 s]; [done|]. destruct (one _ c1); [|done].
    rewrite mtch_Chr in E.
    destruct s as [|c2 s]; [done|]. destruct (one _ c2); [|done].
    apply mtch_bounded in E. lia. }
  pose proof (sub_from_length comment_re 0 _ Hm s 0 0) as H. lia.
Qed.

Lemma blank_comments_blanked s : blanked s (blank_comments s).
Proof.
  split; [by rewrite blank_comments_length|].
  intros i c Hc Hsp. unfold blank_comments, sub in Hc.
  apply sub_from_agree in Hc; [|clear i c Hc Hsp|lia].
  - destruct Hc as [->|Hc]; [done|]. by rewrite Nat.add_0_r in Hc.
  - clear. intros s pos m Hm.
    pose proof (match_here_bounds _ _ _ _ _ Hm) as [Hs _].
    rewrite Hs. split; [|done].
    unfold match_here in Hm.
    destruct (mtch comment_re s 0 _) as [[e cs]|] eqn:E; [|done].
    injection Hm as <-. cbn [m_end].
    unfold comment_re in E. rewrite mtch_Chr in E.
    destruct s as [|c1 s]; [done|]. destruct (one _ c1); [|done].
    rewrite mtch_Chr in E.
    destruct s as [|c2 s]; [done|]. destruct (one _ c2); [|done].
    apply mtch_bounded in E. lia.
Qed.

End MatcherFacts.

(** ** The segmentation loop *)

Section Segmentation.

Lemma scan_to_bounds stop l j : j <= scan_to stop l j <= j + length l.
Proof.
  revert j. induction l as [|c l IH]; intros j; simpl; [lia|].
  destruct (stop c); [lia|]. specialize (IH (S j)). lia.
Qed.

Lemma scan_to_skip stop c l j :
  stop c = false -> scan_to stop (c :: l) j = scan_to stop l (S j).
Proof. intros H. simpl. by rewrite H. Qed.



Lemma scan_body_bounds l k d : k <= scan_body l k d <= k + length l.
Proof.
  revert k d. induction l as [|c l IH]; intros k d; simpl; [lia|].
  destruct (0 <? d)%Z; [|lia].
  match goal with |- context [scan_body l (S k) ?d'] =>
    specialize (IH (S k) d') end. lia.
Qed.

Lemma lstrip_sublist (s : str) : lstrip s `sublist_of` s.
Proof.
  induction s as [|c s IH]; cbn [lstrip]; [done|].
  destruct (isspace c); [by apply sublist_cons|done].
Qed.

Lemma sublist_rev (a b : str) : a `sublist_of` b -> rev a `sublist_of` rev b.
Proof.
  induction 1 as [|x a b H IH|x a b H IH]; cbn [rev]; [done| |].
  - by apply sublist_app.
  - by apply sublist_inserts_r.
Qed.

Lemma strip_sublist (s : str) : strip s `sublist_of` lstrip s.
Proof.
  unfold strip, rstrip.
  rewrite <- (rev_involutive (lstrip s)) at 2.
  apply sublist_rev, lstrip_sublist.
Qed.

Lemma kept_fragment_sublist (src body : str) :
  leading_space src ++ strip src ++ body `sublist_of` src ++ body.
Proof.
  rewrite app_assoc. apply sublist_app; [|done].
  rewrite <- (leading_space_lstrip src) at 3.
  apply sublist_app; [done|apply strip_sublist].
Qed.

Lemma slice_join (s : str) (i j k : nat) :
  i <= j -> j <= k -> slice s i j ++ slice s j k = slice s i k.
Proof.
  intros Hij Hjk. unfold slice.
  replace (drop j s) with (drop (j - i) (drop i s))
    by (rewrite drop_drop; f_equal; lia).
  rewrite take_take_drop. f_equal. lia.
Qed.

Lemma take_slice (s : str) (i j : nat) :
  i <= j -> take i s ++ slice s i j = take j s.
Proof.
  intros Hij. unfold slice. rewrite take_take_drop. f_equal. lia.
Qed.

Lemma slice_one (s : str) (i : nat) (c : char) :
  s !! i = Some c -> slice s i (i + 1) = [c].
Proof.
  intros H. unfold slice. rewrite (drop_S _ _ _ H).
  replace (i + 1 - i) with 1 by lia. done.
Qed.

Lemma startswith_at c l : startswith (c :: l) (py "@") = true -> c = ch "@".
Proof.
  change (py "@") with [ch "@"]. unfold startswith. cbn [is_prefix].
  intros H. apply andb_true_iff in H as [H _]. apply ceq_true in H. by subst.
Qed.

Ltac unfold_step :=
  unfold emit, keep, remove; cbn [pos out].

Variables (css nc : str) (used : gset str).
Hypothesis Hblank : blanked css nc.

Local Abbreviation step_spec := (step_spec css nc).

Lemma emit_spec st frag i' :
  pos st < i' <= n nc -> frag `sublist_of` slice css (pos st) i' ->
  step_spec st (Continue (emit st frag i')).
Proof.
  intros Hi Hf. cbn [Aux.step_spec]. unfold_step. split; [done|].
  exists [frag]. split; [done|]. cbn [concat]. by rewrite app_nil_r.
Qed.

Lemma keep_spec st frag i' :
  pos st < i' <= n nc -> frag `sublist_of` slice css (pos st) i' ->
  step_spec st (Continue (keep st frag i')).
Proof.
  intros Hi Hf. cbn [Aux.step_spec]. unfold_step. split; [done|].
  exists [frag]. split; [done|]. cbn [concat]. by rewrite app_nil_r.
Qed.

Lemma remove_spec st r i' :
  pos st < i' <= n nc -> step_spec st (Continue (remove st r i')).
Proof.
  intros Hi. cbn [Aux.step_spec]. unfold_step. split; [done|].
  exists []. split; [by rewrite app_nil_r|apply sublist_nil_l].
Qed.

Lemma at_rule_spec st c :
  nc !! pos st = Some c -> c = ch "@" ->
  step_spec st (at_rule css nc st).
Proof.
  intros Hc ->. unfold at_rule.
  pose proof (lookup_lt_Some _ _ _ Hc) as Hi. fold (n nc) in Hi.
  rewrite (drop_S _ _ _ Hc), scan_to_skip by reflexivity.
  set (j := scan_to _ _ _).
  pose proof (scan_to_bounds (fun c => ceq c (ch "{") || ceq c (ch ";"))
                (drop (S (pos st)) nc) (S (pos st))) as Hj.
  fold j in Hj. rewrite length_drop in Hj. fold (n nc) in Hj.
  destruct (j <? n nc) eqn:Ej; cbn [andb].
  - apply Nat.ltb_lt in Ej.
    destruct (char_is nc j (ch ";")); [|destruct (char_is nc j (ch "{"))];
      apply emit_spec; (done || lia).
  - apply Nat.ltb_ge in Ej. apply emit_spec; (done || lia).
Qed.

Lemma rule_spec st :
  pos st < n nc -> step_spec st (rule css nc used st).
Proof.
  intros Hi. unfold rule.
  set (j := scan_to _ _ _).
  pose proof (scan_to_bounds (fun c => ceq c (ch "{"))
                (drop (pos st) nc) (pos st)) as Hj.
  fold j in Hj. rewrite length_drop in Hj. fold (n nc) in Hj.
  destruct (n nc <=? j) eqn:Ej.
  - cbn [Aux.step_spec]. unfold_step. split; [done|].
    exists [slice_from css (pos st)]. split; [done|].
    cbn [concat]. by rewrite app_nil_r.
  - apply Nat.leb_gt in Ej.
    set (block_end := scan_body _ _ _).
    pose proof (scan_body_bounds (drop (j + 1) nc) (j + 1) 1) as Hb.
    fold block_end in Hb. rewrite length_drop in Hb. fold (n nc) in Hb.
    assert (Hk : leading_space (slice css (pos st) j)
                 ++ strip (slice css (pos st) j) ++ slice css j block_end
                 `sublist_of` slice css (pos st) block_end).
    { rewrite <- (slice_join css (pos st) j block_end) by lia.
      apply kept_fragment_sublist. }
    destruct (verdict used _);
      [apply keep_spec|apply keep_spec|apply remove_spec]; (done || lia).
Qed.

Lemma step_spec_holds st : pos st < n nc -> step_spec st (step css nc used st).
Proof.
  intros Hi. destruct Hblank as [Hlen Hagree]. unfold step.
  destruct (nc !! pos st) as [c|] eqn:Hc.
  2:{ apply lookup_ge_None in Hc. unfold n in Hi. lia. }
  destruct (ceq c (ch "}")) eqn:Eb.
  { apply ceq_true in Eb. subst c. apply emit_spec; [lia|].
    rewrite (slice_one css (pos st) (ch "}")); [done|].
    by apply Hagree. }
  destruct (isspace c).
  { destruct (css !! pos st) as [c'|] eqn:Hc'.
    - apply emit_spec; [lia|]. by rewrite (slice_one css (pos st) c').
    - apply lookup_ge_None in Hc'. unfold n in Hi. cbn. lia. }
  destruct (startswith _ _) eqn:Es.
  - apply (at_rule_spec st c Hc).
    rewrite (drop_S _ _ _ Hc) in Es. by apply startswith_at in Es.
  - by apply rule_spec.
Qed.

Lemma run_finishes fuel st :
  concat (out st) `sublist_of` take (pos st) css -> pos st <= n nc ->
  n nc - pos st <= fuel ->
  exists k st',
    run css nc used fuel st = Finished st' /\
    loop css nc used st k st' /\
    k <= n nc - pos st /\
    concat (out st') `sublist_of` css.
Proof.
  revert st. induction fuel as [|fuel IH]; intros st Ho Hp Hf.
  - exists 0, st. cbn [run]. replace (n nc <=? pos st) with true
      by (symmetry; apply Nat.leb_le; lia).
    repeat split; [constructor; lia|lia|].
    etransitivity; [done|apply sublist_take].
  - cbn [run]. destruct (n nc <=? pos st) eqn:E.
    + apply Nat.leb_le in E. exists 0, st.
      repeat split; [by constructor|lia|].
      etransitivity; [done|apply sublist_take].
    + apply Nat.leb_gt in E.
      pose proof (step_spec_holds st E) as Hs.
      destruct (step css nc used st) as [st'|st'|] eqn:Est;
        cbn [Aux.step_spec] in Hs.
      * destruct Hs as (Hs1 & frags & Hs2 & Hs3).
        destruct (IH st') as (k & st'' & Hr & Hl & Hk & Hsub); [|lia|lia|].
        { rewrite Hs2, concat_app.
          rewrite <- (take_slice css (pos st) (pos st')) by lia.
          by apply sublist_app. }
        exists (S k), st''. repeat split; [done| |lia|done].
        by eapply loop_next.
      * destruct Hs as (Hs1 & frags & Hs2 & Hs3). exists 1, st'.
        repeat split; [by apply loop_break|lia|].
        rewrite Hs2, concat_app.
        pose proof (sublist_app _ _ _ _ Ho Hs3) as H.
        unfold slice_from in H. by rewrite take_drop in H.
      * done.
Qed.

End Segmentation.

(** ** Termination and size of the output *)

Section WholeProgram.

Lemma prune_state_finishes (css : str) (used : gset str) :
  exists k final,
    prune_state css used = Finished final /\
    loop css (blank_comments css) used init k final /\
    k <= length css /\
    concat (out final) `sublist_of` css.
Proof.
  pose proof (blank_comments_length css) as Hlen.
  destruct (run_finishes css (blank_comments css) used
              (blank_comments_blanked css)
              (length (blank_comments css)) init)
    as (k & final & Hr & Hl & Hk & Ho).
  - apply sublist_nil_l.
  - cbn [init pos]. lia.
  - cbn [init pos]. unfold n. lia.
  - exists k, final. unfold n in *. cbn [init pos] in Hk.
    repeat split; [done|done|lia|done].
Qed.

(** C10: the segmentation loop terminates on every input.  A pass through
    the loop body that returns to the loop test has moved the position
    forward by at least one character and not beyond the end; the only
    other outcome of a pass is the [break] of the unterminated-rule exit,
    which leaves the loop; no pass raises.  Hence the loop started by the
    script leaves after at most [len(input)] passes, and the fuel of
    [prune_state] is never exhausted. *)
Theorem segmentation_loop_terminates (css : str) (used : gset str) :
  let nc := blank_comments css in
  (forall st st', pos st < n nc -> step css nc used st = Continue st' ->
                  pos st + 1 <= pos st' /\ pos st' <= n nc)
  /\ (forall st, pos st < n nc -> step css nc used st <> IndexError)
  /\ exists k final,
       loop css nc used init k final /\ k <= length css /\
       prune_state css used = Finished final.
Proof.
  intros nc.
  pose proof (blank_comments_blanked css) as Hb. fold nc in Hb.
  split; [|split].
  - intros st st' Hi Hs.
    pose proof (step_spec_holds css nc used Hb st Hi) as H.
    rewrite Hs in H. cbn [step_spec] in H. lia.
  - intros st Hi Hs.
    pose proof (step_spec_holds css nc used Hb st Hi) as H.
    by rewrite Hs in H.
  - destruct (prune_state_finishes css used) as (k & final & H1 & H2 & H3 & _).
    by exists k, final.
Qed.

(** C9: the pruned stylesheet is what is left of the original one when
    some of its characters are taken out (every fragment appended to
    [out] is the text the loop has passed, possibly with characters left
    out), so it is never longer: in the report
    [pruned_bytes <= original_bytes], and [bytes_saved_estimate] is
    their difference and is not negative. *)
Theorem pruned_never_longer (css : str) (used : gset str) :
  exists pruned r,
    prune css used = Some (pruned, r) /\
    pruned `sublist_of` css /\
    length pruned <= length css /\
    pruned_bytes r = len pruned /\
    original_bytes r = len css /\
    (pruned_bytes r <= original_bytes r)%Z /\
    bytes_saved_estimate r = (original_bytes r - pruned_bytes r)%Z /\
    (0 <= bytes_saved_estimate r)%Z.
Proof.
  destruct (prune_state_finishes css used) as (k & final & H1 & _ & _ & H4).
  unfold prune. rewrite H1. unfold make_report.
  eexists _, _. split; [reflexivity|]. cbn. unfold len, concat_str.
  apply sublist_length in H4 as H5.
  repeat split; (done || lia).
Qed.

End WholeProgram.

(** ** The keep/remove decision *)

Section Decision.

Lemma str_leb_total (a b : str) : str_leb a b = true \/ str_leb b a = true.
Proof.
  revert b. induction a as [|x a IH]; intros [|y b]; simpl; auto.
  destruct (x <? y)%N eqn:E1, (y <? x)%N eqn:E2; auto.
Qed.

Lemma str_leb_refl (a : str) : str_leb a a = true.
Proof.
  induction a as [|x a IH]; simpl; [done|].
  by rewrite N.ltb_irrefl.
Qed.

Lemma str_leb_trans (a b c : str) :
  str_leb a b = true -> str_leb b c = true -> str_leb a c = true.
Proof.
  revert b c. induction a as [|x a IH]; intros [|y b] [|z c]; simpl; try done.
  destruct (x <? y)%N eqn:E1, (y <? x)%N eqn:E2,
           (y <? z)%N eqn:E3, (z <? y)%N eqn:E4,
           (x <? z)%N eqn:E5, (z <? x)%N eqn:E6; try done;
    try apply IH;
    rewrite ?N.ltb_lt, ?N.ltb_ge in *; try lia.
Qed.

Lemma str_leb_antisym (a b : str) :
  str_leb a b = true -> str_leb b a = true -> a = b.
Proof.
  revert b. induction a as [|x a IH]; intros [|y b]; simpl; try done.
  destruct (x <? y)%N eqn:E1, (y <? x)%N eqn:E2; try done;
    rewrite ?N.ltb_lt, ?N.ltb_ge in *; try lia.
  intros H1 H2. f_equal; [lia|by apply IH].
Qed.

#[local] Instance str_le_total : Total str_le.
Proof. intros a b. apply str_leb_total. Qed.

#[local] Instance str_le_trans : Transitive str_le.
Proof. intros a b c. apply str_leb_trans. Qed.

#[local] Instance str_le_antisym : AntiSymm (=) str_le.
Proof. intros a b. apply str_leb_antisym. Qed.

Lemma sorted_Permutation (l : list str) : sorted l ≡ₚ l.
Proof. apply merge_sort_Permutation. Qed.

Lemma sorted_Sorted (l : list str) : StronglySorted str_le (sorted l).
Proof. apply StronglySorted_merge_sort; apply _. Qed.

Lemma sorted_set_spec (toks : list str) :
  StronglySorted str_le (sorted_set toks) /\
  NoDup (sorted_set toks) /\
  (forall t, t ∈ sorted_set toks <-> t ∈ toks).
Proof.
  unfold sorted_set. split; [apply sorted_Sorted|]. split.
  - rewrite sorted_Permutation. apply NoDup_elements.
  - intros t. rewrite sorted_Permutation, elem_of_elements.
    apply elem_of_list_to_set.
Qed.

Lemma analyse_from used sels toks au ac :
  fold_left
    (fun acc sel =>
       let '(class_tokens, any_used, any_class) := acc in
       let tokens := findall1 class_in_sel_re sel in
       match tokens with
       | [] => acc
       | _ :: _ =>
           (class_tokens ++ tokens,
            if existsb (fun t => bool_decide (t ∈ used)) tokens
            then true else any_used,
            true)
       end)
    sels (toks, au, ac)
  = (toks ++ tokens_of sels,
     au || some_used used (tokens_of sels),
     ac || match tokens_of sels with [] => false | _ => true end).
Proof.
  revert toks au ac. induction sels as [|sel sels IH]; intros toks au ac.
  - simpl. by rewrite app_nil_r, !orb_false_r.
  - cbn [fold_left]. unfold tokens_of, some_used in *. cbn [flat_map].
    destruct (findall1 class_in_sel_re sel) as [|t ts] eqn:E.
    + rewrite IH. done.
    + rewrite IH. rewrite existsb_app, <- app_assoc.
      f_equal; [f_equal|].
      * destruct (existsb _ (t :: ts)); simpl; [by rewrite orb_true_r|done].
      * simpl. by rewrite orb_true_r.
Qed.

Lemma analyse_eq used sels :
  analyse used sels =
  (tokens_of sels, some_used used (tokens_of sels),
   match tokens_of sels with [] => false | _ => true end).
Proof. unfold analyse. by rewrite analyse_from. Qed.

Lemma some_used_true used toks :
  some_used used toks = true <-> exists t, t ∈ toks /\ t ∈ used.
Proof.
  unfold some_used. rewrite existsb_exists. split.
  - intros (t & Ht & Hu). exists t. apply bool_decide_eq_true in Hu.
    by rewrite list_elem_of_In.
  - intros (t & Ht & Hu). exists t. rewrite <- list_elem_of_In.
    by rewrite bool_decide_eq_true.
Qed.

(** The decision of lines 150-170 in terms of the class tokens found in
    the selectors of the prelude. *)
Lemma verdict_spec used prelude :
  let sels := split_selectors prelude in
  let toks := tokens_of sels in
  verdict used prelude =
    match toks with
    | [] => KeepNoClass
    | _ :: _ =>
        if some_used used toks then KeepUsed
        else Remove {| selectors := sels; class_tokens := sorted_set toks |}
    end.
Proof.
  intros sels toks. unfold verdict. fold sels. rewrite analyse_eq. fold toks.
  destruct toks; simpl; [done|]. by destruct (some_used used _).
Qed.

End Decision.

(** ** The branches of the loop body *)

Section Branches.

Lemma step_rule_branch css nc used st c :
  nc !! pos st = Some c ->
  c <> ch "}" -> isspace c = false -> c <> ch "@" ->
  step css nc used st = rule css nc used st.
Proof.
  intros Hc H1 H2 H3. unfold step. rewrite Hc.
  apply ceq_false in H1. rewrite H1, H2.
  rewrite (drop_S _ _ _ Hc).
  destruct (startswith _ _) eqn:E; [|done].
  by apply startswith_at in E.
Qed.

Lemma step_records css nc used st :
  match step css nc used st with
  | Continue st' | Break st' =>
      exists recs,
        removed_rules st' = removed_rules st ++ recs
        /\ (kept_count st <= kept_count st')%Z
        /\ (removed_count st <= removed_count st')%Z
  | IndexError => True
  end.
Proof.
  assert (He : forall frag i',
            exists recs,
              removed_rules (emit st frag i') = removed_rules st ++ recs
              /\ (kept_count st <= kept_count (emit st frag i'))%Z
              /\ (removed_count st <= removed_count (emit st frag i'))%Z).
  { intros frag i'. exists []. cbn. rewrite app_nil_r. split; [done|lia]. }
  assert (Hk : forall frag i',
            exists recs,
              removed_rules (keep st frag i') = removed_rules st ++ recs
              /\ (kept_count st <= kept_count (keep st frag i'))%Z
              /\ (removed_count st <= removed_count (keep st frag i'))%Z).
  { intros frag i'. exists []. cbn. rewrite app_nil_r. split; [done|lia]. }
  unfold step. destruct (nc !! pos st) as [c|]; [|done].
  destruct (ceq c (ch "}")); [apply He|].
  destruct (isspace c).
  { destruct (css !! pos st); [apply He|done]. }
  destruct (startswith _ _).
  - unfold at_rule. destruct (_ && char_is nc _ (ch ";")); [apply He|].
    destruct (_ && char_is nc _ (ch "{")); apply He.
  - unfold rule. destruct (n nc <=? _); [apply He|].
    destruct (verdict used _) as [| |r]; [apply Hk|apply Hk|].
    exists [r]. cbn. split; [done|lia].
Qed.

Lemma slice_rest (s : str) (a b : nat) :
  a <= b -> slice s a b ++ slice_from s b = slice_from s a.
Proof.
  intros H. unfold slice, slice_from.
  replace (drop b s) with (drop (b - a) (drop a s))
    by (rewrite drop_drop; f_equal; lia).
  apply take_drop.
Qed.

Lemma loop_extends css nc used st k fin :
  blanked css nc ->
  loop css nc used st k fin -> extends css st fin.
Proof.
  intros Hblank Hl.
  induction Hl as [st|st st' Hi Hs|st st' k st'' Hi Hs Hl IH].
  - exists [], []. rewrite !app_nil_r. cbn [concat].
    repeat split; [apply sublist_nil_l|lia|lia].
  - pose proof (step_spec_holds css nc used Hblank st Hi) as Hspec.
    pose proof (step_records css nc used st) as Hrec.
    rewrite Hs in Hspec, Hrec. destruct Hspec as (_ & frags & Ho & Hsub).
    destruct Hrec as (recs & Hr & Hkc & Hrc).
    by exists frags, recs.
  - pose proof (step_spec_holds css nc used Hblank st Hi) as Hspec.
    pose proof (step_records css nc used st) as Hrec.
    rewrite Hs in Hspec, Hrec.
    destruct Hspec as (Hpos & frags & Ho & Hsub).
    destruct Hrec as (recs & Hr & Hkc & Hrc).
    destruct IH as (frags' & recs' & Ho' & Hsub' & Hr' & Hkc' & Hrc').
    exists (frags ++ frags'), (recs ++ recs').
    rewrite Ho', Ho, Hr', Hr, <- !app_assoc.
    repeat split; [|lia|lia].
    rewrite concat_app, <- (slice_rest css (pos st) (pos st')) by lia.
    by apply sublist_app.
Qed.

Lemma passes_loop css nc used st0 st k fin :
  passes css nc used st0 st -> loop css nc used st0 k fin ->
  exists k', loop css nc used st k' fin.
Proof.
  intros Hp. revert k.
  induction Hp as [st|st st' st'' Hi Hs Hp IH]; intros k Hl.
  - by exists k.
  - inversion Hl as [? Hn|? ? ? Hb|? st1 k1 ? ? Hs1 Hl1]; subst.
    + lia.
    + congruence.
    + apply (IH k1). congruence.
Qed.

(** C1: the decision for a rule that the loop finds at position [i], in
    a state [st] that it reaches on the stylesheet, with the opening
    brace of the rule at [j < n].  When the selectors of the prelude
    yield no class token the rule is kept, whatever the set of used
    classes; when they yield some, the rule is kept exactly when one of
    the tokens is in the set, and is removed otherwise.  Kept: the pass
    appends the text of the rule to [out] and counts it, and this text
    follows, in the pruned stylesheet, what was written before it.
    Removed: the pass appends nothing to [out], counts the rule as
    removed and appends to [removed_rules] the selectors and the sorted
    duplicate-free list of the tokens, and this record follows, in
    [removed_details] of the report, the records made before it.  In
    both cases what the pruned stylesheet has after this point is taken
    from the text behind the rule. *)
Theorem keep_remove_decision (css : str) (used : gset str) (st : state)
    (c : char) :
  let nc := blank_comments css in
  let i := pos st in
  let j := scan_to (fun c => ceq c (ch "{")) (drop i nc) i in
  let prelude_src := slice css i j in
  let block_end := scan_body (drop (j + 1) nc) (j + 1) 1 in
  let text := leading_space prelude_src ++ strip prelude_src
              ++ slice css j block_end in
  let sels := split_selectors (strip prelude_src) in
  let toks := tokens_of sels in
  let record := {| selectors := sels; class_tokens := sorted_set toks |} in
  let kept := {| pos := block_end; out := out st ++ [text];
                 removed_rules := removed_rules st;
                 kept_count := kept_count st + 1;
                 removed_count := removed_count st |} in
  let removed := {| pos := block_end; out := out st;
                    removed_rules := removed_rules st ++ [record];
                    kept_count := kept_count st;
                    removed_count := removed_count st + 1 |} in
  passes css nc used init st ->
  nc !! i = Some c ->
  c <> ch "}" -> isspace c = false -> c <> ch "@" ->
  j < n nc ->
  (toks = [] -> step css nc used st = Continue kept)
  /\ (toks <> [] ->
      ((exists t, t ∈ toks /\ t ∈ used)
       <-> step css nc used st = Continue kept))
  /\ (toks <> [] ->
      ((forall t, t ∈ toks -> t ∉ used)
       <-> step css nc used st = Continue removed))
  /\ (exists pruned r,
        prune css used = Some (pruned, r)
        /\ (step css nc used st = Continue kept ->
            exists rest later,
              pruned = concat_str (out st) ++ text ++ rest
              /\ rest `sublist_of` slice_from css block_end
              /\ removed_details r = removed_rules st ++ later
              /\ (kept_count st + 1 <= kept_rules r)%Z)
        /\ (step css nc used st = Continue removed ->
            exists rest later,
              pruned = concat_str (out st) ++ rest
              /\ rest `sublist_of` slice_from css block_end
              /\ removed_details r = removed_rules st ++ record :: later
              /\ (removed_count st + 1 <= removed_rules_n r)%Z))
  /\ StronglySorted str_le (sorted_set toks)
  /\ NoDup (sorted_set toks)
  /\ (forall t, t ∈ sorted_set toks <-> t ∈ toks).
Proof.
  intros nc i j prelude_src block_end text sels toks record kept removed
         Hreach Hc H1 H2 H3 Hj.
  rewrite (step_rule_branch css nc used st c Hc H1 H2 H3).
  assert (Hrule : rule css nc used st =
            match toks with
            | [] => Continue kept
            | _ :: _ => if some_used used toks then Continue kept
                        else Continue removed
            end).
  { unfold rule. fold i j.
    replace (n nc <=? j) with false by (symmetry; apply Nat.leb_gt; lia).
    fold prelude_src block_end. rewrite verdict_spec. fold sels toks.
    destruct toks; [done|]. by destruct (some_used used _). }
  assert (Hdiff : Continue kept <> Continue removed).
  { intros H. apply (f_equal (fun o => match o with
                                       | Continue s => kept_count s
                                       | _ => 0%Z
                                       end)) in H.
    cbn in H. lia. }
  split; [by rewrite Hrule; intros ->|].
  split; [|split; [|split; [|apply sorted_set_spec]]].
  - intros Hne. rewrite Hrule, <- some_used_true.
    destruct toks; [done|]. destruct (some_used used _); split; try done.
    all: intros H; symmetry in H; by apply Hdiff in H.
  - intros Hne. rewrite Hrule.
    assert ((forall t, t ∈ toks -> t ∉ used) <-> some_used used toks = false)
      as ->.
    { rewrite <- not_true_iff_false, some_used_true. split.
      - intros H (t & Ht & Hu). by apply (H t).
      - intros H t Ht Hu. apply H. by exists t. }
    destruct toks; [done|]. destruct (some_used used _); split; try done.
    all: intros H; by apply Hdiff in H.
  - destruct (prune_state_finishes css used) as (k & fin & Hr & Hl & _).
    fold nc in Hl.
    destruct (passes_loop _ _ _ _ _ _ _ Hreach Hl) as (k' & Hl').
    assert (Hi : pos st < n nc) by (by apply lookup_lt_Some in Hc).
    assert (Hnext : forall st', rule css nc used st = Continue st' ->
                                extends css st' fin).
    { intros st' Hs.
      rewrite <- (step_rule_branch css nc used st c Hc H1 H2 H3) in Hs.
      inversion Hl' as [? Hn|? ? ? Hb|? st1 k1 ? ? Hs1 Hl1]; subst.
      - lia.
      - congruence.
      - assert (st1 = st') as -> by congruence.
        apply (loop_extends css nc used st' k1 fin); [|done].
        apply blank_comments_blanked. }
    exists (concat_str (out fin)), (snd (make_report css used fin)).
    split; [unfold prune; by rewrite Hr|]. split.
    + intros Hs. destruct (Hnext _ Hs)
        as (frags & recs & Ho & Hsub & Hrr & Hkc & _).
      exists (concat frags), recs. cbn in *.
      unfold concat_str. rewrite Ho, !concat_app. cbn [concat].
      by rewrite app_nil_r, <- !app_assoc.
    + intros Hs. destruct (Hnext _ Hs)
        as (frags & recs & Ho & Hsub & Hrr & _ & Hrc).
      exists (concat frags), recs. cbn in *.
      unfold concat_str. rewrite Ho, !concat_app, Hrr, <- !app_assoc.
      done.
Qed.

Lemma keep_remove_decision_witness :
  step (py ".keep{a}.old{x}") (blank_comments (py ".keep{a}.old{x}"))
       {[py "keep"]}
       {| pos := 8; out := [py ".keep{a}"]; removed_rules := [];
          kept_count := 1; removed_count := 0 |}
  = Continue {| pos := 15; out := [py ".keep{a}"];
                removed_rules := [ {| selectors := [py ".old"];
                                      class_tokens := [py "old"] |} ];
                kept_count := 1; removed_count := 1 |}.
Proof.
  pose proof (keep_remove_decision (py ".keep{a}.old{x}") {[py "keep"]}
                {| pos := 8; out := [py ".keep{a}"]; removed_rules := [];
                   kept_count := 1; removed_count := 0 |} (ch "."))
    as H.
  cbv zeta in H. destruct H as (_ & _ & H & _).
  - eapply passes_next; [vm_compute; lia| |apply passes_here].
    vm_compute. reflexivity.
  - vm_compute. reflexivity.
  - discriminate.
  - reflexivity.
  - discriminate.
  - vm_compute. lia.
  - etransitivity; [apply H|].
    + vm_compute. discriminate.
    + intros t Ht Hu. apply elem_of_singleton in Hu. subst t.
      vm_compute in Ht. apply list_elem_of_singleton in Ht. discriminate.
    + vm_compute. reflexivity.
Defined.




(** C4 on the stylesheet [a {}]: no rule is removed, and yet the pruned
    stylesheet is one character shorter, because the kept rule is put
    together from the stripped prelude and the blank before the brace is
    lost. *)
Theorem kept_rule_loses_space_before_brace :
  exists r,
    prune (py "a {}") ∅ = Some (py "a{}", r)
    /\ removed_rules_n r = 0%Z /\ removed_details r = []
    /\ kept_rules r = 1%Z
    /\ original_bytes r = 4%Z /\ pruned_bytes r = 3%Z.
Proof. eexists. split; [vm_compute; reflexivity|]. by repeat split. Qed.

End Branches.

(** ** Selector splitting *)

Section SelectorSplitting.

Lemma ctx_of_snoc pre c : ctx_of (pre ++ [c]) = ctx_step (ctx_of pre) c.
Proof. unfold ctx_of. by rewrite fold_left_app. Qed.

Lemma marks_from_prefix (pre l : str) :
  map (is_split_point (pre ++ l)) (seq (length pre) (length l))
  = marks_from (ctx_of pre) l.
Proof.
  revert pre. induction l as [|c l IH]; intros pre; [done|].
  cbn [length seq map marks_from]. f_equal.
  - unfold is_split_point.
    rewrite list_lookup_middle by done.
    by rewrite take_app_length.
  - specialize (IH (pre ++ [c])).
    rewrite <- app_assoc, length_app, Nat.add_1_r in IH. cbn [app] in IH.
    by rewrite IH, ctx_of_snoc.
Qed.

Lemma split_points_marks (p : str) : split_points p = marks_from ctx0 p.
Proof. apply (marks_from_prefix [] p). Qed.

(** The loop of [split_selectors], entered in a state that corresponds
    to a context with no pending escape, cuts the rest of the prelude at
    its marks. *)
Lemma split_loop_cut (m : nat) :
  forall (l : str) (x : ctx) (parts : list str) (buf : str),
    length l <= m -> escaped x = false ->
    split_loop l parts buf (paren_depth x) (bracket_depth x) (in_string x)
    = let '(pieces, last) := cut (marks_from x l) l buf in
      (parts ++ map strip pieces, last).
Proof.
  induction m as [|m IH]; intros l x parts buf Hl Hx.
  { destruct l; [|simpl in Hl; lia]. simpl. by rewrite app_nil_r. }
  destruct l as [|c l]; [simpl; by rewrite app_nil_r|].
  simpl in Hl. destruct x as [[q|] e dp db]; simpl in Hx; subst e.
  - (* inside a string *)
    cbn [split_loop marks_from top_level in_string paren_depth
         bracket_depth andb cut]. rewrite andb_false_r.
    unfold ctx_step. cbn [in_string escaped paren_depth bracket_depth].
    destruct (ceq c q) eqn:Eq.
    + rewrite (IH l {| in_string := None; escaped := false;
                       paren_depth := dp; bracket_depth := db |});
        [done|lia|done].
    + destruct (ceq c c_backslash) eqn:Eb.
      * destruct l as [|e l].
        -- simpl. by rewrite app_nil_r.
        -- cbn [marks_from top_level in_string andb cut].
           rewrite andb_false_r.
           unfold ctx_step. cbn [in_string escaped paren_depth bracket_depth].
           simpl in Hl.
           rewrite (IH l {| in_string := Some q; escaped := false;
                            paren_depth := dp; bracket_depth := db |});
             [done|lia|done].
      * rewrite (IH l {| in_string := Some q; escaped := false;
                         paren_depth := dp; bracket_depth := db |});
          [done|lia|done].
  - (* outside strings *)
    cbn [split_loop marks_from top_level in_string paren_depth
         bracket_depth cut].
    unfold ctx_step. cbn [in_string escaped paren_depth bracket_depth].
    destruct (quote c) eqn:Eq.
    + assert (ceq c (ch ",") = false) as ->.
      { apply ceq_false. intros ->. done. }
      cbn [andb].
      rewrite (IH l {| in_string := Some c; escaped := false;
                       paren_depth := dp; bracket_depth := db |});
        [done|lia|done].
    + destruct (ceq c (ch ",")) eqn:Ec.
      * apply ceq_true in Ec. subst c.
        change (ceq (ch ",") (ch "(")) with false.
        change (ceq (ch ",") (ch ")")) with false.
        change (ceq (ch ",") (ch "[")) with false.
        change (ceq (ch ",") (ch "]")) with false.
        cbv iota. cbn [andb].
        destruct ((dp =? 0)%Z && (db =? 0)%Z) eqn:Etop.
        -- rewrite (IH l {| in_string := None; escaped := false;
                            paren_depth := dp; bracket_depth := db |});
             [|lia|done].
           cbn [in_string escaped paren_depth bracket_depth].
           destruct (cut _ l []) as [pieces last].
           by rewrite <- app_assoc.
        -- rewrite (IH l {| in_string := None; escaped := false;
                            paren_depth := dp; bracket_depth := db |});
             [done|lia|done].
      * cbn [andb].
        destruct (ceq c (ch "(")) eqn:E1; [|destruct (ceq c (ch ")")) eqn:E2;
          [|destruct (ceq c (ch "[")) eqn:E3; [|destruct (ceq c (ch "]")) eqn:E4]]].
        all: match goal with
             | |- split_loop _ _ _ ?dp' ?db' None = _ =>
                 rewrite (IH l {| in_string := None; escaped := false;
                                  paren_depth := dp'; bracket_depth := db' |});
                 [done|lia|done]
             end.
Qed.

Lemma filter_nonempty_snoc (parts : list str) (last : str) :
  List.filter nonempty (if nonempty last then parts ++ [strip last] else parts)
  = List.filter nonempty (parts ++ [strip last]).
Proof.
  destruct last as [|c last]; [|done].
  cbn [nonempty]. rewrite List.filter_app. change (strip []) with (@nil char).
  simpl. by rewrite app_nil_r.
Qed.

(** C2: [split_selectors] splits the prelude at exactly its top-level
    commas.  A position is a split point iff it holds a comma that is
    outside any quoted string (where a backslash takes the following
    character with it) and is met with both the parenthesis and the
    bracket depth at zero; the result is the list of the non-empty
    trimmed pieces between these positions, in order.  In particular
    [":not(a, b), c"] gives [":not(a, b)"] and ["c"]. *)
Theorem split_selectors_top_level_commas (prelude : str) :
  split_selectors prelude = split_at_top_level_commas prelude
  /\ split_selectors (py ":not(a, b), c") = [py ":not(a, b)"; py "c"].
Proof.
  split; [|by vm_compute].
  unfold split_selectors, split_at_top_level_commas.
  rewrite split_points_marks.
  pose proof (split_loop_cut (length prelude) prelude ctx0 [] []
                (Nat.le_refl _) eq_refl) as H.
  cbn [ctx0 paren_depth bracket_depth in_string] in H. rewrite H.
  destruct (cut _ prelude []) as [pieces last].
  cbn [app]. rewrite filter_nonempty_snoc. by rewrite map_app.
Qed.

End SelectorSplitting.

(** ** Unterminated rules *)

Section Unterminated.






End Unterminated.

(** ** The tree scan *)

Section TreeScan.

Lemma add_all_union (used : gset str) (toks : list str) :
  add_all used toks = used ∪ list_to_set toks.
Proof.
  unfold add_all. revert used.
  induction toks as [|t toks IH]; intros used; simpl.
  - by rewrite union_empty_r_L.
  - rewrite IH. rewrite <- (assoc_L (∪)). done.
Qed.

Lemma scan_path_eq (used : gset str) (p : path_entry) :
  is_file_returns p = true ->
  scan_path used p = Ok (used ∪ list_to_set (tokens_of_path p)).
Proof.
  unfold scan_path, tokens_of_path, eligible, is_file_returns.
  destruct (is_file p) as [file|]; [intros _|done]. cbn [bind].
  destruct file; cbn [negb andb];
    [|f_equal; cbn [list_to_set]; by rewrite union_empty_r_L].
  destruct (existsb (str_eqb (suffix_lower p)) source_suffixes);
    cbn [negb]; [|f_equal; cbn [list_to_set]; by rewrite union_empty_r_L].
  unfold do_read. destruct (read_text p); cbn [bind try_except].
  - by rewrite add_all_union.
  - f_equal. cbn [list_to_set]. by rewrite union_empty_r_L.
Qed.

Lemma scan_path_raises (used : gset str) (p : path_entry) :
  is_file_returns p = false -> scan_path used p = Raise.
Proof.
  unfold scan_path, is_file_returns. by destruct (is_file p).
Qed.

Lemma scan_tree_eq (paths : list path_entry) (used : gset str) :
  forallb is_file_returns paths = true ->
  scan_tree used paths
  = Ok (used ∪ list_to_set (flat_map tokens_of_path paths)).
Proof.
  revert used. induction paths as [|p paths IH]; intros used H;
    cbn [scan_tree flat_map].
  - f_equal. cbn [list_to_set]. by rewrite union_empty_r_L.
  - cbn [forallb] in H. apply andb_true_iff in H as [Hp H].
    rewrite scan_path_eq by done. cbn [bind]. rewrite IH by done. f_equal.
    rewrite list_to_set_app_L. by rewrite (assoc_L (∪)).
Qed.

Lemma scan_tree_raises (paths : list path_entry) (used : gset str) :
  forallb is_file_returns paths = false -> scan_tree used paths = Raise.
Proof.
  revert used. induction paths as [|p paths IH]; intros used H;
    cbn [scan_tree forallb] in *; [done|].
  destruct (is_file_returns p) eqn:Ep.
  - rewrite scan_path_eq by done. cbn [bind]. by apply IH.
  - by rewrite scan_path_raises.
Qed.

Lemma scan_tree_app (l1 l2 : list path_entry) (used : gset str) :
  scan_tree used (l1 ++ l2)
  = bind (scan_tree used l1) (fun used' => scan_tree used' l2).
Proof.
  revert used. induction l1 as [|p l1 IH]; intros used;
    cbn [app scan_tree bind]; [done|].
  destruct (scan_path used p) as [used'|]; cbn [bind]; [apply IH|done].
Qed.

Lemma tokens_of_unreadable (p : path_entry) :
  read_text p = ReadRaises -> tokens_of_path p = [].
Proof. unfold tokens_of_path. intros ->. by destruct (eligible p). Qed.

(** C8: a path whose [read_text] raises is skipped.  The scan of a tree
    that contains it does what the scan of the tree without it does;
    when the scan is not stopped by a call of [is_file] that raises (the
    call is outside the [try]), it returns a set, not an error, and the
    same set as the scan of the tree without the path; this set holds
    every token of every scanned file that could be read. *)
Theorem scan_survives_read_failure (before after : list path_entry)
    (p : path_entry) :
  read_text p = ReadRaises ->
  is_file_returns p = true ->
  collect_used (before ++ p :: after) = collect_used (before ++ after)
  /\ (forallb is_file_returns (before ++ after) = true ->
      exists used,
        collect_used (before ++ p :: after) = Ok used
        /\ collect_used (before ++ after) = Ok used
        /\ forall q text t,
             q ∈ before ++ after -> eligible q = true ->
             read_text q = ReadOk text -> t ∈ used_in_text text -> t ∈ used).
Proof.
  intros Hp Hs.
  assert (Heq : collect_used (before ++ p :: after)
                = collect_used (before ++ after)).
  { unfold collect_used. rewrite !scan_tree_app.
    destruct (scan_tree ∅ before) as [used'|]; cbn [bind scan_tree]; [|done].
    rewrite scan_path_eq by done. cbn [bind].
    rewrite (tokens_of_unreadable p Hp). cbn [list_to_set].
    by rewrite union_empty_r_L. }
  split; [exact Heq|]. intros Hall. rewrite Heq.
  unfold collect_used. rewrite scan_tree_eq by done.
  eexists. split; [reflexivity|]. split; [reflexivity|].
  intros q text t Hq He Hr Ht.
  apply elem_of_union_r, elem_of_list_to_set.
  apply list_elem_of_In, in_flat_map. exists q. split.
  - by apply list_elem_of_In.
  - apply list_elem_of_In. unfold tokens_of_path. by rewrite He, Hr.
Qed.

Lemma scan_survives_read_failure_witness :
  exists used,
    collect_used
      ([ {| is_file := Ok true; suffix_lower := py ".html";
            read_text := ReadOk (py "<p class='a b'>") |} ]
       ++ {| is_file := Ok true; suffix_lower := py ".js";
             read_text := ReadRaises |}
       :: [ {| is_file := Ok true; suffix_lower := py ".ts";
               read_text := ReadOk (py "x.classList.add('c')") |} ])
    = Ok used
    /\ py "a" ∈ used /\ py "c" ∈ used.
Proof.
  destruct (scan_survives_read_failure
    [ {| is_file := Ok true; suffix_lower := py ".html";
         read_text := ReadOk (py "<p class='a b'>") |} ]
    [ {| is_file := Ok true; suffix_lower := py ".ts";
         read_text := ReadOk (py "x.classList.add('c')") |} ]
    {| is_file := Ok true; suffix_lower := py ".js";
       read_text := ReadRaises |}
    eq_refl eq_refl) as (_ & H).
  destruct (H eq_refl) as (used & H1 & _ & H3).
  exists used. split; [exact H1|]. split.
  - apply (H3 {| is_file := Ok true; suffix_lower := py ".html";
                 read_text := ReadOk (py "<p class='a b'>") |}
              (py "<p class='a b'>")).
    + apply elem_of_app. left. apply list_elem_of_here.
    + by vm_compute.
    + reflexivity.
    + vm_compute. apply list_elem_of_here.
  - apply (H3 {| is_file := Ok true; suffix_lower := py ".ts";
                 read_text := ReadOk (py "x.classList.add('c')") |}
              (py "x.classList.add('c')")).
    + apply elem_of_app. right. apply list_elem_of_here.
    + by vm_compute.
    + reflexivity.
    + vm_compute. apply list_elem_of_here.
Defined.

End TreeScan.

(** ** The organizer *)

Import CssAnalyzer OrganizerAux.

Section ModuleNamespace.

Lemma extractors_differ : extract_css_rules_l146 <> extract_css_rules_l7.
Proof.
  intros H. apply (f_equal (fun f => f (py ".a{b}"))) in H.
  vm_compute in H. discriminate.
Qed.

Lemma extract_css_rules_binding :
  globals !! "extract_css_rules"%string
  = Some (Extractor extract_css_rules_l146).
Proof.
  unfold globals, exec_defs, module_defs. cbn [fold_left].
  by simplify_map_eq.
Qed.

Lemma organize_css_eq css : organize_css css = Some (organize css).
Proof.
  unfold organize_css. rewrite extract_css_rules_binding.
  unfold globals, exec_defs, module_defs. cbn [fold_left].
  by simplify_map_eq.
Qed.

(** C7: when [organize_css_file] runs, the name [extract_css_rules] is
    bound to the second definition, the class-only matcher that maps a
    class name to one string of properties; the pipeline is the one
    built on it; and no name of the module is bound to the first,
    generic definition any more, so nothing can call it. *)
Theorem organizer_runs_class_only_extractor :
  globals !! "extract_css_rules"%string
    = Some (Extractor extract_css_rules_l146)
  /\ (forall css, organize_css css
                  = Some (organize_with extract_css_rules_l146 css))
  /\ (forall name obj, globals !! name = Some obj ->
                       obj <> Extractor extract_css_rules_l7).
Proof.
  split; [apply extract_css_rules_binding|split].
  - apply organize_css_eq.
  - intros name obj. unfold globals, exec_defs, module_defs.
    cbn [fold_left].
    repeat (rewrite lookup_insert; case_decide; [intros [= <-]|]);
      rewrite ?lookup_empty; try discriminate.
    + intros [= Hf]. by apply extractors_differ.
    + congruence.
Qed.

End ModuleNamespace.

Section Groups.

Lemma greedy_inv p k s pos cs r :
  greedy p k s pos cs = Some r ->
  exists m, m <= span_len p s /\ k (drop m s) (pos + m) cs = Some r.
Proof.
  revert pos. induction s as [|c s IH]; intros pos H; cbn [greedy] in H.
  - exists 0. by rewrite Nat.add_0_r.
  - cbn [span_len]. destruct (p c).
    + destruct (greedy p k s (S pos) cs) as [r'|] eqn:E.
      * injection H as ->. destruct (IH _ E) as (m & Hm & Hk).
        exists (S m). split; [lia|].
        by replace (pos + S m) with (S pos + m) by lia.
      * exists 0. split; [lia|]. by rewrite Nat.add_0_r.
    + exists 0. split; [lia|]. by rewrite Nat.add_0_r.
Qed.

Lemma span_len_forallb p s m :
  m <= span_len p s -> forallb p (take m s) = true.
Proof.
  revert m. induction s as [|c s IH]; intros [|m] H; simpl in *; try done.
  destruct (p c); [|lia]. apply IH. lia.
Qed.

Lemma greedy_keeps g p k : keeps g k -> keeps g (greedy p k).
Proof.
  intros Hk s. induction s as [|c s IH]; intros pos cs e cs' H;
    cbn [greedy] in H.
  - by apply Hk in H.
  - destruct (p c); [|by apply Hk in H].
    destruct (greedy p k s (S pos) cs) as [[e1 cs1]|] eqn:E.
    + injection H as -> ->. by apply IH in E.
    + by apply Hk in H.
Qed.

Lemma lazy_star_keeps g p k : keeps g k -> keeps g (lazy_star p k).
Proof.
  intros Hk s. induction s as [|c s IH]; intros pos cs e cs' H;
    cbn [lazy_star] in H.
  - destruct (k [] pos cs) as [[e1 cs1]|] eqn:E; [|done].
    injection H as -> ->. by apply Hk in E.
  - destruct (k (c :: s) pos cs) as [[e1 cs1]|] eqn:E.
    + injection H as -> ->. by apply Hk in E.
    + destruct (p c); [|done]. by apply IH in H.
Qed.

Lemma mtch_keeps g pat :
  forallb (fun a => negb (touches g a)) pat = true -> keeps g (mtch pat).
Proof.
  induction pat as [|a pat IH]; intros Hp s pos cs e cs' H.
  - by injection H as -> ->.
  - cbn [forallb] in Hp. apply andb_true_iff in Hp as [Ha Hp].
    specialize (IH Hp).
    destruct a; cbn [mtch] in H; cbn [touches] in Ha.
    + destruct s as [|c s]; [done|]. destruct (p c); [|done].
      by apply IH in H.
    + destruct s as [|c s]; [by apply IH in H|].
      destruct (p c); [|by apply IH in H].
      destruct (mtch pat s (S pos) cs) as [[e1 cs1]|] eqn:E.
      * injection H as -> ->. by apply IH in E.
      * by apply IH in H.
    + by apply (greedy_keeps g p _ IH) in H.
    + destruct s as [|c s]; [done|]. destruct (p c); [|done].
      by apply (greedy_keeps g p _ IH) in H.
    + by apply (lazy_star_keeps g p _ IH) in H.
    + apply IH in H. rewrite H. apply list_lookup_insert_ne.
      apply negb_true_iff, bool_decide_eq_false in Ha. congruence.
    + apply IH in H. rewrite H. apply list_lookup_insert_ne.
      apply negb_true_iff, bool_decide_eq_false in Ha. congruence.
    + destruct s; [|done]. by apply IH in H.
Qed.

Lemma lookup_map {A B} (f : A -> B) (l : list A) (i : nat) :
  map f l !! i = f <$> (l !! i).
Proof.
  revert i. induction l as [|x l IH]; intros [|i]; simpl; done.
Qed.

(** Group 1 of a match of the class-only pattern is a run of class-name
    characters. *)
Lemma class_rule_group1 s start m :
  match_here class_rule_re 2 s start = Some m ->
  forallb class_char (group m 1) = true.
Proof.
  unfold match_here.
  destruct (mtch class_rule_re s 0 _) as [[e cs]|] eqn:E; [|done].
  intros [= <-]. unfold group. cbn [m_groups].
  unfold class_rule_re in E. rewrite mtch_Chr in E.
  destruct s as [|c0 s]; [done|]. destruct (one _ c0); [|done].
  rewrite mtch_Open, mtch_Plus in E.
  destruct s as [|c1 s]; [done|]. destruct (class_char c1) eqn:Ec; [|done].
  apply greedy_inv in E as (k & Hk & E). rewrite mtch_Close in E.
  apply mtch_keeps with (g := 1) in E; [|done].
  cbn in E.
  rewrite lookup_map, list_lookup_insert_ne by done. rewrite E.
  cbn. rewrite Ec. cbn. by apply span_len_forallb.
Qed.

Lemma finditer_from_matches try s pos skip m :
  m ∈ finditer_from try s pos skip ->
  exists t start, try t start = Some m.
Proof.
  revert pos skip. induction s as [|c s IH]; intros pos skip H;
    cbn [finditer_from] in H.
  - by apply elem_of_nil in H.
  - destruct skip as [|k]; [|by eapply IH].
    destruct (try (c :: s) pos) as [m'|] eqn:E; [|by eapply IH].
    apply elem_of_cons in H as [->|H]; [by eauto|by eapply IH].
Qed.

End Groups.

Section SecondPass.

Lemma class_char_not_dot c : class_char c = true -> c <> ch ".".
Proof. intros H ->. by vm_compute in H. Qed.

Lemma class_rule_needs_start c s pos :
  (negb (ceq c (ch ".")) ||
   match s with d :: _ => negb (class_char d) | [] => true end) = true ->
  match_here class_rule_re 2 (c :: s) pos = None.
Proof.
  intros H. unfold match_here, class_rule_re. rewrite mtch_Chr.
  unfold one. destruct (ceq (ch ".") c) eqn:Ec; [|done].
  apply ceq_true in Ec. subst c. cbn [negb orb ceq] in H.
  change (ceq (ch ".") (ch ".")) with true in H. cbn [negb orb] in H.
  rewrite mtch_Open, mtch_Plus.
  destruct s as [|d s]; [done|].
  apply negb_true_iff in H. by rewrite H.
Qed.

Lemma no_start_no_match s :
  no_class_rule_start s = true ->
  forall pos skip, finditer_from (match_here class_rule_re 2) s pos skip = [].
Proof.
  induction s as [|c s IH]; intros H pos skip; [done|].
  cbn [no_class_rule_start] in H. apply andb_true_iff in H as [H1 H2].
  cbn [finditer_from]. destruct skip; [|by apply IH].
  rewrite class_rule_needs_start by done. by apply IH.
Qed.

Lemma closed_nil : closed [].
Proof. by intros t. Qed.

Lemma closed_app s1 s2 : closed s1 -> closed s2 -> closed (s1 ++ s2).
Proof. intros H1 H2 t Ht. rewrite <- app_assoc. by apply H1, H2. Qed.

Lemma dotless_closed s : dotless s -> closed s.
Proof.
  intros H t Ht. induction H as [|c s Hc Hs IH]; [done|].
  cbn [app no_class_rule_start]. rewrite IH.
  apply ceq_false in Hc. by rewrite Hc.
Qed.

Lemma dotless_app s1 s2 : dotless s1 -> dotless s2 -> dotless (s1 ++ s2).
Proof. apply Forall_app_2. Qed.

Lemma declaration_line_closed d :
  one_char d -> closed (py "    " ++ d ++ py ";").
Proof.
  intros [c ->]. apply closed_app.
  - apply dotless_closed. apply (bool_decide_unpack _). by vm_compute.
  - intros t Ht. change (no_class_rule_start (c :: ch ";" :: t) = true).
    cbn [no_class_rule_start]. rewrite Ht.
    change (class_char (ch ";")) with false.
    change (ceq (ch ";") (ch ".")) with false.
    cbn [negb]. by rewrite orb_true_r.
Qed.

Lemma join_closed sep parts :
  closed sep -> Forall closed parts -> closed (join sep parts).
Proof.
  intros Hsep H. induction H as [|p ps Hp Hps IH]; [apply closed_nil|].
  cbn [join]. destruct ps as [|q ps]; [done|].
  by repeat apply closed_app.
Qed.

Lemma lstrip_Forall (P : char -> Prop) s : Forall P s -> Forall P (lstrip s).
Proof.
  induction 1 as [|c s Hc Hs IH]; cbn [lstrip]; [done|].
  destruct (isspace c); [done|by constructor].
Qed.

Lemma strip_Forall (P : char -> Prop) s : Forall P s -> Forall P (strip s).
Proof.
  intros H. unfold strip, rstrip.
  apply Forall_rev, lstrip_Forall, Forall_rev. by apply lstrip_Forall.
Qed.

Lemma dict_set_all {V} (PK : str -> Prop) (PV : V -> Prop) d k v :
  dict_all PK PV d -> PK k -> PV v -> dict_all PK PV (dict_set d k v).
Proof.
  intros Hd Hk Hv. induction Hd as [|[k' v'] d [Hk' Hv'] Hd IH];
    cbn [dict_set].
  - by repeat constructor.
  - destruct (str_eqb k' k); constructor; done.
Qed.

Lemma dict_get_all {V} (PK : str -> Prop) (PV : V -> Prop) d k v :
  dict_all PK PV d -> dict_get d k = Some v -> PV v.
Proof.
  intros Hd. induction Hd as [|[k' v'] d [Hk' Hv'] Hd IH]; cbn [dict_get];
    [done|].
  destruct (str_eqb k' k); [by intros [= <-]|done].
Qed.

Lemma dict_keys_all {V} (PK : str -> Prop) (PV : V -> Prop) (d : dict V) k :
  dict_all PK PV d -> k ∈ dict_keys d -> PK k.
Proof.
  intros Hd Hk. unfold dict_keys in Hk. apply list_elem_of_In in Hk.
  apply in_map_iff in Hk as ([k' v] & <- & Hin).
  unfold dict_all in Hd. rewrite Forall_forall in Hd.
  apply list_elem_of_In in Hin. by destruct (Hd _ Hin).
Qed.

Lemma extract_l146_all css :
  dict_all dotless is_VStr (extract_css_rules_l146 css).
Proof.
  unfold extract_css_rules_l146.
  assert (Hms : Forall (fun m => forallb class_char (group m 1) = true)
                       (finditer class_rule_re 2 css)).
  { apply Forall_forall. intros m Hm.
    apply finditer_from_matches in Hm as (t & start & Hm).
    by apply class_rule_group1 in Hm. }
  assert (H0 : dict_all dotless is_VStr (V := value) []) by constructor.
  revert H0. generalize (@nil (str * value)).
  induction Hms as [|m ms Hm Hms IH]; intros acc Hacc; [done|].
  cbn [fold_left]. apply IH. apply dict_set_all; [done| |by eexists].
  apply Forall_forall. intros c Hc.
  rewrite forallb_forall in Hm. apply class_char_not_dot, Hm.
  by apply list_elem_of_In.
Qed.

Lemma merge_all rules :
  dict_all dotless is_VStr rules ->
  dict_all dotless (Forall one_char) (merge_duplicate_selectors rules).
Proof.
  unfold merge_duplicate_selectors. intros Hr.
  assert (H0 : dict_all dotless (Forall one_char) (V := list str) [])
    by constructor.
  revert H0. generalize (@nil (str * list str)).
  induction Hr as [|[k v] rules [Hk Hv] Hr IH]; intros acc Hacc; [done|].
  cbn [fst snd] in Hk, Hv. destruct Hv as [s ->].
  cbn [fold_left]. apply IH.
  destruct (0 <? py_len (VStr s)); [|done].
  unfold dict_extend. apply dict_set_all; [done|by apply strip_Forall|].
  apply Forall_app_2.
  - destruct (dict_get acc (strip k)) as [old|] eqn:E; [|constructor].
    by apply (dict_get_all _ _ _ _ _ Hacc E).
  - cbn [py_iter]. apply Forall_forall. intros d Hd.
    apply list_elem_of_In, in_map_iff in Hd as (c & <- & _). by exists c.
Qed.

Lemma group_set_all g c k v :
  grouped_all g -> dotless k -> Forall one_char v ->
  grouped_all (group_set g c k v).
Proof.
  intros Hg Hk Hv. induction Hg as [|[c' d] g Hd Hg IH]; cbn [group_set].
  - constructor; [|constructor]. by repeat constructor.
  - destruct (bool_decide (c' = c)); constructor; try done.
    by apply dict_set_all.
Qed.

Lemma group_get_all g c d :
  grouped_all g -> group_get g c = Some d ->
  dict_all dotless (Forall one_char) d.
Proof.
  intros Hg. induction Hg as [|[c' d'] g Hd Hg IH]; cbn [group_get]; [done|].
  destruct (bool_decide (c' = c)); [by intros [= <-]|done].
Qed.

Lemma organize_selectors_all merged :
  dict_all dotless (Forall one_char) merged ->
  grouped_all (organize_selectors merged).
Proof.
  unfold organize_selectors. intros Hm.
  assert (H0 : grouped_all []) by constructor.
  revert H0. generalize (@nil (category * dict (list str))).
  induction Hm as [|[k v] merged [Hk Hv] Hm IH]; intros acc Hacc; [done|].
  cbn [fst snd] in Hk, Hv.
  cbn [fold_left]. apply IH. by apply group_set_all.
Qed.

Lemma rule_lines_closed selector decls :
  dotless selector -> Forall one_char decls ->
  Forall closed (rule_lines selector decls).
Proof.
  intros Hs Hd. unfold rule_lines. apply Forall_app_2; [|apply Forall_app_2].
  - constructor; [|constructor]. apply dotless_closed, dotless_app; [done|].
    apply (bool_decide_unpack _). by vm_compute.
  - apply Forall_forall. intros l Hl.
    apply list_elem_of_In, in_map_iff in Hl as (d & <- & Hin).
    apply declaration_line_closed.
    rewrite Forall_forall in Hd. apply Hd.
    apply list_elem_of_In in Hin. by rewrite sorted_Permutation in Hin.
  - constructor; [|constructor; [apply closed_nil|constructor]].
    apply dotless_closed. apply (bool_decide_unpack _). by vm_compute.
Qed.

Lemma category_lines_closed g c :
  grouped_all g -> Forall closed (category_lines g c).
Proof.
  intros Hg. unfold category_lines.
  destruct (group_get g c) as [d|] eqn:E; [|constructor].
  pose proof (group_get_all _ _ _ Hg E) as Hd.
  destruct d as [|kv d]; [constructor|]. apply Forall_app_2.
  - constructor; [|constructor]. apply dotless_closed.
    apply (bool_decide_unpack _). by destruct c; vm_compute.
  - apply Forall_forall. intros l Hl.
    apply list_elem_of_In, in_flat_map in Hl as (sel & Hsel & Hl).
    apply list_elem_of_In in Hsel, Hl.
    rewrite sorted_Permutation in Hsel.
    assert (Forall closed
              (rule_lines sel (default [] (dict_get (kv :: d) sel)))) as H.
    { apply rule_lines_closed.
      - by apply (dict_keys_all _ _ _ _ Hd).
      - destruct (dict_get (kv :: d) sel) as [v|] eqn:Ev; [|constructor].
        by apply (dict_get_all _ _ _ _ _ Hd Ev). }
    rewrite Forall_forall in H. by apply H.
Qed.

Lemma generate_closed g :
  grouped_all g -> closed (generate_organized_css g).
Proof.
  intros Hg. unfold generate_organized_css. apply join_closed.
  - apply dotless_closed. apply (bool_decide_unpack _). by vm_compute.
  - apply Forall_forall. intros l Hl.
    apply list_elem_of_In, in_flat_map in Hl as (c & _ & Hl).
    pose proof (category_lines_closed g c Hg) as H.
    rewrite Forall_forall in H. by apply H, list_elem_of_In.
Qed.

(** What the organizer writes holds no text that the class-only pattern
    could match: its selectors are class names without their dot. *)
Lemma organize_no_class_rule css :
  no_class_rule_start (organize css) = true.
Proof.
  pose proof (generate_closed _
    (organize_selectors_all _ (merge_all _ (extract_l146_all css)))) as H.
  specialize (H [] eq_refl). by rewrite app_nil_r in H.
Qed.

Lemma organize_of_no_class_rule s :
  no_class_rule_start s = true -> organize s = [].
Proof.
  intros H. unfold organize, organize_with, extract_css_rules_l146, finditer.
  by rewrite no_start_no_match.
Qed.

End SecondPass.

Section Idempotence.

Lemma organize_twice css : organize (organize css) = [].
Proof. apply organize_of_no_class_rule, organize_no_class_rule. Qed.

(** C6 as stated fails: the organized form of [.a{b}] is not what the
    organizer makes of it in a second pass. *)
Lemma organizer_not_idempotent :
  exists once twice,
    organize_css (py ".a{b}") = Some once
    /\ organize_css once = Some twice
    /\ twice <> once.
Proof.
  exists (organize (py ".a{b}")), (organize (organize (py ".a{b}"))).
  rewrite !organize_css_eq. split; [done|]. split; [done|].
  rewrite organize_twice. by vm_compute.
Qed.

(** C6, as the code has it: a second pass over organized CSS gives the
    same bytes only when the organized CSS is empty. *)
Theorem organizer_idempotent_only_on_empty (css : str) :
  exists once,
    organize_css css = Some once
    /\ (organize_css once = Some once <-> once = []).
Proof.
  exists (organize css). rewrite !organize_css_eq. split; [done|].
  rewrite organize_twice. split.
  - by intros [= <-].
  - by intros ->.
Qed.

End Idempotence.

(** ** The examples of the specification, run on the model *)

Section Examples.

Example split_three :
  split_selectors (py "a, b, c") = [py "a"; py "b"; py "c"].
Proof. by vm_compute. Qed.

Example split_quoted_comma :
  split_selectors (py "a[href=" ++ [c_dquote] ++ py "," ++ [c_dquote]
                   ++ py "], b")
  = [py "a[href=" ++ [c_dquote] ++ py "," ++ [c_dquote] ++ py "]"; py "b"].
Proof. by vm_compute. Qed.

Example split_escaped_quote :
  split_selectors (py "a[t='x\',y'], b") = [py "a[t='x\',y']"; py "b"].
Proof. by vm_compute. Qed.

Example class_tokens_lexical :
  findall1 class_in_sel_re (py "ul.nav > li:not(.x-1) #a.-b")
  = [py "nav"; py "x-1"; py "-b"].
Proof. by vm_compute. Qed.

Example comments_blanked :
  blank_comments (py "a/*.x{}*/b /*/ c") = py "a        b /*/ c".
Proof. by vm_compute. Qed.

Example removal :
  exists r,
    prune (py ".btn{color:red}.old{color:blue}") {[ py "btn" ]}
    = Some (py ".btn{color:red}", r)
    /\ removed_details r
       = [ {| selectors := [py ".old"]; class_tokens := [py "old"] |} ].
Proof. eexists. split; [vm_compute; reflexivity|done]. Qed.

(** A rule with a used and an unused class in its selector list is
    kept, with both selectors; the blank before its brace is lost. *)
Example mixed_selectors_kept :
  exists r,
    prune (py ".btn, .old { color: red }") {[ py "btn" ]}
    = Some (py ".btn, .old{ color: red }", r)
    /\ kept_rules r = 1%Z /\ removed_details r = [].
Proof. eexists. split; [vm_compute; reflexivity|done]. Qed.

Example header_kept :
  exists r, prune (py "#header{top:0}") ∅ = Some (py "#header{top:0}", r)
            /\ kept_rules r = 1%Z.
Proof. eexists. split; [vm_compute; reflexivity|done]. Qed.

Example used_classes_of_markup :
  used_in_text (py "<a class='x  y-1 2z'> e.classList.toggle('on', 'off') q.querySelectorAll( '.foo > .bar')")
  = [py "x"; py "y-1"; py "on"; py "off"; py "foo"].
Proof. by vm_compute. Qed.

Example organizer_output :
  organize_css (py ".a{b}")
  = Some ([c_newline] ++ py "/* ELEMENTS */" ++ [c_newline] ++ py "a {"
          ++ [c_newline] ++ py "    b;" ++ [c_newline] ++ py "}"
          ++ [c_newline]).
Proof. by vm_compute. Qed.

End Examples.

(** * Further properties of the pruner *)

Import PassAux.

Section Passes.

Variables (css nc : str) (used : gset str).

(** A pass of the loop is the pass at its position, with the decision
    applied to it. *)
Lemma step_pass st :
  step css nc used st = apply_pass used st (pass_at css nc (pos st)).
Proof.
  unfold step, pass_at.
  destruct (nc !! pos st) as [c|]; [|done].
  destruct (ceq c (ch "}")); [done|].
  destruct (isspace c).
  { by destruct (css !! pos st). }
  destruct (startswith _ _).
  - unfold at_rule.
    destruct (_ && char_is nc _ (ch ";")); [done|].
    by destruct (_ && char_is nc _ (ch "{")).
  - unfold rule. destruct (n nc <=? _); [done|].
    cbn [apply_pass]. by destruct (verdict used _).
Qed.

(** A property of states that holds when the loop is entered and that
    every pass keeps holds when the loop is left. *)
Lemma loop_invariant (P : state -> Prop) st k st' :
  loop css nc used st k st' ->
  P st ->
  (forall s s', P s -> pos s < n nc ->
                step css nc used s = Continue s' \/
                step css nc used s = Break s' -> P s') ->
  P st'.
Proof.
  intros Hl H0 Hstep. induction Hl as [st|st st' Hi Hs|st st' k st'' Hi Hs Hl IH].
  - done.
  - apply (Hstep st); auto.
  - apply IH. apply (Hstep st); auto.
Qed.

End Passes.

Section RemovedRules.

Lemma verdict_remove used prelude r :
  verdict used prelude = Remove r -> removal_of used r.
Proof.
  rewrite verdict_spec.
  destruct (tokens_of (split_selectors prelude)) as [|t ts] eqn:E; [done|].
  destruct (some_used used (t :: ts)) eqn:Eu; [done|].
  intros [= <-]. exists prelude. cbn [selectors class_tokens].
  rewrite E. repeat split; [done|].
  intros x Hx Hu. apply not_true_iff_false in Eu. apply Eu.
  apply some_used_true. by exists x.
Qed.

Lemma apply_pass_accounted used st p st' :
  accounted used st ->
  apply_pass used st p = Continue st' \/ apply_pass used st p = Break st' ->
  accounted used st'.
Proof.
  intros (H1 & H2 & H3 & H4) Hp. unfold accounted.
  destruct p as [f i'|f|prelude f i'|]; cbn [apply_pass] in Hp.
  - destruct Hp as [[= <-]|[=]]. unfold emit; cbn.
    rewrite length_app. cbn. repeat split; (done || lia).
  - destruct Hp as [[=]|[= <-]]. unfold emit; cbn.
    rewrite length_app. cbn. repeat split; (done || lia).
  - destruct (verdict used prelude) as [| |r] eqn:Ev.
    + destruct Hp as [[= <-]|[=]]. unfold keep; cbn.
      rewrite length_app. cbn. repeat split; (done || lia).
    + destruct Hp as [[= <-]|[=]]. unfold keep; cbn.
      rewrite length_app. cbn. repeat split; (done || lia).
    + destruct Hp as [[= <-]|[=]]. unfold remove; cbn.
      unfold len in *. rewrite length_app. cbn.
      repeat split; try lia.
      apply Forall_app_2; [done|]. constructor; [|constructor].
      by apply verdict_remove in Ev.
  - by destruct Hp.
Qed.

Lemma prune_state_accounted css used :
  exists final,
    prune_state css used = Finished final /\ accounted used final.
Proof.
  destruct (prune_state_finishes css used) as (k & final & H1 & H2 & _).
  exists final. split; [done|].
  apply (loop_invariant _ _ _ (accounted used) _ _ _ H2).
  - unfold accounted, init, len. cbn. repeat split; (done || lia || constructor).
  - intros s s' Hs _ Hstep. rewrite step_pass in Hstep.
    by eapply apply_pass_accounted.
Qed.

End RemovedRules.

Section Report.

Lemma sorted_set_nonempty toks : toks <> [] -> sorted_set toks <> [].
Proof.
  intros Hne He. destruct toks as [|t ts]; [done|].
  destruct (sorted_set_spec (t :: ts)) as (_ & _ & H).
  assert (Ht : t ∈ sorted_set (t :: ts)) by (apply H; apply list_elem_of_here).
  rewrite He in Ht. by apply elem_of_nil in Ht.
Qed.

(** X1: the pruner never removes a rule because of a used class.  Every
    record of [removed_details] lists the class tokens of the selectors
    it records (each token once), there is at least one, and none of
    them is in the set of used classes. *)
Theorem removed_rules_use_no_used_class (css : str) (used : gset str) :
  exists pruned r,
    prune css used = Some (pruned, r)
    /\ forall rec, rec ∈ removed_details r ->
         class_tokens rec <> []
         /\ NoDup (class_tokens rec)
         /\ (forall t, t ∈ class_tokens rec
                       <-> t ∈ tokens_of (selectors rec))
         /\ (forall t, t ∈ class_tokens rec -> t ∉ used).
Proof.
  destruct (prune_state_accounted css used) as (final & Hf & _ & _ & _ & Hr).
  unfold prune. rewrite Hf. eexists _, _. split; [reflexivity|].
  cbn [make_report removed_details]. intros rec Hrec.
  rewrite Forall_forall in Hr.
  destruct (Hr _ Hrec) as (prelude & _ & Ht & Hne & Hu).
  destruct (sorted_set_spec (tokens_of (selectors rec))) as (_ & Hnd & Hin).
  rewrite Ht. split; [by apply sorted_set_nonempty|].
  split; [done|]. split; [done|].
  intros t Hx. by apply Hu, Hin.
Qed.

Lemma apply_pass_counts used st p st' :
  apply_pass used st p = Continue st' \/ apply_pass used st p = Break st' ->
  (kept_count st' + removed_count st'
   <= kept_count st + removed_count st + 1)%Z
  /\ (apply_pass used st p = Break st' ->
      (kept_count st' + removed_count st'
       = kept_count st + removed_count st)%Z).
Proof.
  destruct p as [f i'|f|prelude f i'|]; cbn [apply_pass].
  - intros [[= <-]|[=]]. cbn. split; [lia|done].
  - intros [[=]|[= <-]]. cbn. split; [lia|done].
  - destruct (verdict used prelude); intros [[= <-]|[=]]; cbn;
      (split; [lia|done]).
  - by intros [|].
Qed.

Lemma prune_state_counted css used :
  exists final,
    prune_state css used = Finished final
    /\ (kept_count final + removed_count final <= Z.of_nat (pos final))%Z
    /\ pos final <= length css.
Proof.
  destruct (prune_state_finishes css used) as (k & final & H1 & H2 & _).
  exists final. split; [done|].
  pose proof (blank_comments_blanked css) as Hb.
  pose proof (blank_comments_length css) as Hlen.
  apply (loop_invariant _ _ _
           (fun st => (kept_count st + removed_count st <= Z.of_nat (pos st))%Z
                      /\ pos st <= length css) _ _ _ H2).
  - cbn. lia.
  - intros s s' [Hs1 Hs2] Hi Hstep.
    pose proof (step_spec_holds css _ used Hb s Hi) as Hspec.
    pose proof Hstep as Hp. rewrite step_pass in Hp.
    apply apply_pass_counts in Hp as [Hc1 Hc2].
    rewrite <- step_pass in Hc2.
    destruct Hstep as [Hstep|Hstep]; rewrite Hstep in Hspec;
      cbn [step_spec] in Hspec.
    + unfold n in Hspec. lia.
    + specialize (Hc2 Hstep). destruct Hspec as [-> _]. lia.
Qed.

(** X2: the counters of the report agree with what the loop did:
    [removed_rules] is the number of entries of [removed_details],
    neither counter is negative, and together the rules kept and
    removed are at most as many as the stylesheet has characters. *)
Theorem report_counts_agree (css : str) (used : gset str) :
  exists pruned r,
    prune css used = Some (pruned, r)
    /\ removed_rules_n r = len (removed_details r)
    /\ (0 <= kept_rules r)%Z
    /\ (0 <= removed_rules_n r)%Z
    /\ (kept_rules r + removed_rules_n r <= original_bytes r)%Z.
Proof.
  destruct (prune_state_accounted css used) as (final & Hf & H1 & H2 & _).
  destruct (prune_state_counted css used) as (final' & Hf' & H3 & H4).
  rewrite Hf in Hf'. injection Hf' as <-.
  unfold prune. rewrite Hf. eexists _, _. split; [reflexivity|].
  cbn [make_report removed_details removed_rules_n kept_rules original_bytes].
  unfold len in *. repeat split; (done || lia).
Qed.

End Report.

Section TwoSets.

Variables (css nc : str) (used1 used2 : gset str).

(** Two runs over the same text that start in related states end in
    related states, for a relation that every pass keeps. *)
Lemma run_related (R : state -> state -> Prop) :
  (forall a b, R a b -> pos a = pos b) ->
  (forall a b p, R a b ->
     match apply_pass used1 a p, apply_pass used2 b p with
     | Continue a', Continue b' => R a' b'
     | Break a', Break b' => R a' b'
     | IndexError, IndexError => True
     | _, _ => False
     end) ->
  forall fuel a b, R a b ->
    match run css nc used1 fuel a, run css nc used2 fuel b with
    | Finished a', Finished b' => R a' b'
    | Raised, Raised => True
    | OutOfFuel, OutOfFuel => True
    | _, _ => False
    end.
Proof.
  intros Hpos Hpass fuel. induction fuel as [|fuel IH]; intros a b Hab;
    cbn [run]; rewrite <- (Hpos _ _ Hab).
  - by destruct (n nc <=? pos a).
  - destruct (n nc <=? pos a); [done|].
    rewrite !step_pass. rewrite <- (Hpos _ _ Hab).
    specialize (Hpass a b (pass_at css nc (pos a)) Hab).
    destruct (apply_pass used1 a _), (apply_pass used2 b _); try done.
    by apply IH.
Qed.

Lemma same_walk_pass a b p :
  same_walk a b ->
  match apply_pass used1 a p, apply_pass used2 b p with
  | Continue a', Continue b' => same_walk a' b'
  | Break a', Break b' => same_walk a' b'
  | IndexError, IndexError => True
  | _, _ => False
  end.
Proof.
  intros [H1 H2]. destruct p as [f i'|f|prelude f i'|]; cbn [apply_pass].
  - by split.
  - by split.
  - destruct (verdict used1 prelude), (verdict used2 prelude);
      split; cbn; (done || lia).
  - done.
Qed.

Hypothesis Hsub : used1 ⊆ used2.

Lemma some_used_mono toks :
  some_used used1 toks = true -> some_used used2 toks = true.
Proof.
  rewrite !some_used_true. intros (t & Ht & Hu). exists t. split; [done|].
  by apply Hsub.
Qed.

Lemma below_pass a b p :
  below a b ->
  match apply_pass used1 a p, apply_pass used2 b p with
  | Continue a', Continue b' => below a' b'
  | Break a', Break b' => below a' b'
  | IndexError, IndexError => True
  | _, _ => False
  end.
Proof.
  intros (H1 & H2 & H3 & H4).
  destruct p as [f i'|f|prelude f i'|]; cbn [apply_pass].
  - unfold below, emit; cbn. rewrite !concat_app.
    repeat split; try done. by apply sublist_app.
  - unfold below, emit; cbn. rewrite !concat_app.
    repeat split; try done. by apply sublist_app.
  - rewrite !verdict_spec.
    destruct (tokens_of (split_selectors prelude)) as [|t ts] eqn:E.
    + unfold below, keep; cbn. rewrite !concat_app.
      repeat split; try lia; try done. by apply sublist_app.
    + destruct (some_used used1 (t :: ts)) eqn:E1.
      * rewrite (some_used_mono _ E1).
        unfold below, keep; cbn. rewrite !concat_app.
        repeat split; try lia; try done. by apply sublist_app.
      * destruct (some_used used2 (t :: ts)).
        -- unfold below, keep, remove; cbn. rewrite !concat_app.
           repeat split; try lia; try done. by apply sublist_inserts_r.
        -- unfold below, remove; cbn. repeat split; try lia; done.
  - done.
Qed.

End TwoSets.

Section Monotone.

Lemma below_init : below init init.
Proof. by repeat split. Qed.

(** X3: how the stylesheet is cut into rules does not depend on the set
    of used classes: the number of rules decided on,
    [kept_rules + removed_rules], is the same for any two sets. *)
Theorem rule_count_independent_of_used (css : str) (used1 used2 : gset str) :
  exists p1 r1 p2 r2,
    prune css used1 = Some (p1, r1)
    /\ prune css used2 = Some (p2, r2)
    /\ (kept_rules r1 + removed_rules_n r1
        = kept_rules r2 + removed_rules_n r2)%Z.
Proof.
  destruct (prune_state_finishes css used1) as (k1 & f1 & Hf1 & _).
  destruct (prune_state_finishes css used2) as (k2 & f2 & Hf2 & _).
  pose proof (run_related css (blank_comments css) used1 used2 same_walk
                (fun a b H => proj1 H) (same_walk_pass used1 used2)
                (length (blank_comments css)) init init) as H.
  unfold prune_state in Hf1, Hf2. rewrite Hf1, Hf2 in H.
  destruct H as [_ H]; [by split|].
  unfold prune, prune_state. rewrite Hf1, Hf2.
  eexists _, _, _, _. split; [reflexivity|]. split; [reflexivity|]. done.
Qed.

(** X4: adding used classes never removes more.  When one set of used
    classes is included in another, the stylesheet pruned for the first
    is what is left of the one pruned for the second after taking out
    characters, it has at most as many kept rules and at least as many
    removed ones. *)
Theorem pruning_monotone_in_used (css : str) (used1 used2 : gset str) :
  used1 ⊆ used2 ->
  exists p1 r1 p2 r2,
    prune css used1 = Some (p1, r1)
    /\ prune css used2 = Some (p2, r2)
    /\ p1 `sublist_of` p2
    /\ (kept_rules r1 <= kept_rules r2)%Z
    /\ (removed_rules_n r2 <= removed_rules_n r1)%Z.
Proof.
  intros Hsub.
  destruct (prune_state_finishes css used1) as (k1 & f1 & Hf1 & _).
  destruct (prune_state_finishes css used2) as (k2 & f2 & Hf2 & _).
  pose proof (run_related css (blank_comments css) used1 used2 below
                (fun a b H => proj1 H) (below_pass used1 used2 Hsub)
                (length (blank_comments css)) init init below_init) as H.
  unfold prune_state in Hf1, Hf2. rewrite Hf1, Hf2 in H.
  destruct H as (_ & H2 & H3 & H4).
  unfold prune, prune_state. rewrite Hf1, Hf2.
  eexists _, _, _, _. split; [reflexivity|]. split; [reflexivity|].
  cbn [make_report kept_rules removed_rules_n]. unfold concat_str.
  repeat split; (done || lia).
Qed.

Lemma pruning_monotone_in_used_witness :
  exists p1 r1 p2 r2,
    prune (py ".btn{x}.old{y}") ∅ = Some (p1, r1)
    /\ prune (py ".btn{x}.old{y}") {[ py "btn" ]} = Some (p2, r2)
    /\ p1 `sublist_of` p2
    /\ (kept_rules r1 <= kept_rules r2)%Z
    /\ (removed_rules_n r2 <= removed_rules_n r1)%Z.
Proof.
  exact (pruning_monotone_in_used (py ".btn{x}.old{y}") ∅ {[ py "btn" ]}
           (empty_subseteq _)).
Defined.

End Monotone.

Section Trimming.

Lemma lstrip_idem (s : str) : lstrip (lstrip s) = lstrip s.
Proof.
  induction s as [|c s IH]; [done|]. cbn [lstrip].
  destruct (isspace c) eqn:E; [done|]. cbn [lstrip]. by rewrite E.
Qed.

Lemma lstrip_head (c : char) (s : str) :
  isspace c = false -> lstrip (c :: s) = c :: s.
Proof. intros E. cbn [lstrip]. by rewrite E. Qed.

Lemma lstrip_fixed (s : str) :
  lstrip s = s -> s = [] \/ exists c s', s = c :: s' /\ isspace c = false.
Proof.
  destruct s as [|c s]; [by left|]. intros H. right. exists c, s.
  split; [done|]. cbn [lstrip] in H. destruct (isspace c); [|done].
  pose proof (lstrip_length s) as Hl. rewrite H in Hl. simpl in Hl. lia.
Qed.

Lemma lstrip_snoc (l : str) (c : char) :
  isspace c = false -> lstrip (l ++ [c]) = lstrip l ++ [c].
Proof.
  intros E. induction l as [|x l IH]; cbn [app lstrip].
  - by rewrite E.
  - by destruct (isspace x).
Qed.

Lemma rstrip_cons (c : char) (s : str) :
  isspace c = false -> rstrip (c :: s) = c :: rstrip s.
Proof.
  intros E. unfold rstrip. cbn [rev]. rewrite lstrip_snoc by done.
  by rewrite rev_app_distr.
Qed.

Lemma rstrip_idem (s : str) : rstrip (rstrip s) = rstrip s.
Proof. unfold rstrip. by rewrite rev_involutive, lstrip_idem. Qed.

Lemma lstrip_rstrip (s : str) : lstrip s = s -> lstrip (rstrip s) = rstrip s.
Proof.
  intros H. apply lstrip_fixed in H as [->|(c & s' & -> & E)]; [done|].
  rewrite rstrip_cons by done. by apply lstrip_head.
Qed.

Lemma strip_idem (s : str) : strip (strip s) = strip s.
Proof.
  unfold strip. rewrite lstrip_rstrip by apply lstrip_idem.
  apply rstrip_idem.
Qed.


End Trimming.

Section SelectorLists.

Lemma cut_no_marks (l cur : str) (x : ctx) :
  forallb (other_than (ch ",")) l = true ->
  cut (marks_from x l) l cur = ([], cur ++ l).
Proof.
  revert cur x. induction l as [|c l IH]; intros cur x H;
    cbn [marks_from cut].
  - by rewrite app_nil_r.
  - cbn [forallb] in H. apply andb_true_iff in H as [Hc Hl].
    unfold other_than in Hc. apply negb_true_iff in Hc.
    assert (ceq c (ch ",") = false) as ->.
    { apply ceq_false. apply ceq_false in Hc. intros E. apply Hc.
      by rewrite E. }
    cbn [andb]. rewrite IH by done. by rewrite <- app_assoc.
Qed.

Lemma cut_Forall (P : char -> Prop) (marks : list bool) (l cur : str) :
  Forall P l -> Forall P cur ->
  Forall (Forall P) (fst (cut marks l cur)) /\ Forall P (snd (cut marks l cur)).
Proof.
  intros Hl. revert marks cur.
  induction Hl as [|c l Hc Hl IH]; intros marks cur Hcur.
  - destruct marks; cbn; by split.
  - destruct marks as [|m marks]; [cbn; by split|]. cbn [cut].
    destruct m.
    + destruct (IH marks [] (Forall_nil_2 _)) as [H1 H2].
      destruct (cut marks l []) as [pieces last]. cbn in *.
      split; [by constructor|done].
    + apply IH. apply Forall_app_2; [done|by constructor].
Qed.

(** What [split_selectors] returns, in terms of the cut of the prelude
    at its marks. *)
Lemma split_selectors_cut (prelude : str) :
  split_selectors prelude =
  List.filter nonempty
    (map strip (fst (cut (marks_from ctx0 prelude) prelude [])
                ++ [snd (cut (marks_from ctx0 prelude) prelude [])])).
Proof.
  unfold split_selectors.
  pose proof (split_loop_cut (length prelude) prelude ctx0 [] []
                (Nat.le_refl _) eq_refl) as H.
  cbn [ctx0 paren_depth bracket_depth in_string] in H. rewrite H.
  destruct (cut _ prelude []) as [pieces last].
  cbn [app fst snd]. rewrite filter_nonempty_snoc. by rewrite map_app.
Qed.

Lemma split_selectors_Forall (P : char -> Prop) (prelude : str) :
  Forall P prelude -> Forall (Forall P) (split_selectors prelude).
Proof.
  intros H. rewrite split_selectors_cut.
  destruct (cut_Forall P (marks_from ctx0 prelude) prelude [] H
              (Forall_nil_2 _)) as [H1 H2].
  apply Forall_forall. intros sel Hsel.
  apply list_elem_of_In, List.filter_In in Hsel as [Hsel _].
  apply in_map_iff in Hsel as (x & <- & Hx).
  apply strip_Forall. apply in_app_iff in Hx as [Hx|[<-|[]]]; [|done].
  rewrite Forall_forall in H1. by apply H1, list_elem_of_In.
Qed.

(** X5: every selector that [split_selectors] returns is non-empty and
    has no white space at either end. *)
Theorem split_selectors_trimmed (prelude : str) :
  Forall (fun sel => sel <> [] /\ strip sel = sel
                     /\ lstrip sel = sel /\ rstrip sel = sel)
         (split_selectors prelude).
Proof.
  rewrite split_selectors_cut. apply Forall_forall. intros sel Hsel.
  apply list_elem_of_In, List.filter_In in Hsel as [Hsel Hne].
  apply in_map_iff in Hsel as (x & <- & _).
  split; [by destruct (strip x)|]. split; [apply strip_idem|].
  split.
  - unfold strip. apply lstrip_rstrip, lstrip_idem.
  - unfold strip. apply rstrip_idem.
Qed.

(** X6: a prelude without a comma is one selector, the prelude trimmed,
    or none when it is blank (or empty). *)
Theorem split_selectors_without_comma (prelude : str) :
  forallb (other_than (ch ",")) prelude = true ->
  split_selectors prelude
  = if nonempty (strip prelude) then [strip prelude] else [].
Proof.
  intros H. rewrite split_selectors_cut, cut_no_marks by done.
  cbn [fst snd app map List.filter]. reflexivity.
Qed.

Lemma split_selectors_without_comma_witness :
  split_selectors (py " a:not(.b) > c  ") = [py "a:not(.b) > c"]
  /\ split_selectors (py "   ") = [].
Proof.
  split.
  - rewrite (split_selectors_without_comma (py " a:not(.b) > c  ") eq_refl).
    by vm_compute.
  - rewrite (split_selectors_without_comma (py "   ") eq_refl).
    by vm_compute.
Defined.

End SelectorLists.

Section SpecialStylesheets.

Lemma loop_final css nc used st k st' :
  loop css nc used st k st' ->
  n nc <= pos st'
  \/ exists s, pos s < n nc /\ step css nc used s = Break st'.
Proof.
  induction 1 as [st|st st' Hi Hs|st st' k st'' Hi Hs Hl IH].
  - by left.
  - right. by exists st.
  - done.
Qed.

Lemma concat_singletons (l : str) : concat (map (fun c => [c]) l) = l.
Proof. induction l as [|c l IH]; [done|]. cbn. by rewrite IH. Qed.

Lemma pass_at_space css nc i :
  length css = length nc -> forallb isspace nc = true -> i < length nc ->
  exists c, css !! i = Some c /\ pass_at css nc i = PEmit [c] (i + 1).
Proof.
  intros Hlen Hall Hi.
  destruct (lookup_lt_is_Some_2 nc i Hi) as [c Hc].
  destruct (lookup_lt_is_Some_2 css i ltac:(lia)) as [c' Hc'].
  exists c'. split; [done|]. unfold pass_at. rewrite Hc, Hc'.
  rewrite forallb_forall in Hall.
  assert (Hs : isspace c = true).
  { apply Hall, list_elem_of_In. by eapply list_elem_of_lookup_2. }
  destruct (ceq c (ch "}")) eqn:E.
  - apply ceq_true in E. subst c. by vm_compute in Hs.
  - by rewrite Hs.
Qed.

(** X7: a stylesheet that is white space and comments only comes out
    unchanged, comments included; nothing is counted as kept or removed
    and no byte is saved. *)
Theorem blank_stylesheet_unchanged (css : str) (used : gset str) :
  forallb isspace (blank_comments css) = true ->
  exists r,
    prune css used = Some (css, r)
    /\ kept_rules r = 0%Z /\ removed_rules_n r = 0%Z
    /\ removed_details r = [] /\ bytes_saved_estimate r = 0%Z.
Proof.
  intros Hall.
  destruct (prune_state_finishes css used) as (k & final & Hf & Hl & _).
  pose proof (blank_comments_length css) as Hlen. symmetry in Hlen.
  set (P := fun st : state =>
              concat (out st) = take (pos st) css
              /\ kept_count st = 0%Z /\ removed_count st = 0%Z
              /\ removed_rules st = []).
  assert (HP : P final).
  { apply (loop_invariant _ _ _ P _ _ _ Hl); [by repeat split|].
    intros s s' (H1 & H2 & H3 & H4) Hi Hs. rewrite step_pass in Hs.
    destruct (pass_at_space css _ (pos s) Hlen Hall Hi) as (c & Hc & Hp).
    rewrite Hp in Hs. cbn [apply_pass] in Hs.
    destruct Hs as [[= <-]|[=]]. unfold P, emit; cbn.
    repeat split; try done.
    rewrite concat_app, H1. cbn. rewrite Nat.add_1_r.
    by rewrite (take_S_r _ _ _ Hc). }
  assert (Hpos : length css <= pos final).
  { apply loop_final in Hl as [Hl|(s & Hi & Hs)]; [unfold n in Hl; lia|].
    rewrite step_pass in Hs.
    destruct (pass_at_space css _ (pos s) Hlen Hall Hi) as (c & Hc & Hp).
    by rewrite Hp in Hs. }
  destruct HP as (H1 & H2 & H3 & H4).
  unfold prune. rewrite Hf. unfold make_report, concat_str.
  rewrite H1, take_ge by done. eexists. split; [reflexivity|].
  cbn. repeat split; (done || lia).
Qed.

Lemma blank_stylesheet_unchanged_witness :
  exists r,
    prune (py "  /* .old { gone: never } */ ") {[ py "btn" ]}
    = Some (py "  /* .old { gone: never } */ ", r)
    /\ kept_rules r = 0%Z /\ removed_rules_n r = 0%Z
    /\ removed_details r = [] /\ bytes_saved_estimate r = 0%Z.
Proof.
  apply (blank_stylesheet_unchanged (py "  /* .old { gone: never } */ ")).
  by vm_compute.
Defined.

Lemma class_pattern_needs_dot (s : str) :
  dotless s -> findall1 class_in_sel_re s = [].
Proof.
  unfold findall1, finditer. intros H.
  assert (forall pos skip,
            finditer_from (match_here class_in_sel_re 1) s pos skip = [])
    as ->; [|done].
  induction H as [|c s Hc Hs IH]; intros pos skip; [done|].
  cbn [finditer_from]. destruct skip; [|apply IH].
  unfold match_here at 1, class_in_sel_re. rewrite mtch_Chr.
  unfold one. replace (ceq (ch ".") c) with false; [apply IH|].
  symmetry. apply ceq_false. intros E. by apply Hc.
Qed.

Lemma verdict_dotless used prelude :
  dotless prelude -> verdict used prelude = KeepNoClass.
Proof.
  intros H. rewrite verdict_spec.
  replace (tokens_of (split_selectors prelude)) with (@nil str); [done|].
  symmetry. unfold tokens_of.
  pose proof (split_selectors_Forall _ prelude H) as Hs.
  induction Hs as [|sel sels Hsel Hsels IH]; [done|].
  cbn [flat_map]. by rewrite class_pattern_needs_dot, IH.
Qed.

Lemma pass_at_prelude css nc i prelude frag i' :
  pass_at css nc i = PRule prelude frag i' ->
  exists j, prelude = strip (slice css i j).
Proof.
  unfold pass_at. destruct (nc !! i) as [c|]; [|done].
  destruct (ceq c (ch "}")); [done|].
  destruct (isspace c); [by destruct (css !! i)|].
  destruct (startswith _ _).
  - destruct (_ && char_is nc _ (ch ";")); [done|].
    by destruct (_ && char_is nc _ (ch "{")).
  - destruct (n nc <=? _); [done|]. intros [= <- _ _]. by eexists.
Qed.

(** X8: a stylesheet without any dot has no class selector, and none of
    its rules is removed, whatever the set of used classes. *)
Theorem class_free_stylesheet_keeps_all (css : str) (used : gset str) :
  forallb (other_than (ch ".")) css = true ->
  exists pruned r,
    prune css used = Some (pruned, r)
    /\ removed_rules_n r = 0%Z /\ removed_details r = [].
Proof.
  intros Hall.
  assert (Hd : dotless css).
  { apply Forall_forall. intros c Hc. rewrite forallb_forall in Hall.
    apply list_elem_of_In, Hall in Hc. unfold other_than in Hc.
    apply negb_true_iff, ceq_false in Hc. intros E. apply Hc. by rewrite E. }
  destruct (prune_state_finishes css used) as (k & final & Hf & Hl & _).
  set (P := fun st : state => removed_count st = 0%Z /\ removed_rules st = []).
  assert (HP : P final).
  { apply (loop_invariant _ _ _ P _ _ _ Hl); [by split|].
    intros s s' [H1 H2] Hi Hs. rewrite step_pass in Hs.
    destruct (pass_at css _ (pos s)) as [f i'|f|prelude f i'|] eqn:Ep;
      cbn [apply_pass] in Hs.
    - by destruct Hs as [[= <-]|[=]].
    - by destruct Hs as [[=]|[= <-]].
    - apply pass_at_prelude in Ep as [j ->].
      rewrite verdict_dotless in Hs.
      + by destruct Hs as [[= <-]|[=]].
      + apply strip_Forall. unfold slice. by apply Forall_take, Forall_drop.
    - by destruct Hs. }
  destruct HP as [H1 H2].
  unfold prune. rewrite Hf. eexists _, _. split; [reflexivity|]. by cbn.
Qed.

Lemma class_free_stylesheet_keeps_all_witness :
  exists pruned r,
    prune (py "#a, p > b { x } @media print { i { y } }") {[ py "btn" ]}
    = Some (pruned, r)
    /\ removed_rules_n r = 0%Z /\ removed_details r = [].
Proof.
  apply (class_free_stylesheet_keeps_all
           (py "#a, p > b { x } @media print { i { y } }")).
  by vm_compute.
Defined.

End SpecialStylesheets.

Section KeptText.



End KeptText.

Section Comments.

Lemma comment_needs_opening s pos :
  is_prefix (py "/*") s = false -> match_here comment_re 0 s pos = None.
Proof.
  change (py "/*") with [ch "/"; ch "*"]. cbn [is_prefix].
  intros H. unfold match_here, comment_re. rewrite mtch_Chr.
  destruct s as [|c1 s]; [done|]. unfold one at 1.
  destruct (ceq (ch "/") c1); [|done]. rewrite mtch_Chr.
  destruct s as [|c2 s]; [done|]. unfold one at 1.
  cbn [andb] in H. destruct (ceq (ch "*") c2); [done|done].
Qed.

Lemma sub_from_no_match pat ng repl s pos :
  (forall t p, match_here pat ng t p = None \/ contains (py "/*") t = true)
  -> contains (py "/*") s = false ->
  sub_from pat ng repl s pos 0 = s.
Proof.
  intros Hm. revert pos. induction s as [|c s IH]; intros pos H; [done|].
  cbn [sub_from].
  destruct (Hm (c :: s) pos) as [->|Hc]; [|congruence].
  f_equal. apply IH. cbn [contains] in H.
  by apply orb_false_iff in H as [_ H].
Qed.

(** X10: blanking the comments keeps the length of the stylesheet and
    changes characters into blanks only, so that positions in the
    blanked text are positions in the original; and a stylesheet in
    which no comment opens is left as it is. *)
Theorem comment_blanking_keeps_positions (css : str) :
  length (blank_comments css) = length css
  /\ (forall i c, blank_comments css !! i = Some c ->
                  c = c_space \/ css !! i = Some c)
  /\ (contains (py "/*") css = false -> blank_comments css = css).
Proof.
  split; [apply blank_comments_length|]. split.
  - intros i c Hc. unfold blank_comments, sub in Hc.
    apply sub_from_agree in Hc; [|clear i c Hc|lia].
    + by rewrite Nat.add_0_r in Hc.
    + intros s pos m Hm.
      pose proof (match_here_bounds _ _ _ _ _ Hm) as [Hs _].
      rewrite Hs. split; [|done].
      unfold match_here in Hm.
      destruct (mtch comment_re s 0 _) as [[e cs]|] eqn:E; [|done].
      injection Hm as <-. cbn [m_end].
      unfold comment_re in E. rewrite mtch_Chr in E.
      destruct s as [|c1 s]; [done|]. destruct (one _ c1); [|done].
      rewrite mtch_Chr in E.
      destruct s as [|c2 s]; [done|]. destruct (one _ c2); [|done].
      apply mtch_bounded in E. lia.
  - intros H. unfold blank_comments, sub. apply sub_from_no_match; [|done].
    intros t p. destruct (is_prefix (py "/*") t) eqn:E.
    + right. destruct t; cbn [contains]; by rewrite E.
    + left. by apply comment_needs_opening.
Qed.

End Comments.

(** * Further properties of the tree scan *)

Section UsedClasses.

Lemma mtch_Opt p pat s pos cs :
  mtch (Opt p :: pat) s pos cs =
  match s with
  | c :: s' =>
      if p c then
        match mtch pat s' (S pos) cs with
        | Some r => Some r
        | None => mtch pat s pos cs
        end
      else mtch pat s pos cs
  | [] => mtch pat s pos cs
  end.
Proof. reflexivity. Qed.

Lemma ident_start_char c : ident_start c = true -> ident_char c = true.
Proof.
  unfold ident_start, ident_char. intros H.
  apply orb_true_iff in H as [-> | ->]; [done|]. by rewrite orb_true_r.
Qed.

Lemma forallb_weaken (p q : char -> bool) (s : str) :
  (forall c, p c = true -> q c = true) ->
  forallb p s = true -> forallb q s = true.
Proof.
  intros Hpq. rewrite !forallb_forall. intros H c Hc. by apply Hpq, H.
Qed.

Lemma identifier_tail s pos cs r :
  mtch [Plus ident_start; Star ident_char; Eos] s pos cs = Some r ->
  exists c s', s = c :: s' /\ ident_start c = true
               /\ forallb ident_char s' = true.
Proof.
  rewrite mtch_Plus. destruct s as [|c s]; [done|].
  destruct (ident_start c) eqn:Ec; [|done]. intros H.
  exists c, s. split; [done|]. split; [done|].
  apply greedy_inv in H as (m & Hm & H). rewrite mtch_Star in H.
  apply greedy_inv in H as (m2 & Hm2 & H). cbn [mtch] in H.
  destruct (drop m2 (drop m s)) eqn:Ed; [|done].
  rewrite <- (take_drop m s), <- (take_drop m2 (drop m s)), Ed, app_nil_r.
  rewrite forallb_app. apply andb_true_iff. split.
  - eapply forallb_weaken; [apply ident_start_char|].
    by apply span_len_forallb.
  - by apply span_len_forallb.
Qed.

(** A text that [cls_token_re] matches in full is a class name: an
    optional hyphen, a letter or underscore, then letters, digits,
    hyphens and underscores. *)
Lemma fullmatch_class_name t :
  fullmatch cls_token_re 0 t = true ->
  t <> [] /\ forallb ident_char t = true /\ existsb ident_start t = true.
Proof.
  unfold fullmatch, match_here, cls_token_re. cbn [app].
  destruct (mtch _ t 0 _) as [r|] eqn:E; [|done]. intros _.
  rewrite mtch_Opt in E.
  assert (Hk : forall s pos cs r,
             mtch [Plus ident_start; Star ident_char; Eos] s pos cs = Some r ->
             s <> [] /\ forallb ident_char s = true
             /\ existsb ident_start s = true).
  { intros s pos cs r' H.
    apply identifier_tail in H as (c & s' & Heq & Hc & Hs). subst s.
    split; [done|]. cbn [forallb existsb].
    by rewrite Hc, (ident_start_char _ Hc), Hs. }
  destruct t as [|c t]; [by apply Hk in E|].
  destruct (one (ch "-") c) eqn:Ec; [|by apply Hk in E].
  destruct (mtch _ t 1 _) as [r'|] eqn:E'; [|by apply Hk in E].
  apply Hk in E' as (Hne & Hall & Hex). split; [done|].
  cbn [forallb existsb]. rewrite Hall, Hex.
  unfold one in Ec. apply ceq_true in Ec. subst c.
  split; [by vm_compute|by rewrite orb_true_r].
Qed.

Lemma class_tokens_of_fullmatch value t :
  In t (class_tokens_of value) -> fullmatch cls_token_re 0 t = true.
Proof.
  unfold class_tokens_of. intros H. by apply List.filter_In in H as [_ H].
Qed.

Lemma used_in_text_fullmatch text t :
  In t (used_in_text text) -> fullmatch cls_token_re 0 t = true.
Proof.
  unfold used_in_text. rewrite !in_app_iff, !in_flat_map.
  intros [(m & _ & H)|[(m & _ & H)|[(m & _ & H)|[(m & _ & H)|(m & _ & H)]]]].
  - by apply class_tokens_of_fullmatch in H.
  - by apply class_tokens_of_fullmatch in H.
  - apply in_flat_map in H as (sm & _ & H).
    by apply class_tokens_of_fullmatch in H.
  - cbv zeta in H.
    destruct (fullmatch cls_token_re 0 _) eqn:E; [|done].
    by destruct H as [<-|[]].
  - by apply class_tokens_of_fullmatch in H.
Qed.

Lemma collect_used_elements (paths : list path_entry) :
  forallb is_file_returns paths = true ->
  exists used,
    collect_used paths = Ok used
    /\ forall t, t ∈ used <-> In t (flat_map tokens_of_path paths).
Proof.
  intros Hall. unfold collect_used. rewrite scan_tree_eq by done.
  eexists. split; [done|].
  intros t. rewrite elem_of_union, elem_of_list_to_set, list_elem_of_In.
  split; [intros [H|H]; [by apply elem_of_empty in H|done]|by right].
Qed.

Lemma collect_used_returns (paths : list path_entry) (used : gset str) :
  collect_used paths = Ok used -> forallb is_file_returns paths = true.
Proof.
  intros H. destruct (forallb is_file_returns paths) eqn:E; [done|].
  unfold collect_used in H. by rewrite scan_tree_raises in H.
Qed.

(** X11: the set of used classes that the tree scan returns is made of
    class names only: every member is non-empty, consists of ASCII
    letters, digits, hyphens and underscores, and has a letter or an
    underscore in it. *)
Theorem used_classes_are_class_names (paths : list path_entry)
    (used : gset str) :
  collect_used paths = Ok used ->
  forall t, t ∈ used ->
    t <> [] /\ forallb ident_char t = true /\ existsb ident_start t = true.
Proof.
  intros Hret t Ht.
  destruct (collect_used_elements paths (collect_used_returns _ _ Hret))
    as (used' & Hu & Hin).
  assert (used' = used) as -> by congruence.
  apply Hin, in_flat_map in Ht as (p & _ & Ht).
  apply fullmatch_class_name. unfold tokens_of_path in Ht.
  destruct (eligible p); [|done].
  destruct (read_text p) as [text|]; [|done].
  by apply used_in_text_fullmatch in Ht.
Qed.

Lemma used_classes_are_class_names_witness :
  collect_used
    [ {| is_file := Ok true; suffix_lower := py ".html";
         read_text := ReadOk (py "<p class='-a_1 b'>") |} ]
  = Ok (add_all ∅ (used_in_text (py "<p class='-a_1 b'>")))
  /\ py "-a_1" ∈ add_all ∅ (used_in_text (py "<p class='-a_1 b'>"))
  /\ py "-a_1" <> []
  /\ forallb ident_char (py "-a_1") = true
  /\ existsb ident_start (py "-a_1") = true.
Proof.
  assert (Hin : py "-a_1"
                ∈ add_all ∅ (used_in_text (py "<p class='-a_1 b'>"))).
  { rewrite add_all_union. apply elem_of_union_r, elem_of_list_to_set.
    vm_compute. apply list_elem_of_here. }
  split; [reflexivity|]. split; [exact Hin|].
  apply (used_classes_are_class_names
           [ {| is_file := Ok true; suffix_lower := py ".html";
                read_text := ReadOk (py "<p class='-a_1 b'>") |} ]
           (add_all ∅ (used_in_text (py "<p class='-a_1 b'>")))).
  - reflexivity.
  - exact Hin.
Defined.

(** X12: what the tree scan collects, exactly.  When every call of
    [is_file] returns, the scan returns a set, and a token is in the set
    iff it is found in the text of a path that is a file, has one of the
    five source suffixes and can be read; hence neither the order in
    which the tree is walked nor the other paths matter.  When a call
    of [is_file] raises, so does the scan. *)
Theorem collect_used_exact (paths : list path_entry) :
  (forallb is_file_returns paths = true ->
   exists used,
     collect_used paths = Ok used
     /\ forall t, t ∈ used <->
          exists p text,
            p ∈ paths /\ is_file p = Ok true
            /\ suffix_lower p ∈ source_suffixes
            /\ read_text p = ReadOk text
            /\ t ∈ used_in_text text)
  /\ (forallb is_file_returns paths = false -> collect_used paths = Raise).
Proof.
  split; [|apply scan_tree_raises]. intros Hall.
  destruct (collect_used_elements paths Hall) as (used & Hu & Hin).
  exists used. split; [done|]. intros t. rewrite Hin, in_flat_map.
  assert (He : forall p, eligible p = true <->
               is_file p = Ok true /\ suffix_lower p ∈ source_suffixes).
  { intros p. unfold eligible. destruct (is_file p) as [file|].
    2:{ split; [done|]. by intros [? _]. }
    rewrite andb_true_iff, existsb_exists.
    split; intros [H1 H2].
    - split; [by rewrite H1|].
      destruct H2 as (x & Hx & Heq). unfold str_eqb in Heq.
      apply bool_decide_eq_true in Heq. subst x. by apply list_elem_of_In.
    - split; [congruence|].
      exists (suffix_lower p). split; [by apply list_elem_of_In|].
      unfold str_eqb. by apply bool_decide_eq_true. }
  split.
  - intros (p & Hp & Ht). unfold tokens_of_path in Ht.
    destruct (eligible p) eqn:E; [|done].
    destruct (read_text p) as [text|] eqn:Er; [|done].
    apply He in E as [E1 E2]. exists p, text.
    repeat split; try done; by apply list_elem_of_In.
  - intros (p & text & Hp & H1 & H2 & H3 & H4). exists p.
    split; [by apply list_elem_of_In|]. unfold tokens_of_path.
    rewrite (proj2 (He p) (conj H1 H2)), H3. by apply list_elem_of_In.
Qed.

End UsedClasses.

(** * Further properties of the organizer *)

Import CssCompare AnalyzerAux.

Section Dictionaries.

Context {V : Type}.
Implicit Types (d : dict V) (k : str) (v : V).

Lemma str_eqb_true (a b : str) : str_eqb a b = true <-> a = b.
Proof. unfold str_eqb. apply bool_decide_eq_true. Qed.

Lemma str_eqb_false (a b : str) : str_eqb a b = false <-> a <> b.
Proof. unfold str_eqb. apply bool_decide_eq_false. Qed.

Lemma dict_get_set_eq d k v : dict_get (dict_set d k v) k = Some v.
Proof.
  induction d as [|[k' v'] d IH]; cbn [dict_set dict_get].
  - replace (str_eqb k k) with true by (symmetry; by apply str_eqb_true).
    done.
  - destruct (str_eqb k' k) eqn:E; cbn [dict_get]; by rewrite E.
Qed.

Lemma dict_get_set_ne d k k' v :
  k' <> k -> dict_get (dict_set d k v) k' = dict_get d k'.
Proof.
  intros Hne. induction d as [|[k0 v0] d IH]; cbn [dict_set dict_get].
  - replace (str_eqb k k') with false; [done|].
    symmetry. apply str_eqb_false. congruence.
  - destruct (str_eqb k0 k) eqn:E; cbn [dict_get]; [|by rewrite IH].
    apply str_eqb_true in E. subst k0.
    replace (str_eqb k k') with false; [done|].
    symmetry. apply str_eqb_false. congruence.
Qed.

Lemma dict_get_None d k : dict_get d k = None <-> k ∉ dict_keys d.
Proof.
  induction d as [|[k' v'] d IH]; cbn [dict_get dict_keys map fst].
  - split; [intros _; apply not_elem_of_nil|done].
  - rewrite not_elem_of_cons. destruct (str_eqb k' k) eqn:E.
    + apply str_eqb_true in E. split; [done|]. intros [H _]. congruence.
    + apply str_eqb_false in E. rewrite IH. split; [intros H|by intros [_ H]].
      split; [congruence|done].
Qed.

Lemma dict_keys_set d k v :
  dict_keys (dict_set d k v)
  = if bool_decide (k ∈ dict_keys d) then dict_keys d else dict_keys d ++ [k].
Proof.
  induction d as [|[k' v'] d IH]; cbn [dict_set dict_keys map fst].
  - rewrite bool_decide_eq_false_2; [done|apply not_elem_of_nil].
  - destruct (str_eqb k' k) eqn:E.
    + apply str_eqb_true in E. subst k'.
      rewrite bool_decide_eq_true_2; [done|apply list_elem_of_here].
    + apply str_eqb_false in E. cbn [map fst]. fold (dict_keys d).
      fold (dict_keys (dict_set d k v)). rewrite IH.
      destruct (decide (k ∈ dict_keys d)) as [Hin|Hin].
      * rewrite !bool_decide_eq_true_2; [done| |done].
        by apply list_elem_of_further.
      * rewrite !bool_decide_eq_false_2; [done| |done].
        rewrite not_elem_of_cons. split; [congruence|done].
Qed.

Lemma dict_set_NoDup d k v :
  NoDup (dict_keys d) -> NoDup (dict_keys (dict_set d k v)).
Proof.
  intros H. rewrite dict_keys_set. case_bool_decide; [done|].
  apply NoDup_app. split; [done|]. split; [|apply NoDup_singleton].
  intros x Hx Hx'. apply list_elem_of_singleton in Hx'. by subst x.
Qed.

Lemma dict_get_head d k v : dict_get ((k, v) :: d) k = Some v.
Proof.
  cbn [dict_get].
  by replace (str_eqb k k) with true by (symmetry; by apply str_eqb_true).
Qed.

Lemma dict_all_lookups_None d : (forall k, dict_get d k = None) -> d = [].
Proof.
  destruct d as [|[k v] d]; [done|]. intros H. specialize (H k).
  by rewrite dict_get_head in H.
Qed.

End Dictionaries.

Section ClassRules.

Lemma find_append {A} (f : A -> bool) (l1 l2 : list A) :
  List.find f (l1 ++ l2)
  = match List.find f l1 with Some x => Some x | None => List.find f l2 end.
Proof.
  induction l1 as [|x l1 IH]; [done|]. cbn [app List.find].
  by destruct (f x).
Qed.

Lemma l146_fold_get (ms : list match_obj) (acc : dict value) (k : str) :
  dict_get
    (fold_left
       (fun rules m =>
          dict_set rules (group m 1) (VStr (strip (group m 2))))
       ms acc) k
  = match last_rule_for k ms with
    | Some m => Some (VStr (strip (group m 2)))
    | None => dict_get acc k
    end.
Proof.
  revert acc. induction ms as [|m ms IH]; intros acc; [done|].
  cbn [fold_left]. rewrite IH. unfold last_rule_for. cbn [rev].
  rewrite find_append.
  destruct (List.find _ (rev ms)) as [m'|]; [done|].
  cbn [List.find]. destruct (str_eqb (group m 1) k) eqn:E.
  - apply str_eqb_true in E. subst k. apply dict_get_set_eq.
  - apply str_eqb_false in E. apply dict_get_set_ne. congruence.
Qed.

Lemma l146_fold_NoDup (ms : list match_obj) (acc : dict value) :
  NoDup (dict_keys acc) ->
  NoDup (dict_keys
           (fold_left
              (fun rules m =>
                 dict_set rules (group m 1) (VStr (strip (group m 2))))
              ms acc)).
Proof.
  revert acc. induction ms as [|m ms IH]; intros acc H; [done|].
  cbn [fold_left]. by apply IH, dict_set_NoDup.
Qed.

Lemma extract_l146_NoDup content :
  NoDup (dict_keys (extract_css_rules_l146 content)).
Proof. apply l146_fold_NoDup. constructor. Qed.

(** Group 1 of a match of the class-only pattern is not empty. *)
Lemma class_rule_group1_nonempty s start m :
  match_here class_rule_re 2 s start = Some m -> group m 1 <> [].
Proof.
  unfold match_here.
  destruct (mtch class_rule_re s 0 _) as [[e cs]|] eqn:E; [|done].
  intros [= <-]. unfold group. cbn [m_groups].
  unfold class_rule_re in E. rewrite mtch_Chr in E.
  destruct s as [|c0 s]; [done|]. destruct (one _ c0); [|done].
  rewrite mtch_Open, mtch_Plus in E.
  destruct s as [|c1 s]; [done|]. destruct (class_char c1) eqn:Ec; [|done].
  apply greedy_inv in E as (k & Hk & E). rewrite mtch_Close in E.
  apply mtch_keeps with (g := 1) in E; [|done].
  cbn in E.
  rewrite lookup_map, list_lookup_insert_ne by done. rewrite E. by cbn.
Qed.

(** X13: what the class-only [extract_css_rules] returns.  For each
    class the dictionary holds the trimmed body of the last rule of the
    text that is written for this class, as a string; the keys are
    class names without the dot, each listed once. *)
Theorem class_rules_last_wins (content : str) :
  let rules := extract_css_rules_l146 content in
  NoDup (dict_keys rules)
  /\ (forall k, dict_get rules k
                = (fun m => VStr (strip (group m 2)))
                  <$> last_rule_for k (finditer class_rule_re 2 content))
  /\ (forall k, k ∈ dict_keys rules ->
                k <> [] /\ forallb class_char k = true)
  /\ (forall k v, dict_get rules k = Some v ->
                  exists s, v = VStr s /\ strip s = s).
Proof.
  intros rules.
  assert (Hget : forall k, dict_get rules k
                 = (fun m => VStr (strip (group m 2)))
                   <$> last_rule_for k (finditer class_rule_re 2 content)).
  { intros k. unfold rules, extract_css_rules_l146. rewrite l146_fold_get.
    by destruct (last_rule_for _ _). }
  split; [apply extract_l146_NoDup|]. split; [done|]. split.
  - intros k Hk.
    destruct (dict_get rules k) as [v|] eqn:E.
    2:{ by apply dict_get_None in E. }
    rewrite Hget in E. unfold last_rule_for in E.
    destruct (List.find _ _) as [m|] eqn:Ef; [|done].
    apply find_some in Ef as [Hin Heq]. apply str_eqb_true in Heq.
    apply in_rev, list_elem_of_In in Hin.
    apply finditer_from_matches in Hin as (t & start & Hm). subst k.
    split; [by eapply class_rule_group1_nonempty|
            by eapply class_rule_group1].
  - intros k v. rewrite Hget.
    destruct (last_rule_for _ _) as [m|]; [|done].
    intros [= <-]. eexists. split; [done|apply strip_idem].
Qed.

End ClassRules.

Section Comparison.

Lemma differs_true rules1 k v :
  differs rules1 k v = true <-> dict_get rules1 k <> Some v.
Proof.
  unfold differs. destruct (dict_get rules1 k) as [v1|]; [|done].
  rewrite bool_decide_eq_true. split; [congruence|].
  intros H E. apply H. by rewrite E.
Qed.

Lemma missing_fold_get rules1 (l acc : dict value) k :
  NoDup (dict_keys l) ->
  dict_get
    (fold_left
       (fun missing_rules '(class_name, properties) =>
          match dict_get rules1 class_name with
          | None => dict_set missing_rules class_name properties
          | Some properties1 =>
              if bool_decide (properties1 <> properties)
              then dict_set missing_rules class_name properties
              else missing_rules
          end)
       l acc) k
  = match dict_get l k with
    | Some v => if differs rules1 k v then Some v else dict_get acc k
    | None => dict_get acc k
    end.
Proof.
  revert acc. induction l as [|[k0 v0] l IH]; intros acc Hnd; [done|].
  cbn [dict_keys map fst] in Hnd. apply NoDup_cons in Hnd as [Hk0 Hnd].
  cbn [fold_left]. rewrite IH by done. cbn [dict_get].
  destruct (str_eqb k0 k) eqn:E.
  - apply str_eqb_true in E. subst k0.
    rewrite (proj2 (dict_get_None l k) Hk0).
    unfold differs. destruct (dict_get rules1 k) as [v1|].
    + case_bool_decide; [apply dict_get_set_eq|done].
    + apply dict_get_set_eq.
  - apply str_eqb_false in E.
    assert (Hacc : dict_get
              (match dict_get rules1 k0 with
               | None => dict_set acc k0 v0
               | Some properties1 =>
                   if bool_decide (properties1 <> v0)
                   then dict_set acc k0 v0 else acc
               end) k = dict_get acc k).
    { destruct (dict_get rules1 k0); [case_bool_decide|];
        try done; by apply dict_get_set_ne. }
    by rewrite Hacc.
Qed.

(** X14: what [compare_css_files] reports as missing, exactly: a class
    with its properties is reported iff the second file has this rule
    and the first file does not have the class with the same
    properties.  Nothing is reported iff every rule of the second file
    is in the first one, as for a file compared with itself. *)
Theorem missing_rules_exact (content1 content2 : str) :
  let rules1 := extract_css_rules_l146 content1 in
  let rules2 := extract_css_rules_l146 content2 in
  (forall k v, dict_get (compare_contents content1 content2) k = Some v
               <-> dict_get rules2 k = Some v /\ dict_get rules1 k <> Some v)
  /\ (compare_contents content1 content2 = []
      <-> forall k v, dict_get rules2 k = Some v -> dict_get rules1 k = Some v)
  /\ compare_contents content1 content1 = [].
Proof.
  intros rules1 rules2.
  assert (Hget : forall c1 c2 k v,
            dict_get (compare_contents c1 c2) k = Some v
            <-> dict_get (extract_css_rules_l146 c2) k = Some v
                /\ dict_get (extract_css_rules_l146 c1) k <> Some v).
  { intros c1 c2 k v. unfold compare_contents, missing_rules.
    rewrite missing_fold_get by apply extract_l146_NoDup.
    destruct (dict_get (extract_css_rules_l146 c2) k) as [v2|]; cbn [dict_get].
    - destruct (differs _ k v2) eqn:E.
      + apply differs_true in E. split.
        * by intros [= <-].
        * by intros [[= <-] _].
      + apply not_true_iff_false in E. rewrite differs_true in E.
        split; [done|]. intros [[= <-] H]. by destruct E.
    - split; [done|by intros [? _]]. }
  assert (Hempty : forall c1 c2,
            compare_contents c1 c2 = []
            <-> forall k v, dict_get (extract_css_rules_l146 c2) k = Some v ->
                            dict_get (extract_css_rules_l146 c1) k = Some v).
  { intros c1 c2. split.
    - intros He k v H2.
      destruct (decide (dict_get (extract_css_rules_l146 c1) k = Some v))
        as [|Hne]; [done|].
      assert (dict_get (compare_contents c1 c2) k = Some v) as H
          by (by apply Hget).
      by rewrite He in H.
    - intros H. apply dict_all_lookups_None. intros k.
      destruct (dict_get (compare_contents c1 c2) k) as [v|] eqn:E; [|done].
      apply Hget in E as [E1 E2]. by apply H in E1. }
  split; [apply Hget|]. split; [apply Hempty|]. by apply Hempty.
Qed.

End Comparison.

Section Merging.

Lemma py_iter_nonempty v : 0 < py_len v -> py_iter v <> [].
Proof. destruct v as [[|x l]|[|c s]]; cbn; (lia || done). Qed.

Lemma py_iter_empty v : py_len v = 0 -> py_iter v = [].
Proof. destruct v as [[|x l]|[|c s]]; cbn; (lia || done). Qed.

Lemma merge_fold (l : dict value) (acc : dict (list str)) :
  NoDup (dict_keys acc) ->
  (forall k v, dict_get acc k = Some v -> v <> []) ->
  let merged :=
    fold_left
      (fun merged_selectors '(selector, declarations) =>
         let clean_selector := strip selector in
         if 0 <? py_len declarations then
           dict_extend merged_selectors clean_selector (py_iter declarations)
         else merged_selectors)
      l acc in
  NoDup (dict_keys merged)
  /\ (forall k v, dict_get merged k = Some v -> v <> [])
  /\ (forall k, default [] (dict_get merged k)
                = default [] (dict_get acc k) ++ decls_for k l)
  /\ (forall k, k ∈ dict_keys merged ->
                k ∈ dict_keys acc \/ strip k = k).
Proof.
  revert acc. induction l as [|[sel v] l IH]; intros acc Hnd Hne merged.
  - subst merged. cbn. repeat split; try done.
    + intros k. by rewrite app_nil_r.
    + by left.
  - subst merged. cbn [fold_left]. cbv zeta.
    destruct (0 <? py_len v) eqn:Elen.
    + apply Nat.ltb_lt in Elen.
      pose proof (py_iter_nonempty v Elen) as Hit.
      destruct (IH (dict_extend acc (strip sel) (py_iter v)))
        as (H1 & H2 & H3 & H4).
      { by apply dict_set_NoDup. }
      { intros k x. unfold dict_extend.
        destruct (decide (k = strip sel)) as [->|Hk].
        - rewrite dict_get_set_eq. intros [= <-].
          intros Happ. apply app_eq_nil in Happ as [_ Happ]. done.
        - rewrite dict_get_set_ne by done. apply Hne. }
      split; [done|]. split; [done|]. split.
      * intros k. rewrite H3. unfold decls_for at 2. cbn [flat_map fst snd].
        fold (decls_for k l). unfold dict_extend.
        destruct (str_eqb (strip sel) k) eqn:E.
        -- apply str_eqb_true in E. subst k. rewrite dict_get_set_eq.
           cbn [default]. by rewrite app_assoc.
        -- apply str_eqb_false in E. rewrite dict_get_set_ne by congruence.
           done.
      * intros k Hk. apply H4 in Hk as [Hk|Hk]; [|by right].
        unfold dict_extend in Hk. rewrite dict_keys_set in Hk.
        case_bool_decide; [by left|].
        apply elem_of_app in Hk as [Hk|Hk]; [by left|].
        apply list_elem_of_singleton in Hk. subst k. right. apply strip_idem.
    + apply Nat.ltb_ge in Elen.
      destruct (IH acc Hnd Hne) as (H1 & H2 & H3 & H4).
      split; [done|]. split; [done|]. split; [|done].
      intros k. rewrite H3. unfold decls_for at 2. cbn [flat_map fst snd].
      fold (decls_for k l).
      rewrite py_iter_empty by lia. by destruct (str_eqb _ _).
Qed.

Lemma merge_NoDup (rules_dict : dict value) :
  NoDup (dict_keys (merge_duplicate_selectors rules_dict)).
Proof.
  pose proof (merge_fold rules_dict [] (NoDup_nil_2) ltac:(done)) as H.
  cbv zeta in H. by destruct H as [H _].
Qed.

(** X15: what [merge_duplicate_selectors] returns, for any dictionary of
    rules: under a selector it holds, in order, the declarations of all
    the rules whose trimmed selector it is, and it holds a selector only
    when there is at least one such declaration.  Each selector is there
    once, and trimmed. *)
Theorem merge_gathers_declarations (rules_dict : dict value) :
  let merged := merge_duplicate_selectors rules_dict in
  NoDup (dict_keys merged)
  /\ (forall k, k ∈ dict_keys merged -> strip k = k)
  /\ (forall k ds, dict_get merged k = Some ds
                   <-> ds = decls_for k rules_dict /\ ds <> []).
Proof.
  intros merged.
  pose proof (merge_fold rules_dict [] (NoDup_nil_2) ltac:(done)) as H.
  cbv zeta in H. change (fold_left _ rules_dict []) with merged in H.
  destruct H as (H1 & H2 & H3 & H4).
  split; [done|]. split.
  - intros k Hk. apply H4 in Hk as [Hk|Hk]; [|done].
    by apply elem_of_nil in Hk.
  - intros k ds. specialize (H3 k). cbn [dict_get default app] in H3.
    split.
    + intros Hg. rewrite Hg in H3. cbn in H3. split; [done|].
      by apply (H2 k).
    + intros [-> Hne]. destruct (dict_get merged k) as [v|] eqn:E.
      * cbn in H3. by rewrite H3.
      * cbn in H3. by rewrite <- H3 in Hne.
Qed.

End Merging.

Section Grouping.

Lemma group_get_set_eq (g : grouped) c k v :
  group_get (group_set g c k v) c
  = Some (dict_set (default [] (group_get g c)) k v).
Proof.
  induction g as [|[c' d] g IH]; cbn [group_set group_get].
  - by rewrite bool_decide_eq_true_2.
  - case_bool_decide as E; cbn [group_get].
    + subst c'. by rewrite bool_decide_eq_true_2.
    + by rewrite bool_decide_eq_false_2.
Qed.

Lemma group_get_set_ne (g : grouped) c c' k v :
  c' <> c -> group_get (group_set g c k v) c' = group_get g c'.
Proof.
  intros Hne. induction g as [|[c0 d] g IH]; cbn [group_set group_get].
  - rewrite bool_decide_eq_false_2; [done|congruence].
  - case_bool_decide as E; cbn [group_get].
    + subst c0. rewrite !bool_decide_eq_false_2; [done|congruence..].
    + by rewrite IH.
Qed.

Lemma organize_fold_get (l : dict (list str)) (g : grouped) c k :
  NoDup (dict_keys l) ->
  dict_get
    (default []
       (group_get
          (fold_left
             (fun grouped_selectors '(selector, declarations) =>
                group_set grouped_selectors (categorize selector) selector
                          declarations)
             l g) c)) k
  = match dict_get l k with
    | Some v => if bool_decide (categorize k = c) then Some v
                else dict_get (default [] (group_get g c)) k
    | None => dict_get (default [] (group_get g c)) k
    end.
Proof.
  revert g. induction l as [|[k0 v0] l IH]; intros g Hnd; [done|].
  cbn [dict_keys map fst] in Hnd. apply NoDup_cons in Hnd as [Hk0 Hnd].
  cbn [fold_left]. rewrite IH by done. cbn [dict_get].
  destruct (str_eqb k0 k) eqn:E.
  - apply str_eqb_true in E. subst k0.
    rewrite (proj2 (dict_get_None l k) Hk0).
    case_bool_decide as Ec.
    + subst c. rewrite group_get_set_eq. cbn [default].
      apply dict_get_set_eq.
    + by rewrite group_get_set_ne by congruence.
  - apply str_eqb_false in E.
    assert (Hg : dict_get
              (default [] (group_get (group_set g (categorize k0) k0 v0) c)) k
            = dict_get (default [] (group_get g c)) k).
    { destruct (decide (categorize k0 = c)) as [<-|Hc].
      - rewrite group_get_set_eq. cbn [default].
        apply dict_get_set_ne. congruence.
      - by rewrite group_get_set_ne by congruence. }
    by rewrite Hg.
Qed.

(** X16: [organize_selectors] files every merged selector under exactly
    one category, the one that the ordered tests on its text give, and
    with the declarations it had: looking a selector up under a
    category finds it there iff that is its category. *)
Theorem organize_selectors_partitions (rules_dict : dict value) :
  let merged := merge_duplicate_selectors rules_dict in
  let grouped_selectors := organize_selectors merged in
  forall c k,
    dict_get (default [] (group_get grouped_selectors c)) k
    = if bool_decide (categorize k = c) then dict_get merged k else None.
Proof.
  intros merged grouped_selectors c k.
  unfold grouped_selectors, organize_selectors.
  rewrite organize_fold_get.
  - cbn [group_get default dict_get].
    destruct (dict_get merged k); by case_bool_decide.
  - apply merge_NoDup.
Qed.

End Grouping.

Section Rendering.

#[local] Instance str_le_total' : Total str_le.
Proof. intros a b. apply str_leb_total. Qed.

#[local] Instance str_le_trans' : Transitive str_le.
Proof. intros a b c. apply str_leb_trans. Qed.

#[local] Instance str_le_antisym' : AntiSymm (=) str_le.
Proof. intros a b. apply str_leb_antisym. Qed.

Lemma sorted_canonical (l1 l2 : list str) :
  l1 ≡ₚ l2 -> sorted l1 = sorted l2.
Proof.
  intros H. apply (Sorted_unique str_le).
  - apply Sorted_merge_sort, _.
  - apply Sorted_merge_sort, _.
  - unfold sorted. by rewrite !merge_sort_Permutation.
Qed.

(** X17: the lines written for a rule do not depend on the order in
    which its declarations were gathered: they are written sorted. *)
Theorem rule_lines_order_free (selector : str) (ds ds' : list str) :
  ds ≡ₚ ds' ->
  rule_lines selector ds = rule_lines selector ds'
  /\ Sorted str_le (sorted ds).
Proof.
  intros H. split; [|apply Sorted_merge_sort, _].
  unfold rule_lines. by rewrite (sorted_canonical ds ds').
Qed.

Lemma rule_lines_order_free_witness :
  rule_lines (py ".a") [py "b: 1"; py "a: 2"]
  = rule_lines (py ".a") [py "a: 2"; py "b: 1"]
  /\ Sorted str_le (sorted [py "b: 1"; py "a: 2"]).
Proof.
  apply (rule_lines_order_free (py ".a") [py "b: 1"; py "a: 2"]
           [py "a: 2"; py "b: 1"]).
  apply perm_swap.
Defined.

End Rendering.

Section GenericRules.

Lemma rule_group1 s start m :
  match_here rule_re 2 s start = Some m ->
  forallb (other_than (ch "{")) (group m 1) = true.
Proof.
  unfold match_here.
  destruct (mtch rule_re s 0 _) as [[e cs]|] eqn:E; [|done].
  intros [= <-]. unfold group. cbn [m_groups].
  unfold rule_re in E. rewrite mtch_Open, mtch_Plus in E.
  destruct s as [|c1 s]; [done|].
  destruct (other_than (ch "{") c1) eqn:Ec; [|done].
  apply greedy_inv in E as (k & Hk & E). rewrite mtch_Close in E.
  apply mtch_keeps with (g := 1) in E; [|done].
  cbn in E.
  rewrite lookup_map, list_lookup_insert_ne by done. rewrite E.
  cbn. rewrite Ec. cbn. by apply span_len_forallb.
Qed.

Lemma split_on_pieces sep s cur :
  Forall (fun c => c <> sep) cur ->
  Forall (Forall (fun c => c <> sep)) (split_on sep s cur).
Proof.
  revert cur. induction s as [|c s IH]; intros cur Hcur; cbn [split_on].
  - by constructor.
  - destruct (ceq c sep) eqn:E.
    + constructor; [done|]. by apply IH.
    + apply IH. apply Forall_app_2; [done|].
      constructor; [by apply ceq_false|done].
Qed.

Lemma declarations_ok (text : str) :
  Forall declaration_ok
    (map strip (List.filter (fun d => nonempty (strip d))
                            (split_on (ch ";") text []))).
Proof.
  apply Forall_forall. intros d Hd.
  apply list_elem_of_In, in_map_iff in Hd as (x & <- & Hx).
  apply List.filter_In in Hx as [Hx Hne].
  split; [by destruct (strip x)|]. split; [apply strip_idem|].
  apply strip_Forall.
  pose proof (split_on_pieces (ch ";") text [] (Forall_nil_2 _)) as H.
  rewrite Forall_forall in H. by apply H, list_elem_of_In.
Qed.

(** X18: what the first, generic [extract_css_rules] returns: each
    selector is there once, trimmed and without an opening brace; each
    of its declarations is non-empty, trimmed and without a semicolon. *)
Theorem generic_rules_shape (css_content : str) :
  let rules := extract_css_rules_l7 css_content in
  NoDup (dict_keys rules)
  /\ forall k v, (k, v) ∈ rules ->
       selector_ok k /\ exists ds, v = VList ds /\ Forall declaration_ok ds.
Proof.
  intros rules. unfold rules, extract_css_rules_l7.
  assert (Hms : Forall (fun kv => Forall (fun c => c <> ch "{") (fst kv))
                       (findall2 rule_re css_content)).
  { apply Forall_forall. intros kv Hkv. unfold findall2 in Hkv.
    apply list_elem_of_In, in_map_iff in Hkv as (m & <- & Hm).
    apply list_elem_of_In in Hm.
    apply finditer_from_matches in Hm as (t & start & Hm).
    apply rule_group1 in Hm. cbn [fst]. apply Forall_forall. intros c Hc.
    rewrite forallb_forall in Hm. apply list_elem_of_In, Hm in Hc.
    unfold other_than in Hc. apply negb_true_iff, ceq_false in Hc.
    intros E. apply Hc. by rewrite E. }
  set (F := fun (rules_dict : dict (list str)) '(selector, declarations) =>
              dict_extend rules_dict (strip selector)
                (map strip (List.filter (fun d => nonempty (strip d))
                                        (split_on (ch ";") declarations [])))).
  assert (Hfold : forall l acc,
            Forall (fun kv => Forall (fun c => c <> ch "{") (fst kv)) l ->
            NoDup (dict_keys acc) ->
            dict_all selector_ok (Forall declaration_ok) acc ->
            NoDup (dict_keys (fold_left F l acc))
            /\ dict_all selector_ok (Forall declaration_ok) (fold_left F l acc)).
  { induction l as [|[sel decls] l IH]; intros acc Hl Hnd Hall; [done|].
    apply Forall_cons in Hl as [Hsel Hl]. cbn [fst] in Hsel.
    cbn [fold_left]. apply IH; [done|by apply dict_set_NoDup|].
    unfold F, dict_extend. apply dict_set_all; [done| |].
    - split; [apply strip_idem|by apply strip_Forall].
    - apply Forall_app_2; [|apply declarations_ok].
      destruct (dict_get acc (strip sel)) as [old|] eqn:E; [|constructor].
      by apply (dict_get_all _ _ _ _ _ Hall E). }
  destruct (Hfold (findall2 rule_re css_content) [] Hms (NoDup_nil_2)
              ltac:(constructor)) as [H1 H2].
  fold F. split.
  - unfold dict_keys. rewrite map_map. cbn [fst]. exact H1.
  - intros k v Hkv.
    apply list_elem_of_In, in_map_iff in Hkv as ([k' ds] & [= <- <-] & Hin).
    unfold dict_all in H2. rewrite Forall_forall in H2.
    apply list_elem_of_In, H2 in Hin as [Hk Hds]. split; [done|].
    by exists ds.
Qed.

End GenericRules.

(** * Further properties: the style block of the HTML file *)

Import StyleBlock StyleBlockAux.

Section Substrings.

Lemma is_prefix_app (w s : str) :
  is_prefix w s = true <-> exists t, s = w ++ t.
Proof.
  revert s. induction w as [|x w IH]; intros s; cbn [is_prefix].
  - split; [by exists s|done].
  - destruct s as [|y s]; [split; [done|by intros [t H]]|].
    rewrite andb_true_iff, IH, ceq_true. split.
    + intros [-> [t ->]]. by exists t.
    + intros [t [= -> ->]]. split; [done|by exists t].
Qed.

Lemma is_prefix_app_l (w s x : str) :
  length w <= length s -> is_prefix w (s ++ x) = is_prefix w s.
Proof.
  revert s. induction w as [|c w IH]; intros s H; [done|].
  destruct s as [|y s]; [cbn in H; lia|]. cbn [app is_prefix].
  rewrite IH; [done|]. cbn in H. lia.
Qed.

Lemma is_prefix_lookup (w s : str) (i : nat) (c : char) :
  is_prefix w s = true -> w !! i = Some c -> s !! i = Some c.
Proof.
  intros H Hw. apply is_prefix_app in H as [t ->].
  by apply lookup_app_l_Some.
Qed.

Lemma is_prefix_length (w s : str) :
  is_prefix w s = true -> length w <= length s.
Proof.
  intros H. apply is_prefix_app in H as [t ->]. rewrite length_app. lia.
Qed.

Lemma is_prefix_within (w A X : str) (q : nat) :
  q + length w <= length A ->
  is_prefix w (drop q (A ++ X)) = is_prefix w (drop q A).
Proof.
  intros H. rewrite drop_app_le by lia. apply is_prefix_app_l.
  rewrite length_drop. lia.
Qed.

Lemma find_sub_Some (w s : str) (m : nat) :
  find_sub w s = Some m ->
  is_prefix w (drop m s) = true
  /\ forall m', m' < m -> is_prefix w (drop m' s) = false.
Proof.
  revert m. induction s as [|c s IH]; intros m; cbn [find_sub].
  - destruct (is_prefix w []) eqn:E; [|done]. intros [= <-].
    split; [done|lia].
  - destruct (is_prefix w (c :: s)) eqn:E.
    + intros [= <-]. split; [done|lia].
    + destruct (find_sub w s) as [m0|]; [|done]. cbn. intros [= <-].
      destruct (IH m0 eq_refl) as [H1 H2]. split; [done|].
      intros [|m'] Hm'; [done|]. apply H2. lia.
Qed.

Lemma find_sub_None (w s : str) :
  find_sub w s = None -> forall m, is_prefix w (drop m s) = false.
Proof.
  induction s as [|c s IH]; cbn [find_sub].
  - destruct (is_prefix w []) eqn:E; [done|]. intros _ m.
    by rewrite drop_nil.
  - destruct (is_prefix w (c :: s)) eqn:E; [done|].
    destruct (find_sub w s) as [m0|]; [done|]. intros _ [|m]; [done|].
    by apply IH.
Qed.

Lemma find_sub_exact (w s : str) (m : nat) :
  is_prefix w (drop m s) = true ->
  (forall m', m' < m -> is_prefix w (drop m' s) = false) ->
  find_sub w s = Some m.
Proof.
  intros H1 H2. destruct (find_sub w s) as [m0|] eqn:E.
  - apply find_sub_Some in E as [E1 E2].
    destruct (Nat.lt_trichotomy m0 m) as [Hlt|[->|Hgt]]; [|done|].
    + rewrite H2 in E1; done.
    + rewrite E2 in H1; done.
  - by rewrite (find_sub_None _ _ E) in H1.
Qed.

Lemma find_sub_occurs (w s : str) (m : nat) :
  is_prefix w (drop m s) = true -> find_sub w s <> None.
Proof. intros H E. by rewrite (find_sub_None _ _ E) in H. Qed.

Lemma contains_false (w s : str) :
  contains w s = false -> forall m, is_prefix w (drop m s) = false.
Proof.
  induction s as [|c s IH]; cbn [contains]; intros H m.
  - rewrite drop_nil. by apply orb_false_iff in H as [H _].
  - apply orb_false_iff in H as [H1 H2]. destruct m; [done|]. by apply IH.
Qed.

Lemma contains_true (w s : str) (m : nat) :
  is_prefix w (drop m s) = true -> contains w s = true.
Proof.
  intros H. destruct (contains w s) eqn:E; [done|].
  by rewrite (contains_false _ _ E) in H.
Qed.

End Substrings.

Section StyleMatch.

Lemma lit_chars (w : str) (pat : pattern) s pos cs :
  mtch (map (fun c => Chr (one c)) w ++ pat) s pos cs
  = if is_prefix w s
    then mtch pat (drop (length w) s) (pos + length w) cs
    else None.
Proof.
  revert s pos. induction w as [|x w IH]; intros s pos.
  - cbn. by rewrite Nat.add_0_r.
  - cbn [map app]. rewrite mtch_Chr. cbn [is_prefix].
    destruct s as [|y s]; [done|]. unfold one.
    destruct (ceq x y); [|done]. cbn [andb]. rewrite IH.
    cbn [length drop]. by replace (S pos + length w) with (pos + S (length w)) by lia.
Qed.

Lemma close_here s pos cs :
  mtch (Close 1 :: lit "</style>") s pos cs
  = if is_prefix close_tag s
    then Some (pos + 8, <[1 := (fst (default (0, 0) (cs !! 1)), pos)]> cs)
    else None.
Proof.
  rewrite mtch_Close. unfold lit.
  rewrite <- (app_nil_r (map _ (py "</style>"))), lit_chars.
  fold close_tag. destruct (is_prefix close_tag s); [|done]. done.
Qed.

Lemma lazy_close s pos cs :
  lazy_star any (mtch (Close 1 :: lit "</style>")) s pos cs
  = match find_sub close_tag s with
    | Some mm =>
        Some (pos + mm + 8,
              <[1 := (fst (default (0, 0) (cs !! 1)), pos + mm)]> cs)
    | None => None
    end.
Proof.
  revert pos. induction s as [|c s IH]; intros pos;
    cbn [lazy_star find_sub]; rewrite close_here.
  - destruct (is_prefix close_tag []); [|done]. by rewrite !Nat.add_0_r.
  - destruct (is_prefix close_tag (c :: s)); [by rewrite !Nat.add_0_r|].
    cbn [any]. rewrite IH. destruct (find_sub close_tag s) as [mm|]; [|done].
    cbn. by replace (pos + S mm) with (S (pos + mm)) by lia.
Qed.

(** What the pattern of the style block matches at the head of a text:
    the opening tag, then everything up to the first closing tag. *)
Lemma match_style s start :
  match_here style_re 1 s start
  = if is_prefix open_tag s then
      match find_sub close_tag (drop 7 s) with
      | Some mm =>
          Some {| m_start := start; m_end := start + (7 + mm + 8);
                  m_groups := [slice s 0 (7 + mm + 8); slice s 7 (7 + mm)] |}
      | None => None
      end
    else None.
Proof.
  unfold match_here, style_re, lit at 1. rewrite lit_chars. fold open_tag.
  destruct (is_prefix open_tag s); [|done].
  change (length (py "<style>")) with 7. cbn [app].
  rewrite mtch_Open, mtch_Lazy, lazy_close.
  change (length open_tag) with 7.
  destruct (find_sub close_tag (drop 7 s)) as [mm|]; [|done].
  reflexivity.
Qed.

Lemma block_matches (b t : str) start :
  match_here style_re 1 (open_tag ++ b ++ close_tag ++ t) start <> None.
Proof.
  rewrite match_style.
  replace (is_prefix open_tag (open_tag ++ b ++ close_tag ++ t)) with true
    by (symmetry; apply is_prefix_app; by eexists).
  change (drop 7 (open_tag ++ b ++ close_tag ++ t))
    with (b ++ close_tag ++ t).
  destruct (find_sub close_tag (b ++ close_tag ++ t)) eqn:E; [done|].
  apply (find_sub_occurs close_tag (b ++ close_tag ++ t) (length b)) in E;
    [done|].
  rewrite drop_app_length. apply is_prefix_app. by eexists.
Qed.

Lemma search_from_Some try s pos m :
  search_from try s pos = Some m ->
  exists p, p <= length s
            /\ try (drop p s) (pos + p) = Some m
            /\ forall q, q < p -> try (drop q s) (pos + q) = None.
Proof.
  revert pos. induction s as [|c s IH]; intros pos; cbn [search_from].
  - destruct (try [] pos) eqn:E; [|done]. intros [= <-]. exists 0.
    rewrite Nat.add_0_r. split; [done|]. split; [done|lia].
  - destruct (try (c :: s) pos) eqn:E.
    + intros [= <-]. exists 0. rewrite Nat.add_0_r.
      split; [cbn; lia|]. split; [done|lia].
    + intros H. apply IH in H as (p & Hp & H1 & H2). exists (S p).
      split; [cbn; lia|]. split.
      * by replace (pos + S p) with (S pos + p) by lia.
      * intros [|q] Hq; [by rewrite Nat.add_0_r|].
        replace (pos + S q) with (S pos + q) by lia. apply H2. lia.
Qed.

Lemma search_from_None try s pos :
  search_from try s pos = None ->
  forall q, q <= length s -> try (drop q s) (pos + q) = None.
Proof.
  revert pos. induction s as [|c s IH]; intros pos; cbn [search_from].
  - destruct (try [] pos) eqn:E; [done|]. intros _ q Hq.
    cbn in Hq. replace q with 0 by lia. by rewrite Nat.add_0_r.
  - destruct (try (c :: s) pos) eqn:E; [done|]. intros H [|q] Hq.
    + by rewrite Nat.add_0_r.
    + replace (pos + S q) with (S pos + q) by lia. apply IH; [done|].
      cbn in Hq. lia.
Qed.

Lemma search_from_at try s pos p m :
  p <= length s ->
  try (drop p s) (pos + p) = Some m ->
  (forall q, q < p -> try (drop q s) (pos + q) = None) ->
  search_from try s pos = Some m.
Proof.
  intros Hp H1 H2. destruct (search_from try s pos) as [m0|] eqn:E.
  - apply search_from_Some in E as (p0 & Hp0 & E1 & E2).
    destruct (Nat.lt_trichotomy p0 p) as [Hlt|[->|Hgt]].
    + rewrite H2 in E1; done.
    + congruence.
    + rewrite E2 in H1; done.
  - by rewrite (search_from_None _ _ _ E p Hp) in H1.
Qed.

End StyleMatch.

Section StyleBlocks.

Lemma contains_true_inv (w s : str) :
  contains w s = true -> exists m, is_prefix w (drop m s) = true.
Proof.
  induction s as [|c s IH]; cbn [contains]; intros H.
  - exists 0. by rewrite orb_false_r in H.
  - apply orb_true_iff in H as [H|H]; [by exists 0|].
    destruct (IH H) as [m Hm]. by exists (S m).
Qed.

Lemma close_tag_length : length close_tag = 8.
Proof. reflexivity. Qed.

Lemma open_tag_length : length open_tag = 7.
Proof. reflexivity. Qed.

(** The match that [re.search] returns on a text cuts it into what comes
    before the block, the two tags around group 1, and the rest; no
    block starts before, and the closing tag is the first one after the
    opening tag. *)
Lemma search_block content m :
  search_from (match_here style_re 1) content 0 = Some m ->
  exists pre post,
    content = pre ++ open_tag ++ group m 1 ++ close_tag ++ post
    /\ (forall q, q < length pre ->
                  match_here style_re 1 (drop q content) q = None)
    /\ (forall mm, mm < length (group m 1) ->
          is_prefix close_tag (drop mm (group m 1 ++ close_tag ++ post))
          = false).
Proof.
  intros H. apply search_from_Some in H as (p & Hp & E1 & E2).
  cbn [Nat.add] in E1. rewrite match_style in E1.
  destruct (is_prefix open_tag (drop p content)) eqn:Eo; [|done].
  apply is_prefix_app in Eo as [rest Hrest]. rewrite Hrest in E1.
  change (drop 7 (open_tag ++ rest)) with rest in E1.
  destruct (find_sub close_tag rest) as [mm|] eqn:Ef; [|done].
  injection E1 as E1.
  apply find_sub_Some in Ef as [Ef1 Ef2].
  pose proof (is_prefix_length _ _ Ef1) as Hlen.
  rewrite length_drop, close_tag_length in Hlen.
  apply is_prefix_app in Ef1 as [post Hpost].
  assert (Hg : slice (open_tag ++ rest) 7 (7 + mm) = take mm rest).
  { unfold slice. change (drop 7 (open_tag ++ rest)) with rest.
    f_equal. lia. }
  assert (Hgm : group m 1 = take mm rest) by (rewrite <- E1; exact Hg).
  rewrite Hgm.
  exists (take p content), post.
  assert (Hr : rest = take mm rest ++ close_tag ++ post).
  { by rewrite <- Hpost, take_drop. }
  split; [|split].
  - rewrite <- Hr, <- Hrest. by rewrite take_drop.
  - intros q Hq. rewrite length_take in Hq. apply (E2 q). lia.
  - intros mm' Hmm'. rewrite length_take in Hmm'.
    rewrite <- Hr. apply Ef2. lia.
Qed.

Lemma no_search_no_block content :
  search_from (match_here style_re 1) content 0 = None ->
  forall a b c, content <> a ++ open_tag ++ b ++ close_tag ++ c.
Proof.
  intros H a b c Hc.
  pose proof (search_from_None _ _ _ H (length a)) as Hn.
  rewrite Hc, drop_app_length in Hn.
  apply (block_matches b c (0 + length a)). apply Hn.
  rewrite length_app. lia.
Qed.

Lemma group_without_close (css rest : str) :
  (forall mm, mm < length css ->
              is_prefix close_tag (drop mm (css ++ rest)) = false) ->
  contains close_tag css = false.
Proof.
  intros H. destruct (contains close_tag css) eqn:E; [|done].
  apply contains_true_inv in E as [m Hm].
  pose proof (is_prefix_length _ _ Hm) as Hl.
  rewrite length_drop, close_tag_length in Hl.
  rewrite <- (H m) by lia. rewrite drop_app_le by lia.
  symmetry. rewrite is_prefix_app_l; [done|].
  rewrite length_drop, close_tag_length. lia.
Qed.

(** X19: what [extract_css_from_html] returns.  The text itself comes
    back as first component.  When the text has a style block, the
    second component is the text between the opening tag of the first
    block and the first closing tag after it, so it holds no closing
    tag; when it has none, it is the empty string. *)
Theorem style_block_extracted (content : str) :
  fst (extract_css_from_html content) = content
  /\ ((forall a b c, content <> a ++ open_tag ++ b ++ close_tag ++ c) ->
      snd (extract_css_from_html content) = [])
  /\ ((exists a b c, content = a ++ open_tag ++ b ++ close_tag ++ c) ->
      exists pre post,
        content = pre ++ open_tag ++ snd (extract_css_from_html content)
                  ++ close_tag ++ post
        /\ contains close_tag (snd (extract_css_from_html content)) = false
        /\ forall a b c, content = a ++ open_tag ++ b ++ close_tag ++ c ->
                         length pre <= length a).
Proof.
  unfold extract_css_from_html.
  destruct (search_from _ content 0) as [m|] eqn:Es; cbn [fst snd].
  - split; [done|].
    destruct (search_block content m Es) as (pre & post & Hc & F1 & F2).
    split.
    + intros Hno. by destruct (Hno pre (group m 1) post).
    + intros _. exists pre, post. split; [done|]. split.
      * by apply (group_without_close _ (close_tag ++ post)).
      * intros a b c Ha.
        destruct (decide (length pre <= length a)) as [|Hlt]; [done|].
        exfalso. apply (block_matches b c (length a)).
        pose proof (F1 (length a) ltac:(lia)) as Hn.
        rewrite Ha in Hn at 1. by rewrite drop_app_length in Hn.
  - split; [done|]. split; [done|].
    intros (a & b & c & Hc). by destruct (no_search_no_block _ Es a b c).
Qed.

End StyleBlocks.

Section WriteBack.

Lemma replace_nonempty (old new s : str) :
  old <> [] -> replace old new s = replace_from old new s 0.
Proof. by destruct old. Qed.

Lemma replace_from_skip (old new x rest : str) :
  replace_from old new (x ++ rest) (length x) = replace_from old new rest 0.
Proof. induction x as [|c x IH]; [done|]. cbn. apply IH. Qed.

Lemma replace_from_none (old new s : str) :
  (forall q, is_prefix old (drop q s) = false) ->
  replace_from old new s 0 = s.
Proof.
  induction s as [|c s IH]; intros H; [done|]. cbn [replace_from].
  pose proof (H 0) as H0. cbn [drop] in H0. rewrite H0. f_equal. apply IH. intros q. apply (H (S q)).
Qed.

Lemma replace_from_first (old new pre post : str) :
  old <> [] ->
  (forall q, q < length pre ->
             is_prefix old (drop q (pre ++ old ++ post)) = false) ->
  replace_from old new (pre ++ old ++ post) 0
  = pre ++ new ++ replace_from old new post 0.
Proof.
  intros Hne. induction pre as [|c pre IH]; intros H.
  - cbn [app]. destruct old as [|x old]; [done|]. cbn [app replace_from].
    replace (is_prefix (x :: old) (x :: old ++ post)) with true.
    + replace (length (x :: old) - 1) with (length old) by (cbn; lia).
      by rewrite replace_from_skip.
    + symmetry. apply is_prefix_app. by exists post.
  - cbn [app replace_from].
    pose proof (H 0 ltac:(cbn; lia)) as H0. cbn [drop app] in H0.
    rewrite H0. f_equal.
    apply IH. intros q Hq. apply (H (S q)). cbn. lia.
Qed.

Lemma tags_nonempty (x : str) : open_tag ++ x ++ close_tag <> [].
Proof.
  intros H. apply (f_equal length) in H.
  rewrite length_app, open_tag_length in H. cbn in H. lia.
Qed.

Lemma close_tag_has_no_newline (i : nat) :
  close_tag !! i <> Some c_newline.
Proof.
  do 8 (destruct i as [|i]; [discriminate|]). by destruct i.
Qed.

(** In a text that holds no closing tag and is put between two
    newlines, the first closing tag that follows is the one put after
    the second newline. *)
Lemma close_after_newlines (o rest : str) :
  contains close_tag o = false ->
  find_sub close_tag (c_newline :: o ++ c_newline :: close_tag ++ rest)
  = Some (length o + 2).
Proof.
  intros Ho. apply find_sub_exact.
  - replace (length o + 2) with (S (length o + 1)) by lia. cbn [drop].
    rewrite drop_app_add'; [|done]. cbn [drop].
    apply is_prefix_app. by exists rest.
  - intros [|k] Hk; [done|]. cbn [drop].
    assert (Hko : k <= length o) by lia.
    rewrite drop_app_le by done.
    destruct (is_prefix close_tag (drop k o ++ _)) eqn:E; [|done].
    destruct (decide (8 <= length (drop k o))) as [Hlen|Hlen].
    + rewrite is_prefix_app_l in E by (by rewrite close_tag_length).
      by rewrite (contains_false _ _ Ho k) in E.
    + assert (Hi : length (drop k o) < length close_tag)
        by (rewrite close_tag_length; lia).
      destruct (lookup_lt_is_Some_2 _ _ Hi) as [c Hc].
      pose proof (is_prefix_lookup _ _ _ _ E Hc) as Hl.
      rewrite list_lookup_middle in Hl by done.
      injection Hl as <-. by apply close_tag_has_no_newline in Hc.
Qed.

(** X21: what [write_organized_css] writes, [extract_css_from_html]
    reads back.  For a text with a style block and an organized text
    that holds no closing tag, the block of the text written is the
    organized text between two newlines. *)
Theorem style_block_round_trip (content organized : str) :
  (exists a b c, content = a ++ open_tag ++ b ++ close_tag ++ c) ->
  contains close_tag organized = false ->
  let '(full_content, css) := extract_css_from_html content in
  extract_css_from_html (write_organized_css full_content css organized)
  = (write_organized_css full_content css organized,
     [c_newline] ++ organized ++ [c_newline]).
Proof.
  intros (a & b & c & Hblock) Ho. unfold extract_css_from_html at 1.
  destruct (search_from _ content 0) as [m|] eqn:Es.
  2:{ by destruct (no_search_no_block _ Es a b c). }
  destruct (search_block content m Es) as (pre & post & Hc & F1 & F2).
  set (css := group m 1) in *.
  set (old := py "<style>" ++ css ++ py "</style>").
  set (new := py "<style>" ++ [c_newline] ++ organized ++ [c_newline]
              ++ py "</style>").
  assert (Hw : write_organized_css content css organized
               = pre ++ new ++ replace_from old new post 0).
  { unfold write_organized_css. fold old new.
    rewrite replace_nonempty by apply tags_nonempty.
    rewrite Hc at 1.
    replace (pre ++ open_tag ++ css ++ close_tag ++ post)
      with (pre ++ old ++ post)
      by (unfold old; by rewrite <- !app_assoc).
    apply replace_from_first; [apply tags_nonempty|].
    intros q Hq.
    destruct (is_prefix old (drop q (pre ++ old ++ post))) eqn:E; [|done].
    apply is_prefix_app in E as [t Ht].
    pose proof (F1 q Hq) as Hn. rewrite Hc in Hn at 1.
    replace (pre ++ open_tag ++ css ++ close_tag ++ post)
      with (pre ++ old ++ post) in Hn
      by (unfold old; by rewrite <- !app_assoc).
    rewrite Ht in Hn. unfold old in Hn. rewrite <- !app_assoc in Hn.
    by apply block_matches in Hn. }
  rewrite Hw. set (R := replace_from old new post 0).
  unfold extract_css_from_html.
  set (Z := c_newline :: organized ++ c_newline :: close_tag ++ R).
  assert (Hnew : new ++ R = open_tag ++ Z).
  { unfold new, Z. rewrite <- !app_assoc. done. }
  assert (Hm' : match_here style_re 1 (drop (length pre) (pre ++ new ++ R))
                  (0 + length pre)
                = Some {| m_start := 0 + length pre;
                          m_end := 0 + length pre
                                   + (7 + (length organized + 2) + 8);
                          m_groups :=
                            [slice (open_tag ++ Z) 0
                                   (7 + (length organized + 2) + 8);
                             slice (open_tag ++ Z) 7
                                   (7 + (length organized + 2))] |}).
  { rewrite drop_app_length, Hnew, match_style.
    replace (is_prefix open_tag (open_tag ++ Z)) with true
      by (symmetry; apply is_prefix_app; by eexists).
    change (drop 7 (open_tag ++ Z)) with Z. unfold Z.
    by rewrite close_after_newlines. }
  assert (Hlen : length pre <= length (pre ++ new ++ R))
    by (rewrite length_app; lia).
  rewrite (search_from_at _ _ 0 (length pre) _ Hlen Hm').
  - f_equal. unfold group. cbn [m_groups]. unfold slice.
    change (drop 7 (open_tag ++ Z)) with Z.
    replace (7 + (length organized + 2) - 7) with (S (length organized + 1))
      by lia.
    unfold Z. cbn [default lookup list_lookup take app].
    change ([c_newline] ++ organized ++ [c_newline])
      with (c_newline :: organized ++ [c_newline]).
    f_equal. rewrite take_app_add'; [|done]. by cbn.
  - intros q Hq. cbn [Nat.add]. rewrite match_style.
    destruct (is_prefix open_tag (drop q (pre ++ new ++ R))) eqn:E; [|done].
    exfalso.
    assert (E' : is_prefix open_tag (drop q content) = true).
    { rewrite Hc. rewrite Hnew in E.
      rewrite (app_assoc pre open_tag), is_prefix_within in E
        by (rewrite length_app, open_tag_length; lia).
      rewrite (app_assoc pre open_tag), is_prefix_within
        by (rewrite length_app, open_tag_length; lia).
      done. }
    pose proof (F1 q Hq) as Hn. rewrite match_style, E' in Hn.
    destruct (find_sub close_tag (drop 7 (drop q content))) eqn:Ef; [done|].
    apply (find_sub_occurs close_tag (drop 7 (drop q content))
             (length pre + length css - q)) in Ef; [done|].
    rewrite !drop_drop.
    replace (q + (7 + (length pre + length css - q)))
      with (length pre + (7 + length css)) by lia.
    rewrite Hc, drop_app_add', drop_app_add'; [|done|done].
    rewrite drop_app_length. apply is_prefix_app. by eexists.
Qed.

Lemma style_block_round_trip_witness :
  extract_css_from_html
    (write_organized_css (py "<p><style>.a{b}</style>") (py ".a{b}")
                         (py "a { b; }"))
  = (write_organized_css (py "<p><style>.a{b}</style>") (py ".a{b}")
                         (py "a { b; }"),
     [c_newline] ++ py "a { b; }" ++ [c_newline]).
Proof.
  apply (style_block_round_trip (py "<p><style>.a{b}</style>")
           (py "a { b; }")).
  - by exists (py "<p>"), (py ".a{b}"), [].
  - by vm_compute.
Defined.

End WriteBack.

(** ** The file of the organizer *)

Import HtmlFile HtmlFileAux.

Section Utf8.

Local Open Scope N_scope.

Lemma byte_of_to_N (b : byte) : byte_of (Byte.to_N b) = b.
Proof. unfold byte_of. by rewrite Byte.of_to_N. Qed.

Lemma to_N_byte_of (v : N) : v < 256 -> Byte.to_N (byte_of v) = v.
Proof.
  intros Hv. unfold byte_of. destruct (Byte.of_N v) as [b|] eqn:E.
  - by apply Byte.to_of_N.
  - apply Byte.of_N_None_iff in E. lia.
Qed.

Lemma div_mod_64 (q r : N) :
  r < 64 -> (q * 64 + r) / 64 = q /\ (q * 64 + r) mod 64 = r.
Proof.
  intros Hr. split.
  - symmetry. apply (N.div_unique _ _ _ r); lia.
  - symmetry. apply (N.mod_unique _ _ q); lia.
Qed.

Lemma div_4096 (c : N) : c / 4096 = c / 64 / 64.
Proof. by rewrite N.Div0.div_div. Qed.

Lemma div_262144 (c : N) : c / 262144 = c / 64 / 64 / 64.
Proof. by rewrite !N.Div0.div_div. Qed.

Ltac bounds :=
  repeat match goal with
         | H : _ && _ = true |- _ => apply andb_true_iff in H as [? ?]
         | H : (_ <=? _) = true |- _ => apply N.leb_le in H
         | H : (_ <=? _) = false |- _ => apply N.leb_gt in H
         | H : (_ <? _) = true |- _ => apply N.ltb_lt in H
         | H : (_ <? _) = false |- _ => apply N.ltb_ge in H
         | H : (_ =? _) = true |- _ => apply N.eqb_eq in H
         | H : (_ =? _) = false |- _ => apply N.eqb_neq in H
         end.

Lemma second_of_three_bounds v1 v2 :
  224 <= v1 <= 239 -> second_of_three v1 v2 = true ->
  128 <= v2 <= 191
  /\ 2048 <= ((v1 - 224) * 64 + (v2 - 128)) * 64
  /\ (((v1 - 224) * 64 + (v2 - 128)) * 64 + 63 < 55296
      \/ 57344 <= ((v1 - 224) * 64 + (v2 - 128)) * 64).
Proof.
  intros Hv1. unfold second_of_three, continuation.
  destruct (v1 =? 224) eqn:E1; [|destruct (v1 =? 237) eqn:E2];
    intros H; bounds; [lia|lia|].
  assert (v1 <= 236 \/ 238 <= v1) as [Hv|Hv] by lia.
  - split; [lia|]. split; [lia|left; lia].
  - split; [lia|]. split; [lia|right; lia].
Qed.

Lemma second_of_four_bounds v1 v2 :
  240 <= v1 <= 244 -> second_of_four v1 v2 = true ->
  128 <= v2 <= 191
  /\ 16 <= (v1 - 240) * 64 + (v2 - 128) < 272.
Proof.
  intros Hv1. unfold second_of_four, continuation.
  destruct (v1 =? 240) eqn:E1; [|destruct (v1 =? 244) eqn:E2];
    intros H; bounds; lia.
Qed.

Lemma encode_two v1 v2 :
  194 <= v1 <= 223 -> 128 <= v2 <= 191 ->
  utf8_encode_char ((v1 - 192) * 64 + (v2 - 128))
  = Some [byte_of v1; byte_of v2].
Proof.
  intros H1 H2. unfold utf8_encode_char.
  destruct (div_mod_64 (v1 - 192) (v2 - 128)) as [Hd Hm]; [lia|].
  rewrite Hd, Hm.
  replace (_ <? 128) with false by (symmetry; apply N.ltb_ge; lia).
  replace (_ <? 2048) with true by (symmetry; apply N.ltb_lt; lia).
  replace (192 + (v1 - 192)) with v1 by lia.
  by replace (128 + (v2 - 128)) with v2 by lia.
Qed.

Lemma encode_three v1 v2 v3 :
  224 <= v1 <= 239 -> second_of_three v1 v2 = true -> 128 <= v3 <= 191 ->
  utf8_encode_char (((v1 - 224) * 64 + (v2 - 128)) * 64 + (v3 - 128))
  = Some [byte_of v1; byte_of v2; byte_of v3].
Proof.
  intros H1 H2 H3.
  destruct (second_of_three_bounds v1 v2 H1 H2) as (Hv2 & Hlo & Hsur).
  unfold utf8_encode_char. rewrite div_4096.
  destruct (div_mod_64 ((v1 - 224) * 64 + (v2 - 128)) (v3 - 128))
    as [Hd Hm]; [lia|].
  rewrite Hd, Hm.
  destruct (div_mod_64 (v1 - 224) (v2 - 128)) as [Hd' Hm']; [lia|].
  rewrite Hd', Hm'.
  replace (_ <? 128) with false by (symmetry; apply N.ltb_ge; lia).
  replace (_ <? 2048) with false by (symmetry; apply N.ltb_ge; lia).
  replace (_ <? 65536) with true by (symmetry; apply N.ltb_lt; lia).
  replace ((55296 <=? _) && _) with false.
  - replace (224 + (v1 - 224)) with v1 by lia.
    replace (128 + (v2 - 128)) with v2 by lia.
    by replace (128 + (v3 - 128)) with v3 by lia.
  - symmetry. apply andb_false_iff.
    destruct Hsur; [left; apply N.leb_gt|right; apply N.leb_gt]; lia.
Qed.

Lemma encode_four v1 v2 v3 v4 :
  240 <= v1 <= 244 -> second_of_four v1 v2 = true ->
  128 <= v3 <= 191 -> 128 <= v4 <= 191 ->
  utf8_encode_char
    ((((v1 - 240) * 64 + (v2 - 128)) * 64 + (v3 - 128)) * 64 + (v4 - 128))
  = Some [byte_of v1; byte_of v2; byte_of v3; byte_of v4].
Proof.
  intros H1 H2 H3 H4.
  destruct (second_of_four_bounds v1 v2 H1 H2) as (Hv2 & Hrange).
  unfold utf8_encode_char. rewrite div_262144, div_4096.
  destruct (div_mod_64 (((v1 - 240) * 64 + (v2 - 128)) * 64 + (v3 - 128))
              (v4 - 128)) as [Hd Hm]; [lia|].
  rewrite Hd, Hm.
  destruct (div_mod_64 ((v1 - 240) * 64 + (v2 - 128)) (v3 - 128))
    as [Hd' Hm']; [lia|].
  rewrite Hd', Hm'.
  destruct (div_mod_64 (v1 - 240) (v2 - 128)) as [Hd2 Hm2]; [lia|].
  rewrite Hd2, Hm2.
  replace (_ <? 128) with false by (symmetry; apply N.ltb_ge; lia).
  replace (_ <? 2048) with false by (symmetry; apply N.ltb_ge; lia).
  replace (_ <? 65536) with false by (symmetry; apply N.ltb_ge; lia).
  replace (_ <? 1114112) with true by (symmetry; apply N.ltb_lt; lia).
  replace (240 + (v1 - 240)) with v1 by lia.
  replace (128 + (v2 - 128)) with v2 by lia.
  replace (128 + (v3 - 128)) with v3 by lia.
  by replace (128 + (v4 - 128)) with v4 by lia.
Qed.

(** What the decoder accepts, the encoder gives back. *)
Lemma decode_encode_bounded (k : nat) (data : list byte) (text : str) :
  (length data <= k)%nat ->
  utf8_decode data = Some text -> utf8_encode text = Some data.
Proof.
  revert data text. induction k as [|k IH]; intros data text Hk H.
  { destruct data; [|cbn in Hk; lia]. by injection H as <-. }
  destruct data as [|b1 t1]; [by injection H as <-|].
  cbn [utf8_decode] in H. cbv zeta in H. cbn [length] in Hk.
  destruct (Byte.to_N b1 <? 128) eqn:E1.
  { destruct (utf8_decode t1) as [s|] eqn:Ed; [|done].
    injection H as <-. cbn [utf8_encode].
    unfold utf8_encode_char. rewrite E1, byte_of_to_N.
    by rewrite (IH t1 s) by (done || lia). }
  destruct t1 as [|b2 t2]; [done|]. cbn [length] in Hk.
  destruct ((194 <=? Byte.to_N b1) && (Byte.to_N b1 <=? 223)) eqn:E2.
  { destruct (continuation (Byte.to_N b2)) eqn:Ec; [|done].
    destruct (utf8_decode t2) as [s|] eqn:Ed; [|done].
    injection H as <-. cbn [utf8_encode]. unfold continuation in Ec.
    bounds. rewrite encode_two by lia.
    rewrite (IH t2 s) by (done || lia). by rewrite !byte_of_to_N. }
  destruct t2 as [|b3 t3]; [done|]. cbn [length] in Hk.
  destruct ((224 <=? Byte.to_N b1) && (Byte.to_N b1 <=? 239)) eqn:E3.
  { destruct (second_of_three _ _ && continuation _) eqn:Ec; [|done].
    destruct (utf8_decode t3) as [s|] eqn:Ed; [|done].
    injection H as <-. cbn [utf8_encode].
    apply andb_true_iff in Ec as [Es Ec]. unfold continuation in Ec.
    bounds. rewrite encode_three by (done || lia).
    rewrite (IH t3 s) by (done || lia). by rewrite !byte_of_to_N. }
  destruct t3 as [|b4 t4]; [done|]. cbn [length] in Hk.
  destruct (_ && continuation (Byte.to_N b4)) eqn:Ec; [|done].
  destruct (utf8_decode t4) as [s|] eqn:Ed; [|done].
  injection H as <-. cbn [utf8_encode].
  apply andb_true_iff in Ec as [Ec Ec4].
  apply andb_true_iff in Ec as [Ec Ec3].
  apply andb_true_iff in Ec as [Ec Es].
  unfold continuation in Ec3, Ec4. bounds.
  rewrite encode_four by (done || lia).
  rewrite (IH t4 s) by (done || lia). by rewrite !byte_of_to_N.
Qed.

Lemma decode_encode (data : list byte) (text : str) :
  utf8_decode data = Some text -> utf8_encode text = Some data.
Proof. by apply (decode_encode_bounded (length data)). Qed.

End Utf8.

Section TextFile.

Lemma high_byte (base x lim : N) :
  (x < lim)%N -> (128 <= base)%N -> (base + lim <= 256)%N ->
  (128 <= Byte.to_N (byte_of (base + x)))%N.
Proof. intros. rewrite to_N_byte_of; lia. Qed.

Lemma encode_char_shape (c : char) (bytes : list byte) :
  utf8_encode_char c = Some bytes ->
  ((c < 128)%N /\ bytes = [byte_of c])
  \/ ((128 <= c)%N /\ Forall (fun b => (128 <= Byte.to_N b)%N) bytes).
Proof.
  unfold utf8_encode_char.
  assert (Hm : forall x, (x mod 64 < 64)%N)
    by (intros x; by apply N.mod_lt).
  destruct (c <? 128)%N eqn:E1.
  { intros [= <-]. left. by apply N.ltb_lt in E1. }
  apply N.ltb_ge in E1. intros H. right. split; [done|].
  destruct (c <? 2048)%N eqn:E2.
  { apply N.ltb_lt in E2. injection H as <-.
    assert (c / 64 < 32)%N by (apply N.Div0.div_lt_upper_bound; lia).
    apply Forall_cons_2; [by apply (high_byte 192 _ 32)|].
    apply Forall_cons_2; [by apply (high_byte 128 _ 64)|].
    apply Forall_nil_2. }
  destruct (c <? 65536)%N eqn:E3.
  { apply N.ltb_lt in E3. destruct (_ && _); [done|]. injection H as <-.
    assert (c / 4096 < 16)%N by (apply N.Div0.div_lt_upper_bound; lia).
    apply Forall_cons_2; [by apply (high_byte 224 _ 16)|].
    apply Forall_cons_2; [by apply (high_byte 128 _ 64)|].
    apply Forall_cons_2; [by apply (high_byte 128 _ 64)|].
    apply Forall_nil_2. }
  destruct (c <? 1114112)%N eqn:E4; [|done].
  apply N.ltb_lt in E4. injection H as <-.
  assert (c / 262144 < 5)%N by (apply N.Div0.div_lt_upper_bound; lia).
  apply Forall_cons_2; [by apply (high_byte 240 _ 5)|].
  apply Forall_cons_2; [by apply (high_byte 128 _ 64)|].
  apply Forall_cons_2; [by apply (high_byte 128 _ 64)|].
  apply Forall_cons_2; [by apply (high_byte 128 _ 64)|].
  apply Forall_nil_2.
Qed.

Lemma encode_char_return (c : char) (bytes : list byte) :
  utf8_encode_char c = Some bytes ->
  (Byte.x0d ∈ bytes <-> c = c_return).
Proof.
  intros H. apply encode_char_shape in H as [[Hc ->]|[Hc Hb]].
  - rewrite list_elem_of_singleton. split.
    + intros Hx. apply (f_equal Byte.to_N) in Hx.
      rewrite to_N_byte_of in Hx by lia. by subst c.
    + by intros ->.
  - split.
    + intros Hx. rewrite Forall_forall in Hb. apply Hb in Hx.
      cbn in Hx. lia.
    + intros ->. unfold c_return in Hc. lia.
Qed.

(** A carriage return in the bytes is a carriage return of the text. *)
Lemma encode_return (text : str) (data : list byte) :
  utf8_encode text = Some data ->
  (Byte.x0d ∈ data <-> c_return ∈ text).
Proof.
  revert data. induction text as [|c text IH]; intros data H;
    cbn [utf8_encode] in H.
  - injection H as <-. split; intros Hx; by apply elem_of_nil in Hx.
  - destruct (utf8_encode_char c) as [bytes|] eqn:Ec; [|done].
    destruct (utf8_encode text) as [rest|]; [|done]. injection H as <-.
    rewrite elem_of_app, elem_of_cons, (encode_char_return c bytes Ec).
    rewrite (IH rest eq_refl). split; intros [H|H]; auto.
Qed.

Lemma encode_encodable (text : str) (data : list byte) :
  utf8_encode text = Some data -> forallb encodable text = true.
Proof.
  revert data. induction text as [|c text IH]; intros data H; [done|].
  cbn [utf8_encode] in H. cbn [forallb]. unfold encodable at 1.
  destruct (utf8_encode_char c); [|done].
  destruct (utf8_encode text); [|done]. by rewrite (IH _ eq_refl).
Qed.

Lemma encodable_encode (text : str) :
  forallb encodable text = true -> exists data, utf8_encode text = Some data.
Proof.
  induction text as [|c text IH]; intros H; [by exists []|].
  cbn [forallb] in H. apply andb_true_iff in H as [Hc H].
  destruct (IH H) as (rest & Hrest). cbn [utf8_encode]. rewrite Hrest.
  unfold encodable in Hc.
  destruct (utf8_encode_char c) as [bytes|]; [|done]. by eexists.
Qed.

Lemma pair_induction (P : str -> Prop) :
  P [] -> (forall c, P [c]) ->
  (forall c c' s, P s -> P (c' :: s) -> P (c :: c' :: s)) ->
  forall s, P s.
Proof.
  intros H0 H1 H2 s.
  assert (H : P s /\ forall c, P (c :: s)); [|by destruct H].
  induction s as [|c' s [IH1 IH2]]; [by split|].
  split; [apply IH2|]. intros c. by apply H2.
Qed.

(** What is read in text mode holds no carriage return; its characters
    are those of the decoded text, and newlines. *)
Lemma universal_newlines_chars (text : str) (x : char) :
  x ∈ universal_newlines text ->
  x <> c_return /\ (x ∈ text \/ x = c_newline).
Proof.
  revert x. induction text as [|c|c c' s IH1 IH2] using pair_induction;
    intros x Hx.
  - by apply elem_of_nil in Hx.
  - cbn [universal_newlines] in Hx. destruct (ceq c c_return) eqn:E.
    + apply list_elem_of_singleton in Hx as ->. split; [done|by right].
    + apply list_elem_of_singleton in Hx as ->.
      apply ceq_false in E. split; [done|left; apply list_elem_of_here].
  - cbn [universal_newlines] in Hx. destruct (ceq c c_return) eqn:E.
    + apply elem_of_cons in Hx as [->|Hx]; [split; [done|by right]|].
      destruct (ceq c' c_newline).
      * destruct (IH1 x Hx) as [Hr [Hin|Hn]]; (split; [done|]);
          [left|by right].
        by do 2 apply list_elem_of_further.
      * change (x ∈ universal_newlines (c' :: s)) in Hx.
        destruct (IH2 x Hx) as [Hr [Hin|Hn]]; (split; [done|]);
          [left|by right].
        by apply list_elem_of_further.
    + apply ceq_false in E.
      apply elem_of_cons in Hx as [->|Hx];
        [split; [done|left; apply list_elem_of_here]|].
      destruct (IH2 x Hx) as [Hr [Hin|Hn]]; (split; [done|]);
        [left|by right].
      by apply list_elem_of_further.
Qed.

Lemma universal_newlines_id (text : str) :
  c_return ∉ text -> universal_newlines text = text.
Proof.
  induction text as [|c text IH]; intros H; [done|].
  apply not_elem_of_cons in H as [Hc H]. cbn [universal_newlines].
  replace (ceq c c_return) with false
    by (symmetry; apply ceq_false; congruence).
  by rewrite IH.
Qed.

Lemma write_newlines_posix (text : str) : write_newlines Posix text = text.
Proof.
  unfold write_newlines. induction text as [|c text IH]; [done|].
  cbn [flat_map]. rewrite IH. destruct (ceq c c_newline) eqn:E; [|done].
  apply ceq_true in E. by subst c.
Qed.

Lemma universal_newlines_encodable (text : str) :
  forallb encodable text = true ->
  forallb encodable (universal_newlines text) = true.
Proof.
  rewrite !forallb_forall. intros H x Hx.
  apply list_elem_of_In, universal_newlines_chars in Hx as [_ [Hx| ->]].
  - by apply H, list_elem_of_In.
  - done.
Qed.

Lemma write_newlines_encodable (os : os_name) (text : str) :
  forallb encodable text = true ->
  forallb encodable (write_newlines os text) = true.
Proof.
  rewrite !forallb_forall. intros H x Hx. unfold write_newlines in Hx.
  apply in_flat_map in Hx as (c & Hc & Hx).
  destruct (ceq c c_newline).
  - destruct os; cbn in Hx; intuition (by subst x).
  - cbn in Hx. destruct Hx as [<-|[]]. by apply H.
Qed.

Lemma byte_with_value (b : byte) (v : N) : Byte.to_N b = v -> b = byte_of v.
Proof. intros <-. by rewrite byte_of_to_N. Qed.

(** The fallback of the reader: when the file is not valid UTF-8, the
    second reading succeeds only on the first byte, or the first two
    bytes, of a byte order mark, and gives the empty text. *)
Lemma second_reading (data : list byte) (text : str) :
  utf8_decode data = None -> utf8_sig_decode data = Some text ->
  text = [] /\ (data = [Byte.xef] \/ data = [Byte.xef; Byte.xbb]).
Proof.
  intros H1 H2. unfold utf8_sig_decode in H2.
  destruct ((length data <? 3)%nat && is_prefix _ bom) eqn:E.
  - injection H2 as <-. split; [done|].
    apply andb_true_iff in E as [El Ep]. apply Nat.ltb_lt in El.
    destruct data as [|b1 [|b2 [|b3 data]]]; [done| | |cbn in El; lia].
    + left. cbn in Ep. apply andb_true_iff in Ep as [Eb1 _].
      apply ceq_true, byte_with_value in Eb1. by subst b1.
    + right. cbn in Ep. apply andb_true_iff in Ep as [Eb1 Ep].
      apply andb_true_iff in Ep as [Eb2 _].
      apply ceq_true, byte_with_value in Eb1.
      apply ceq_true, byte_with_value in Eb2. by subst b1 b2.
  - destruct (is_prefix bom _) eqn:Ep; [|congruence].
    exfalso.
    unfold bom in Ep.
    destruct data as [|b1 [|b2 [|b3 data]]]; cbn [is_prefix map] in Ep;
      rewrite ?andb_false_r in Ep; try done.
    apply andb_true_iff in Ep as [Eb1 Ep].
    apply andb_true_iff in Ep as [Eb2 Ep].
    apply andb_true_iff in Ep as [Eb3 _].
    apply ceq_true in Eb1, Eb2, Eb3.
    change (drop 3 (b1 :: b2 :: b3 :: data)) with data in H2.
    cbn [utf8_decode] in H1. cbv zeta in H1.
    rewrite <- Eb1, <- Eb2, <- Eb3 in H1. cbn in H1.
    by rewrite H2 in H1.
Qed.

Lemma read_text_file_inv (data : list byte) (content : str) :
  read_text_file data = Ok content ->
  (exists text, utf8_decode data = Some text
                /\ content = universal_newlines text)
  \/ (utf8_decode data = None /\ content = []).
Proof.
  unfold read_text_file, read_as.
  destruct (utf8_decode data) as [text|] eqn:E1.
  - intros [= <-]. left. by exists text.
  - destruct (utf8_sig_decode data) as [text|] eqn:E2; [|done].
    intros [= <-]. right. split; [done|].
    by destruct (second_reading data text E1 E2) as [-> _].
Qed.

Lemma read_encodable (data : list byte) (content : str) :
  read_text_file data = Ok content -> forallb encodable content = true.
Proof.
  intros H. apply read_text_file_inv in H as [(text & Hd & ->)|[_ ->]];
    [|done].
  apply universal_newlines_encodable.
  by apply (encode_encodable text data), decode_encode.
Qed.

(** The steps between reading and writing, on a text without a style
    block: nothing is extracted, and nothing is replaced. *)
Lemma content_without_block (content : str) :
  (forall a b c, content <> a ++ open_tag ++ b ++ close_tag ++ c) ->
  extract_css_from_html content = (content, [])
  /\ organize_css [] = Some []
  /\ write_organized_css content [] [] = content.
Proof.
  intros Hno. split; [|split].
  - unfold extract_css_from_html.
    destruct (search_from _ content 0) as [m|] eqn:Es; [|done].
    destruct (search_block content m Es) as (pre & post & Hc & _).
    by destruct (Hno pre (group m 1) post).
  - by rewrite organize_css_eq.
  - unfold write_organized_css.
    rewrite replace_nonempty by apply tags_nonempty.
    apply replace_from_none. intros q.
    destruct (is_prefix _ (drop q content)) eqn:E; [|done].
    apply is_prefix_app in E as [t Ht].
    destruct (Hno (take q content) [] t).
    rewrite <- (take_drop q content) at 1. rewrite Ht.
    by rewrite <- !app_assoc.
Qed.

(** X20: what [organize_css_file] does to a file whose text has no style
    block.  It returns, and the file then holds the text that was read,
    encoded in UTF-8 with every newline written as the line separator
    of the platform.  So the bytes of the file need not stay as they
    were: where the separator is the newline and the file was valid
    UTF-8, they do exactly when the file held no carriage return. *)
Theorem file_without_block_rewritten (os : os_name) (data : list byte)
    (content : str) :
  read_text_file data = Ok content ->
  (forall a b c, content <> a ++ open_tag ++ b ++ close_tag ++ c) ->
  exists data',
    organize_css_file os data = Returns data'
    /\ utf8_encode (write_newlines os content) = Some data'
    /\ (os = Posix -> utf8_decode data <> None ->
        (data' = data <-> Byte.x0d ∉ data)).
Proof.
  intros Hread Hno.
  destruct (content_without_block content Hno) as (He & Ho & Hw).
  destruct (encodable_encode (write_newlines os content)) as (data' & Hd').
  { by apply write_newlines_encodable, (read_encodable data). }
  exists data'. split; [|split; [done|]].
  - unfold organize_css_file. rewrite Hread, He, Ho, Hw.
    unfold write_text_file. by rewrite Hd'.
  - intros -> Hvalid. rewrite write_newlines_posix in Hd'.
    apply read_text_file_inv in Hread as [(text & Hd & ->)|[Hd _]];
      [|done].
    pose proof (decode_encode data text Hd) as Henc.
    split.
    + intros ->. rewrite (encode_return _ _ Hd').
      intros Hx. by apply universal_newlines_chars in Hx as [Hx _].
    + intros Hx. rewrite (encode_return _ _ Henc) in Hx.
      rewrite (universal_newlines_id text Hx) in Hd'. congruence.
Qed.

Lemma file_without_block_rewritten_witness :
  exists data',
    organize_css_file Posix
      (ascii_bytes "<p>no styles</p>" ++ [Byte.x0d; Byte.x0a])
    = Returns data'
    /\ data' <> ascii_bytes "<p>no styles</p>" ++ [Byte.x0d; Byte.x0a].
Proof.
  destruct (file_without_block_rewritten Posix
              (ascii_bytes "<p>no styles</p>" ++ [Byte.x0d; Byte.x0a])
              (py "<p>no styles</p>" ++ [c_newline]))
    as (data' & H1 & _ & H3).
  - reflexivity.
  - apply no_search_no_block. by vm_compute.
  - exists data'. split; [exact H1|]. intros Heq.
    apply (H3 eq_refl) in Heq; [|by vm_compute].
    apply Heq. apply elem_of_app. right. apply list_elem_of_here.
Defined.

(** X22: how the file is read (lines 97-102).  A file that is valid
    UTF-8 is read by the first reading, so a byte order mark at its
    start stays in the text, as the character [U+FEFF]: the second
    reading, which would leave the mark out, is not reached.  When the
    first reading raises, so does the second, except on a file that is
    the first byte or the first two bytes of a mark, which is read as
    the empty text. *)
Theorem byte_order_mark_is_kept (data : list byte) :
  (forall text, utf8_decode data = Some text ->
                read_text_file data = Ok (universal_newlines text))
  /\ (forall rest text,
        utf8_decode rest = Some text ->
        read_text_file (Byte.xef :: Byte.xbb :: Byte.xbf :: rest)
        = Ok (65279%N :: universal_newlines text))
  /\ (utf8_decode data = None ->
      data <> [Byte.xef] -> data <> [Byte.xef; Byte.xbb] ->
      read_text_file data = Raise)
  /\ read_text_file [Byte.xef] = Ok []
  /\ read_text_file [Byte.xef; Byte.xbb] = Ok [].
Proof.
  split; [|split; [|split; [|by split]]].
  - intros text H. unfold read_text_file, read_as. by rewrite H.
  - intros rest text H. unfold read_text_file, read_as.
    assert (Hd : utf8_decode (Byte.xef :: Byte.xbb :: Byte.xbf :: rest)
                 = Some (65279%N :: text)).
    { cbn [utf8_decode]. cbv zeta.
      change (Byte.to_N Byte.xef) with 239%N.
      change (Byte.to_N Byte.xbb) with 187%N.
      change (Byte.to_N Byte.xbf) with 191%N.
      cbn. by rewrite H. }
    by rewrite Hd.
  - intros H H1 H2. unfold read_text_file, read_as. rewrite H.
    destruct (utf8_sig_decode data) as [text|] eqn:E; [|done].
    by destruct (second_reading data text H E) as [_ [Hd|Hd]].
Qed.

End TextFile.
